(** * AutoGL: layer-dependent importance sampler and random split masks

    A shallow embedding of

    - [autogl/module/train/sampling/sampler/layer_dependent_importance_sampler.py]
      (class [LayerDependentImportanceSampler]) and
    - [autogl/datasets/utils/_general.py] ([index_to_mask],
      [random_splits_mask], [random_splits_mask_class],
      [graph_random_splits]).

    Conventions of the embedding.

    - A 1-D [torch.LongTensor] of node or edge indexes is a [list nat]; a
      [2 x E] edge-index tensor is the list of its [E] columns
      [(source, target)], so row [0] is [map fst] and row [1] is [map snd].
    - Floating-point tensors hold values of type [float] below: an exact
      rational or one of the IEEE special values.  Rounding is idealised
      (finite arithmetic is exact rational arithmetic); infinities, NaN and
      Python's [ZeroDivisionError] are kept.
    - Python exceptions are the left summand of [result].
    - The ambient random source (numpy's and torch's global generators) is an
      explicit state: a stream of raw generator outputs and a cursor.
    - A 1-D tensor of integer class labels is a [list Z]; a dataset is
      represented by what the split functions read from it (row counts,
      label tensors, its length).
    - The ratios of the split functions are finite doubles, held as the
      rationals they are.  [random_splits_mask] computes with them exactly;
      [graph_random_splits] rounds after every operation, with the rounding
      function as a parameter, and overflows to an infinity as doubles do.
    - [torch.manual_seed] is a parameter: the generator state a seed
      stands for.  It raises for a seed outside 64 bits; statements about
      seeded calls say when they need the seed to be accepted. *)

From Stdlib Require Import List Arith ZArith QArith Qround Lia Lqa Bool.
From Stdlib Require Import Permutation Sorted.
Import ListNotations.

Close Scope Q_scope.
Open Scope nat_scope.

Set Implicit Arguments.

(* ================================================================== *)
(** ** Python exceptions and results *)

Inductive exn : Type :=
| TypeError
| ValueError
| RuntimeError        (* raised inside torch *)
| IndexError
| ZeroDivisionError
| AssertionError
| OverflowError.

Definition result (A : Type) : Type := (exn + A)%type.

Definition ok {A} (a : A) : result A := inr a.
Definition raise {A} (e : exn) : result A := inl e.

Definition rbind {A B} (r : result A) (k : A -> result B) : result B :=
  match r with
  | inl e => inl e
  | inr a => k a
  end.

Declare Scope res_scope.
Delimit Scope res_scope with res.
Notation "x <- r ;; k" := (rbind r (fun x => k))
  (at level 61, r at next level, right associativity) : res_scope.
Notation "' p <- r ;; k" := (rbind r (fun x => let p := x in k))
  (at level 61, p pattern, r at next level, right associativity) : res_scope.

(** [[f(x) for x in xs]] where [f] may raise: left to right, first failure wins. *)
Fixpoint mapM {A B} (f : A -> result B) (xs : list A) : result (list B) :=
  match xs with
  | [] => ok []
  | x :: t =>
      (y <- f x ;; ys <- mapM f t ;; ok (y :: ys))%res
  end.

(* ================================================================== *)
(** ** Floating-point values *)

Inductive float : Type :=
| Fin (q : Q)
| PInf
| NInf
| NaN.

Definition Qsgn_pos (q : Q) : bool := Qle_bool 0 q && negb (Qeq_bool q 0).
Definition Qis0 (q : Q) : bool := Qeq_bool q 0.

Definition fadd (x y : float) : float :=
  match x, y with
  | NaN, _ | _, NaN => NaN
  | Fin a, Fin b => Fin (a + b)%Q
  | PInf, NInf | NInf, PInf => NaN
  | PInf, _ | _, PInf => PInf
  | NInf, _ | _, NInf => NInf
  end.

(** Sign of an infinity scaled by a finite factor; a zero factor gives NaN. *)
Definition inf_times (pos : bool) (q : Q) : float :=
  if Qis0 q then NaN
  else if Bool.eqb pos (Qsgn_pos q) then PInf else NInf.

Definition fmul (x y : float) : float :=
  match x, y with
  | NaN, _ | _, NaN => NaN
  | Fin a, Fin b => Fin (a * b)%Q
  | PInf, Fin b => inf_times true b
  | NInf, Fin b => inf_times false b
  | Fin a, PInf => inf_times true a
  | Fin a, NInf => inf_times false a
  | PInf, PInf | NInf, NInf => PInf
  | PInf, NInf | NInf, PInf => NInf
  end.

(** IEEE division as torch performs it on tensors: a zero divisor gives an
    infinity (or NaN for [0/0]); zeros are taken as [+0.0]. *)
Definition fdiv (x y : float) : float :=
  match x, y with
  | NaN, _ | _, NaN => NaN
  | Fin a, Fin b =>
      if Qis0 b then
        (if Qis0 a then NaN else if Qsgn_pos a then PInf else NInf)
      else Fin (a / b)%Q
  | Fin _, (PInf | NInf) => Fin 0%Q
  | (PInf | NInf), (PInf | NInf) => NaN
  | PInf, Fin b => if Qle_bool 0 b then PInf else NInf
  | NInf, Fin b => if Qle_bool 0 b then NInf else PInf
  end.

(** Python's [/] on two [float] objects ([.item()] values): as [fdiv], but a
    zero divisor raises. *)
Definition pydiv (x y : float) : result float :=
  match y with
  | Fin b => if Qis0 b then raise ZeroDivisionError else ok (fdiv x y)
  | _ => ok (fdiv x y)
  end.

Definition isinf (x : float) : bool :=
  match x with
  | PInf | NInf => true
  | _ => false
  end.

Definition isfinite (x : float) : bool :=
  match x with
  | Fin _ => true
  | _ => false
  end.

(** The rational held by a finite value (0 for the special values; only
    used under [isfinite]). *)
Definition val (x : float) : Q :=
  match x with
  | Fin q => q
  | _ => 0%Q
  end.

Definition of_nat (n : nat) : float := Fin (inject_Z (Z.of_nat n)).

(** [torch.sum] of a 1-D float tensor. *)
Definition fsum (t : list float) : float := fold_left fadd t (Fin 0%Q).

(* ================================================================== *)
(** ** Tensor primitives (torch) *)

Definition LongTensor := list nat.
Definition FloatTensor := list float.
Definition BoolTensor := list bool.
(** A [2 x E] tensor of longs, by columns. *)
Definition EdgeIndex := list (nat * nat).

Definition row0 (ei : EdgeIndex) : LongTensor := map fst ei.
Definition row1 (ei : EdgeIndex) : LongTensor := map snd ei.

(** Insertion into a strictly increasing list. *)
Fixpoint uinsert (x : nat) (l : list nat) : list nat :=
  match l with
  | [] => [x]
  | y :: t =>
      if x <? y then x :: l
      else if x =? y then l
      else y :: uinsert x t
  end.

(** [tensor.unique()] / [np.unique]: the sorted distinct values. *)
Definition unique (l : LongTensor) : LongTensor := fold_right uinsert [] l.

(** [torch.where(v == c)[0]]: ascending positions of [c] in [v]. *)
Fixpoint where_eq_from (i : nat) (v : LongTensor) (c : nat) : LongTensor :=
  match v with
  | [] => []
  | x :: t =>
      if x =? c then i :: where_eq_from (S i) t c else where_eq_from (S i) t c
  end.
Definition where_eq (v : LongTensor) (c : nat) : LongTensor := where_eq_from 0 v c.

(** [torch.where(mask)[0]]. *)
Fixpoint where_true_from (i : nat) (m : BoolTensor) : LongTensor :=
  match m with
  | [] => []
  | b :: t => if b then i :: where_true_from (S i) t else where_true_from (S i) t
  end.
Definition where_true (m : BoolTensor) : LongTensor := where_true_from 0 m.

(** [torch.cat] of a Python list of 1-D tensors; torch rejects the empty
    list.  The class of that error is torch's, not the sampler's, and it
    changed between versions of torch ([RuntimeError] up to 2.0,
    [ValueError] later): the model holds the first, and the statements
    about this failure leave the class open between the two. *)
Definition cat {A} (ts : list (list A)) : result (list A) :=
  match ts with
  | [] => raise RuntimeError
  | _ => ok (concat ts)
  end.

(** [t[idx]] with a long index tensor (a copy); out of range raises. *)
Definition gather {A} (t : list A) (idx : LongTensor) : result (list A) :=
  mapM (fun i => match nth_error t i with
                 | Some a => ok a
                 | None => raise IndexError
                 end) idx.

(** [t[mask]] with a boolean mask of the same length. *)
Fixpoint mask_select {A} (t : list A) (m : BoolTensor) : result (list A) :=
  match t, m with
  | [], [] => ok []
  | a :: t', b :: m' =>
      (r <- mask_select t' m' ;; ok (if b then a :: r else r))%res
  | _, _ => raise IndexError
  end.

(** [v == c] elementwise. *)
Definition eq_mask (v : LongTensor) (c : nat) : BoolTensor :=
  map (fun x => x =? c) v.

(** [torch.zeros(n, dtype=torch.bool)]. *)
Definition zeros_bool (n : nat) : BoolTensor := repeat false n.

Fixpoint set_true (m : BoolTensor) (i : nat) : BoolTensor :=
  match m, i with
  | [], _ => []
  | _ :: t, O => true :: t
  | b :: t, S j => b :: set_true t j
  end.

(** [mask[idx] = True]; an index out of range raises. *)
Fixpoint index_fill_true (m : BoolTensor) (idx : LongTensor) : result BoolTensor :=
  match idx with
  | [] => ok m
  | i :: t =>
      if i <? length m then index_fill_true (set_true m i) t
      else raise IndexError
  end.

(** [a & b] on boolean tensors of equal length. *)
Fixpoint mask_and (a b : BoolTensor) : BoolTensor :=
  match a, b with
  | x :: a', y :: b' => (x && y) :: mask_and a' b'
  | _, _ => []
  end.

(** [t.item()] of a tensor that must hold exactly one element. *)
Definition item {A} (t : list A) : result A :=
  match t with
  | [a] => ok a
  | _ => raise RuntimeError
  end.

(* ================================================================== *)
(** ** torch_geometric.utils *)

(** [maybe_num_nodes]: one more than the largest index, 0 for no index. *)
Definition maybe_num_nodes (index : LongTensor) : nat :=
  match index with
  | [] => 0
  | _ => S (list_max index)
  end.

(** [torch_geometric.utils.degree(index)]: a float tensor of length
    [maybe_num_nodes index] counting the occurrences of every node. *)
Definition degree (index : LongTensor) : FloatTensor :=
  map (fun n => of_nat (count_occ Nat.eq_dec index n))
      (seq 0 (maybe_num_nodes index)).

(** [torch_geometric.utils.add_remaining_self_loops(edge_index)[0]]: the
    edges that are not self-loops, in order, followed by one self-loop for
    every node [0 .. N-1]. *)
Definition add_remaining_self_loops (edge_index : EdgeIndex) : EdgeIndex :=
  let N := maybe_num_nodes (row0 edge_index ++ row1 edge_index) in
  filter (fun e => negb (fst e =? snd e)) edge_index
    ++ map (fun n => (n, n)) (seq 0 N).

(* ================================================================== *)
(** ** The ambient random source (numpy) *)

Record RNG : Type := mkRNG {
  raw : nat -> Z;      (* the generator's raw outputs *)
  cursor : nat         (* how many were consumed *)
}.

Definition two53 : Z := 9007199254740992.

(** One double in [[0, 1)]: a 53-bit integer over [2^53]. *)
Definition to_unit (z : Z) : Q := Qmake (z mod two53) (Z.to_pos two53).

(** [random_sample(k)]: the next [k] uniform doubles. *)
Definition random_sample (k : nat) (g : RNG) : list Q * RNG :=
  (map (fun i => to_unit (raw g i)) (seq (cursor g) k),
   mkRNG (raw g) (cursor g + k)).

Fixpoint cumsum_from (acc : Q) (p : list Q) : list Q :=
  match p with
  | [] => []
  | x :: t => (acc + x)%Q :: cumsum_from (acc + x)%Q t
  end.
Definition cumsum (p : list Q) : list Q := cumsum_from 0%Q p.

(** [cdf.searchsorted(u, side='right')] on a nondecreasing [cdf]: the first
    position whose entry exceeds [u]. *)
Fixpoint searchsorted_right (cdf : list Q) (u : Q) : nat :=
  match cdf with
  | [] => 0
  | c :: t => if Qle_bool c u then S (searchsorted_right t u) else 0
  end.

Definition is_negative (x : float) : bool :=
  match x with
  | Fin q => negb (Qle_bool 0 q)
  | NInf => true
  | _ => false
  end.

(** [np.random.choice(np.arange(n), size, p=p)] (with replacement).  The
    checks are numpy's, in its order; its tolerance on the sum of [p] is
    idealised to exact equality. *)
Definition np_random_choice (n : nat) (size : Z) (p : FloatTensor) (g : RNG)
  : result LongTensor * RNG :=
  if (n =? 0) && negb (size =? 0)%Z then (raise ValueError, g)
  else if negb (length p =? n) then (raise ValueError, g)
  else match fsum p with
       | NaN => (raise ValueError, g)
       | p_sum =>
           if existsb is_negative p then (raise ValueError, g)
           else match p_sum with
                | Fin s =>
                    if negb (Qeq_bool s 1) then (raise ValueError, g)
                    else if (size <? 0)%Z then (raise ValueError, g)
                    else
                      let cdf := cumsum (map val p) in
                      let cdf := map (fun c => (c / last cdf 0)%Q) cdf in
                      let '(us, g') := random_sample (Z.to_nat size) g in
                      (ok (map (searchsorted_right cdf) us), g')
                | _ => (raise ValueError, g)
                end
       end.

(* ================================================================== *)
(** ** LayerDependentImportanceSampler._Utility *)

Module _Utility.

(** Elementwise [a * b] of two float tensors of equal length. *)
Fixpoint tmul (a b : FloatTensor) : FloatTensor :=
  match a, b with
  | x :: a', y :: b' => fmul x y :: tmul a' b'
  | _, _ => []
  end.

(** [temp_tensor[torch.isinf(temp_tensor)] = 0.0]. *)
Definition clamp_inf (t : FloatTensor) : FloatTensor :=
  map (fun x => if isinf x then Fin 0%Q else x) t.

Definition compute_edge_weights (all_edge_index_with_self_loops : EdgeIndex)
  : result FloatTensor :=
  let out_degree := degree (row0 all_edge_index_with_self_loops) in
  let in_degree := degree (row1 all_edge_index_with_self_loops) in
  (t0 <- gather out_degree (row0 all_edge_index_with_self_loops) ;;
   t1 <- gather in_degree (row1 all_edge_index_with_self_loops) ;;
   let t0 := map (fdiv (Fin 1%Q)) t0 in
   let t1 := map (fdiv (Fin 1%Q)) t1 in
   let t0 := clamp_inf t0 in
   let t1 := clamp_inf t1 in
   ok (tmul t0 t1))%res.

Definition get_candidate_source_nodes_probabilities
  (all_candidate_edge_indexes : LongTensor)
  (all_edge_index_with_self_loops : EdgeIndex)
  (all_edge_weights : FloatTensor)
  : result (LongTensor * FloatTensor) :=
  (_all_candidate_edges <-
     gather all_edge_index_with_self_loops all_candidate_edge_indexes ;;
   _all_candidate_edges_weights <-
     gather all_edge_weights all_candidate_edge_indexes ;;
   let all_candidate_source_nodes_indexes :=
     unique (row0 _all_candidate_edges) in
   all_candidate_source_nodes_probabilities <-
     mapM (fun _current_source_node_index =>
             w <- mask_select _all_candidate_edges_weights
                    (eq_mask (row0 _all_candidate_edges)
                             _current_source_node_index) ;;
             pydiv (fsum w) (fsum _all_candidate_edges_weights))
          all_candidate_source_nodes_indexes ;;
   if length all_candidate_source_nodes_indexes
      =? length all_candidate_source_nodes_probabilities
   then ok (all_candidate_source_nodes_indexes,
            all_candidate_source_nodes_probabilities)
   else raise AssertionError)%res.

Definition filter_selected_edges_by_source_nodes_and_target_nodes
  (all_edges_with_self_loops : EdgeIndex)
  (selected_source_node_indexes : LongTensor)
  (selected_target_node_indexes : LongTensor)
  : result LongTensor :=
  (let E := length all_edges_with_self_loops in
   src_idx <- cat (map (where_eq (row0 all_edges_with_self_loops))
                       (unique selected_source_node_indexes)) ;;
   selected_edges_mask_for_source_nodes <-
     index_fill_true (zeros_bool E) (unique src_idx) ;;
   tgt_idx <- cat (map (where_eq (row1 all_edges_with_self_loops))
                       (unique selected_target_node_indexes)) ;;
   selected_edges_mask_for_target_nodes <-
     index_fill_true (zeros_bool E) tgt_idx ;;
   ok (where_true (mask_and selected_edges_mask_for_source_nodes
                            selected_edges_mask_for_target_nodes)))%res.

End _Utility.

(* ================================================================== *)
(** ** The sampler object and the state its methods run in *)

Record Sampler : Type := mkSampler {
  all_edge_index_with_self_loops : EdgeIndex;
  all_edge_weights : FloatTensor
}.

(** What a method call can read or write: the sampler object [self] and the
    global random source. *)
Record World : Type := mkWorld {
  self : Sampler;
  np_random : RNG
}.

Definition M (A : Type) : Type := World -> result A * World.

Definition ret {A} (a : A) : M A := fun w => (ok a, w).
Definition throw {A} (e : exn) : M A := fun w => (raise e, w).
Definition bind {A B} (m : M A) (k : A -> M B) : M B :=
  fun w => match m w with
           | (inl e, w') => (inl e, w')
           | (inr a, w') => k a w'
           end.
(** A computation that touches neither the object nor the random source. *)
Definition lift {A} (r : result A) : M A := fun w => (r, w).
(** Reading an attribute of [self]. *)
Definition attr {A} (f : Sampler -> A) : M A := fun w => (ok (f (self w)), w).
(** A computation on the random source alone. *)
Definition with_rng {A} (f : RNG -> result A * RNG) : M A :=
  fun w => let '(r, g) := f (np_random w) in (r, mkWorld (self w) g).

Declare Scope m_scope.
Delimit Scope m_scope with M.
Notation "x <- m ;; k" := (bind m (fun x => k))
  (at level 61, m at next level, right associativity) : m_scope.
Notation "' p <- m ;; k" := (bind m (fun x => let p := x in k))
  (at level 61, p pattern, m at next level, right associativity) : m_scope.

(** [LayerDependentImportanceSampler.__init__]. *)
Definition __init__ (all_edge_index : EdgeIndex) : result Sampler :=
  (let ei := add_remaining_self_loops all_edge_index in
   w <- _Utility.compute_edge_weights ei ;;
   ok (mkSampler ei w))%res.

(** The 4-tuple [__sample_layer] returns. *)
Record LayerSample : Type := mkLayerSample {
  ls_edge_index : EdgeIndex;
  ls_edge_weight : FloatTensor;
  ls_selected_source_nodes : LongTensor;
  ls_selected_edge_indexes : LongTensor
}.

(** Elementwise [a / b] of two float tensors of equal length. *)
Fixpoint tdiv (a b : FloatTensor) : FloatTensor :=
  match a, b with
  | x :: a', y :: b' => fdiv x y :: tdiv a' b'
  | _, _ => []
  end.

(** [w[mask] = w[mask] / s]. *)
Fixpoint div_where (w : FloatTensor) (m : BoolTensor) (s : float) : FloatTensor :=
  match w, m with
  | x :: w', b :: m' => (if b then fdiv x s else x) :: div_where w' m' s
  | _, _ => w
  end.

(** The body of the loop of [__normalize_edges_weight_by_target_nodes] for
    one target node. *)
Definition normalize_step (__edge_index : EdgeIndex)
  (__edge_weight : result FloatTensor) (current_target_node_index : nat)
  : result FloatTensor :=
  (w <- __edge_weight ;;
   let __current_mask_for_edges :=
     eq_mask (row1 __edge_index) current_target_node_index in
   sel <- mask_select w __current_mask_for_edges ;;
   ok (div_where w __current_mask_for_edges (fsum sel)))%res.

Definition __normalize_edges_weight_by_target_nodes
  (__edge_index : EdgeIndex) (__edge_weight : FloatTensor)
  : result FloatTensor :=
  if negb (length __edge_index =? length __edge_weight) then raise ValueError
  else fold_left (normalize_step __edge_index)
                 (unique (row1 __edge_index)) (ok __edge_weight).

(** Lines 112-117: the candidate edge indexes of a target-node tensor. *)
Definition candidate_edge_indexes (E : EdgeIndex)
  (target_nodes_indexes : LongTensor) : result LongTensor :=
  (c <- cat (map (where_eq (row1 E)) (unique target_nodes_indexes)) ;;
   ok (unique c))%res.

(** Lines 126-137: the selection step. *)
Definition select_source_nodes
  (__all_candidate_source_nodes_indexes : LongTensor)
  (all_candidate_source_nodes_probabilities : FloatTensor)
  (sampled_node_size_budget : Z) : M LongTensor :=
  if (sampled_node_size_budget
      <? Z.of_nat (length __all_candidate_source_nodes_indexes))%Z
  then
    (draws <- with_rng
                (np_random_choice
                   (length __all_candidate_source_nodes_indexes)
                   sampled_node_size_budget
                   all_candidate_source_nodes_probabilities) ;;
     picked <- lift (gather __all_candidate_source_nodes_indexes
                            (unique (unique draws))) ;;
     ret (unique picked))%M
  else ret __all_candidate_source_nodes_indexes.

(** Lines 146-158: the weights before normalization. *)
Definition non_normalized_weights (E : EdgeIndex) (W : FloatTensor)
  (__all_candidate_source_nodes_indexes : LongTensor)
  (all_candidate_source_nodes_probabilities : FloatTensor)
  (selected_source_node_indexes __selected_edges_indexes : LongTensor)
  : result FloatTensor :=
  (w_sel <- gather W __selected_edges_indexes ;;
   srcs <- gather (row0 E) __selected_edges_indexes ;;
   ps <- mapM (fun current_source_node_index =>
                 p <- mask_select all_candidate_source_nodes_probabilities
                        (eq_mask __all_candidate_source_nodes_indexes
                                 current_source_node_index) ;;
                 item p) srcs ;;
   ok (tdiv w_sel
            (map (fmul (of_nat (length selected_source_node_indexes))) ps)))%res.

(** [LayerDependentImportanceSampler.__sample_layer]. *)
Definition __sample_layer (target_nodes_indexes : LongTensor)
  (sampled_node_size_budget : Z) : M LayerSample :=
  (E <- attr all_edge_index_with_self_loops ;;
   all_candidate_edge_indexes <-
     lift (candidate_edge_indexes E target_nodes_indexes) ;;
   W <- attr all_edge_weights ;;
   '(__all_candidate_source_nodes_indexes,
     all_candidate_source_nodes_probabilities) <-
     lift (_Utility.get_candidate_source_nodes_probabilities
             all_candidate_edge_indexes E W) ;;
   _ <- (if length __all_candidate_source_nodes_indexes
            =? length all_candidate_source_nodes_probabilities
         then ret tt else throw AssertionError) ;;
   selected_source_node_indexes <-
     select_source_nodes __all_candidate_source_nodes_indexes
                         all_candidate_source_nodes_probabilities
                         sampled_node_size_budget ;;
   E <- attr all_edge_index_with_self_loops ;;
   filtered <-
     lift (_Utility.filter_selected_edges_by_source_nodes_and_target_nodes
             E selected_source_node_indexes target_nodes_indexes) ;;
   let __selected_edges_indexes := unique filtered in
   W <- attr all_edge_weights ;;
   E <- attr all_edge_index_with_self_loops ;;
   non_normalized_selected_edges_weight <-
     lift (non_normalized_weights E W
             __all_candidate_source_nodes_indexes
             all_candidate_source_nodes_probabilities
             selected_source_node_indexes __selected_edges_indexes) ;;
   E <- attr all_edge_index_with_self_loops ;;
   E_sel <- lift (gather E __selected_edges_indexes) ;;
   normalized_selected_edges_weight <-
     lift (__normalize_edges_weight_by_target_nodes
             E_sel non_normalized_selected_edges_weight) ;;
   E <- attr all_edge_index_with_self_loops ;;
   E_ret <- lift (gather E __selected_edges_indexes) ;;
   ret (mkLayerSample E_ret normalized_selected_edges_weight
                      selected_source_node_indexes
                      __selected_edges_indexes))%M.

(** Python values held by the tuples [sample] returns. *)
Inductive pyval : Type :=
| VEdgeIndex (t : EdgeIndex)
| VFloatTensor (t : FloatTensor)
| VLongTensor (t : LongTensor).

(** A Python tuple. *)
Definition pytuple := list pyval.

(** The tuple [__sample_layer] returns, as a Python value. *)
Definition tuple_of_layer_sample (r : LayerSample) : pytuple :=
  [VEdgeIndex (ls_edge_index r); VFloatTensor (ls_edge_weight r);
   VLongTensor (ls_selected_source_nodes r);
   VLongTensor (ls_selected_edge_indexes r)].

(** The loop of [sample] over [sampling_node_size_budgets[::-1]]. *)
Fixpoint sample_loop (budgets_reversed : list Z)
  (upper_layer_sampled_node_indexes : LongTensor) (layers : list pytuple)
  : M (list pytuple) :=
  match budgets_reversed with
  | [] => ret layers
  | current_sampled_node_size_budget :: rest =>
      (_sampling_result <-
         __sample_layer upper_layer_sampled_node_indexes
                        current_sampled_node_size_budget ;;
       let current_layer_edge_index := ls_edge_index _sampling_result in
       let current_layer_edge_weight := ls_edge_weight _sampling_result in
       sample_loop rest (ls_selected_source_nodes _sampling_result)
         (layers ++ [[VEdgeIndex current_layer_edge_index;
                      VFloatTensor current_layer_edge_weight]]))%M
  end.

(** [LayerDependentImportanceSampler.sample].  The two [TypeError] checks
    are discharged by the types of the arguments. *)
Definition sample (__top_layer_target_nodes_indexes : LongTensor)
  (sampling_node_size_budgets : list Z) : M (list pytuple) :=
  if length sampling_node_size_budgets =? 0 then throw ValueError
  else
    (layers <- sample_loop (rev sampling_node_size_budgets)
                           __top_layer_target_nodes_indexes [] ;;
     ret (rev layers))%M.

(* ------------------------------------------------------------------ *)
(** *** The scenario of the specification: a path on four nodes *)

Definition path4 : EdgeIndex := [(0, 1); (1, 2); (2, 3)].

Definition const_rng (z : Z) : RNG := mkRNG (fun _ => z) 0.

Definition run {A} (m : M A) (s : Sampler) (g : RNG) : result A :=
  fst (m (mkWorld s g)).

(* ================================================================== *)
(** ** autogl/datasets/utils/_general.py: random split masks *)

(** [index_to_mask(index, size)]. *)
Definition index_to_mask (index : LongTensor) (size : nat) : result BoolTensor :=
  index_fill_true (zeros_bool size) index.

Fixpoint remove_nth {A} (k : nat) (l : list A) : list A :=
  match l, k with
  | [], _ => []
  | _ :: t, O => t
  | x :: t, S k' => x :: remove_nth k' t
  end.

(** [torch.randperm(n)]: the generator picks, one raw output at a time,
    the next entry among the indexes not yet taken. *)
Fixpoint randperm_from (fuel : nat) (pool : list nat) (raw : nat -> Z)
  (cur : nat) : list nat :=
  match fuel with
  | O => []
  | S f =>
      let k := Z.to_nat (raw cur mod Z.of_nat (length pool)) in
      nth k pool 0 :: randperm_from f (remove_nth k pool) raw (S cur)
  end.

Definition randperm (n : nat) (g : RNG) : LongTensor * RNG :=
  (randperm_from n (seq 0 n) (raw g) (cursor g),
   mkRNG (raw g) (cursor g + n)).

(** Python's [int(x)] on a finite float: truncation toward zero. *)
Definition int_of_float (q : Q) : Z :=
  if Qle_bool 0 q then Qfloor q else Qceiling q.

(** The position a slice bound stands for in a sequence of length [len]:
    negative bounds count from the end, and bounds are clipped. *)
Definition slice_index (len : nat) (i : Z) : nat :=
  if (i <? 0)%Z then Z.to_nat (Z.max 0 (i + Z.of_nat len))
  else Nat.min (Z.to_nat i) len.

(** [l[start:stop]]; [None] is an omitted bound. *)
Definition slice {A} (l : list A) (start stop : option Z) : list A :=
  let a := match start with
           | None => 0
           | Some i => slice_index (length l) i
           end in
  let b := match stop with
           | None => length l
           | Some i => slice_index (length l) i
           end in
  firstn (b - a) (skipn a l).

Definition Masks : Type := (BoolTensor * BoolTensor * BoolTensor)%type.

Section RandomSplits.

(** [torch.manual_seed]: the generator state a seed stands for. *)
Variable manual_seed : Z -> RNG.





End RandomSplits.

(* ================================================================== *)
(** ** autogl/datasets/utils/_general.py: graph_random_splits *)

(** The three index tensors [graph_random_splits] stores on the dataset. *)
Record GraphSplit : Type := mkGraphSplit {
  train_index : LongTensor;
  val_index : LongTensor;
  test_index : LongTensor
}.

(** A value of this magnitude or more is beyond the largest double and
    rounds to an infinity: [2^1024 - 2^970], half a unit in the last place
    above the largest double. *)
Definition double_overflow : Q := inject_Z (2 ^ 1024 - 2 ^ 970).

Section GraphRandomSplits.

(** [torch.manual_seed]: the generator state a seed stands for. *)
Variable manual_seed : Z -> RNG.

(** Rounding to the nearest double, for values within the range of the
    doubles.  The arithmetic of [graph_random_splits] is kept as Python
    does it, one rounding per operation; what a statement needs of the
    rounding is a hypothesis of that statement. *)
Variable round : Q -> Q.

(** The double a real value rounds to. *)
Definition to_double (q : Q) : float :=
  if Qle_bool double_overflow q then PInf
  else if Qle_bool q (- double_overflow) then NInf
  else Fin (round q).

(** [x + y] on two finite doubles. *)
Definition double_add (x y : Q) : float := to_double (x + y).

(** [n * x] for a Python [int] [n] and a double [x]: the integer is
    converted to a double first, which raises when it is too large. *)
Definition int_times_double (n : nat) (x : float) : result float :=
  let qn := inject_Z (Z.of_nat n) in
  if Qle_bool double_overflow qn then raise OverflowError
  else ok (match x with
           | Fin q => to_double (round qn * q)
           | PInf => if n =? 0 then NaN else PInf
           | NInf => if n =? 0 then NaN else NInf
           | NaN => NaN
           end).

(** [int(x)] on a double: truncation toward zero; Python refuses an
    infinity with [OverflowError] and a NaN with [ValueError]. *)
Definition int_of_double (x : float) : result Z :=
  match x with
  | Fin q => ok (int_of_float q)
  | PInf | NInf => raise OverflowError
  | NaN => raise ValueError
  end.

(** [int(len(dataset) * x)]. *)
Definition split_bound (len_dataset : nat) (x : float) : result Z :=
  (p <- int_times_double len_dataset x ;; int_of_double p)%res.

(** [graph_random_splits].  The function reads only [len(dataset)] of the
    dataset; the ratios are finite doubles; [seed] is [Some sd] for an
    [int] seed and [None] for any other value (the default [...]
    included).  There is no check on the ratios, and the generator is put
    back only when the function runs to its end. *)
Definition graph_random_splits (len_dataset : nat)
  (train_ratio val_ratio : Q) (seed : option Z) (g : RNG)
  : result GraphSplit * RNG :=
  let _rng_state := g in
  let g := match seed with
           | Some sd => manual_seed sd
           | None => g
           end in
  let '(perm, g) := randperm len_dataset g in
  match (train_index <-
           (a <- split_bound len_dataset (Fin train_ratio) ;;
            ok (slice perm None (Some a))) ;;
         val_index <-
           (a <- split_bound len_dataset (Fin train_ratio) ;;
            b <- split_bound len_dataset
                             (double_add train_ratio val_ratio) ;;
            ok (slice perm (Some a) (Some b))) ;;
         test_index <-
           (b <- split_bound len_dataset
                             (double_add train_ratio val_ratio) ;;
            ok (slice perm (Some b) None)) ;;
         ok (mkGraphSplit train_index val_index test_index))%res with
  | inl e => (inl e, g)
  | inr dataset => (ok dataset, _rng_state)
  end.

End GraphRandomSplits.

(* ================================================================== *)
(** ** autogl/datasets/utils/_general.py: random_splits_mask_class *)

(** [(label == class_index).nonzero().view(-1)] on a 1-D tensor of integer
    labels: the ascending positions that hold [class_index]. *)
Fixpoint nonzero_eq_from (i : nat) (label : list Z) (c : Z) : LongTensor :=
  match label with
  | [] => []
  | x :: t =>
      if (x =? c)%Z then i :: nonzero_eq_from (S i) t c
      else nonzero_eq_from (S i) t c
  end.
Definition nonzero_eq (label : list Z) (c : Z) : LongTensor :=
  nonzero_eq_from 0 label c.

(** [label.max().item()]; torch raises on a tensor without elements. *)
Definition tensor_max (label : list Z) : result Z :=
  match label with
  | [] => raise RuntimeError
  | x :: t => ok (fold_left Z.max t x)
  end.

(** [range(n)] for a Python integer [n]. *)
Definition range (n : Z) : list Z := map Z.of_nat (seq 0 (Z.to_nat n)).

(** [~m]. *)
Definition mask_not (m : BoolTensor) : BoolTensor := map negb m.

(** [a + b] on boolean tensors of equal length (logical or). *)
Fixpoint mask_or (a b : BoolTensor) : BoolTensor :=
  match a, b with
  | x :: a', y :: b' => (x || y) :: mask_or a' b'
  | _, _ => []
  end.

(** [isinstance(n, int) and n > 0] for an optional count. *)
Definition positive_int (n : option Z) : bool :=
  match n with
  | Some k => (0 <? k)%Z
  | None => false
  end.

Section ClassSplits.

Variable manual_seed : Z -> RNG.

(** One round of the loop over the classes: the train and validation masks
    are updated in place, the generator advances. *)
Definition class_step (label : list Z)
  (num_train_per_class num_val_per_class : Z)
  (masks : BoolTensor * BoolTensor) (class_index : Z) (g : RNG)
  : result (BoolTensor * BoolTensor) * RNG :=
  let '(train_mask, val_mask) := masks in
  let idx := nonzero_eq label class_index in
  if negb (num_train_per_class + num_val_per_class
           <? Z.of_nat (length idx))%Z
  then (raise AssertionError, g)
  else
    let '(randomized_index, g) := randperm (length idx) g in
    ((train_idx <-
        gather idx (slice randomized_index None (Some num_train_per_class)) ;;
      val_idx <-
        gather idx
               (slice randomized_index (Some num_train_per_class)
                      (Some (num_train_per_class + num_val_per_class)%Z)) ;;
      train_mask <- index_fill_true train_mask train_idx ;;
      val_mask <- index_fill_true val_mask val_idx ;;
      ok (train_mask, val_mask))%res, g).

Fixpoint class_loop (label : list Z)
  (num_train_per_class num_val_per_class : Z) (classes : list Z)
  (masks : BoolTensor * BoolTensor) (g : RNG)
  : result (BoolTensor * BoolTensor) * RNG :=
  match classes with
  | [] => (ok masks, g)
  | class_index :: rest =>
      match class_step label num_train_per_class num_val_per_class
                       masks class_index g with
      | (inl e, g') => (inl e, g')
      | (inr masks', g') =>
          class_loop label num_train_per_class num_val_per_class rest
                     masks' g'
      end
  end.

(** The part of the loop body after the loop over the classes: the
    validation mask is completed and the test mask filled, either from a
    shuffle of the nodes outside the train mask (when [total_num_val] is a
    positive [int]) or from the nodes outside both masks. *)
Definition fill_test_mask (num_nodes : nat)
  (total_num_val total_num_test : option Z)
  (train_mask val_mask : BoolTensor) (g : RNG) : result Masks * RNG :=
  let test_mask := zeros_bool num_nodes in
  if positive_int total_num_val then
    let tv := match total_num_val with Some k => k | None => 0%Z end in
    let remaining := where_true (mask_not train_mask) in
    let '(perm, g) := randperm (length remaining) g in
    ((remaining <- gather remaining perm ;;
      val_mask <- index_fill_true val_mask (slice remaining None (Some tv)) ;;
      test_mask <-
        (if positive_int total_num_test then
           let nt := match total_num_test with Some k => k | None => 0%Z end in
           index_fill_true test_mask
                           (slice remaining (Some tv) (Some (tv + nt)%Z))
         else
           index_fill_true test_mask (slice remaining (Some tv) None)) ;;
      ok (train_mask, val_mask, test_mask))%res, g)
  else
    let remaining := where_true (mask_not (mask_or train_mask val_mask)) in
    ((test_mask <- index_fill_true test_mask remaining ;;
      ok (train_mask, val_mask, test_mask))%res, g).

(** The body of the loop of [random_splits_mask_class] for one node store
    with the 1-D integer tensor [label]; [seed], [total_num_val] and
    [total_num_test] are [Some k] for an [int] and [None] otherwise.  The
    generator is put back only when the body runs to its end. *)
Definition class_split_masks (label : list Z)
  (num_train_per_class num_val_per_class : Z)
  (total_num_val total_num_test seed : option Z) (g : RNG)
  : result Masks * RNG :=
  let num_nodes := length label in
  match tensor_max label with
  | inl e => (inl e, g)
  | inr mx =>
      let num_classes := (mx + 1)%Z in
      let _rng_state := g in
      let g := match seed with
               | Some sd => manual_seed sd
               | None => g
               end in
      let train_mask := zeros_bool num_nodes in
      let val_mask := zeros_bool num_nodes in
      match class_loop label num_train_per_class num_val_per_class
                       (range num_classes) (train_mask, val_mask) g with
      | (inl e, g) => (inl e, g)
      | (inr (train_mask, val_mask), g) =>
          match fill_test_mask num_nodes total_num_val total_num_test
                               train_mask val_mask g with
          | (inl e, g) => (inl e, g)
          | (inr masks, g) => (ok masks, _rng_state)
          end
      end
  end.




End ClassSplits.

(* ================================================================== *)
(** ** Notions used in the statements *)

(** The entries of [t] at the true positions of [m] (what [t[m]] holds when
    it does not raise). *)
Fixpoint select_by {A} (t : list A) (m : BoolTensor) : list A :=
  match t, m with
  | a :: t', b :: m' => if b then a :: select_by t' m' else select_by t' m'
  | _, _ => []
  end.

(** Out- and in-degree of a node: its occurrences as source and as target. *)
Definition out_degree (E : EdgeIndex) (n : nat) : nat :=
  count_occ Nat.eq_dec (row0 E) n.

Definition in_degree (E : EdgeIndex) (n : nat) : nat :=
  count_occ Nat.eq_dec (row1 E) n.

(** The number of nodes of an edge index: one more than its largest entry. *)
Definition num_nodes (E : EdgeIndex) : nat :=
  maybe_num_nodes (row0 E ++ row1 E).

Definition Qnat (n : nat) : Q := inject_Z (Z.of_nat n).

(** The weight the specification gives an edge:
    [1/outdeg(src) * 1/indeg(tgt)]. *)
Definition edge_weight (E : EdgeIndex) (e : nat * nat) : Q :=
  ((1 / Qnat (out_degree E (fst e))) * (1 / Qnat (in_degree E (snd e))))%Q.

Definition Qsum (l : list Q) : Q := fold_right Qplus 0%Q l.

(** A finite, strictly positive float. *)
Definition finpos (x : float) : Prop :=
  match x with
  | Fin q => (0 < q)%Q
  | _ => False
  end.

(** [approx x q]: the float [x] is finite and holds the rational [q]. *)
Definition approx (x : float) (q : Q) : Prop :=
  match x with
  | Fin q' => (q' == q)%Q
  | _ => False
  end.

(** A finite, non-negative float. *)
Definition finnonneg (x : float) : Prop :=
  match x with
  | Fin q => (0 <= q)%Q
  | _ => False
  end.

(** Weight mass of the candidate edges with source [s], and of all
    candidate edges. *)
Definition source_weight (E : EdgeIndex) (W : FloatTensor)
  (cand : LongTensor) (s : nat) : Q :=
  Qsum (map (fun i => val (nth i W NaN))
            (filter (fun i => fst (nth i E (0, 0)) =? s) cand)).

Definition total_weight (W : FloatTensor) (cand : LongTensor) : Q :=
  Qsum (map (fun i => val (nth i W NaN)) cand).

(** The unique source nodes of the edges listed in [cand]. *)
Definition candidate_sources (E : EdgeIndex) (cand : LongTensor) : LongTensor :=
  unique (row0 (map (fun i => nth i E (0, 0)) cand)).

(** The probability attached to candidate source [s]: the entry of [probs]
    at the position of [s] in [srcs]. *)
Fixpoint prob_of (srcs : LongTensor) (probs : FloatTensor) (s : nat) : float :=
  match srcs, probs with
  | x :: srcs', p :: probs' => if x =? s then p else prob_of srcs' probs' s
  | _, _ => NaN
  end.

(** Lines 139-185 of [__sample_layer], once the source nodes are selected. *)
Definition finish_layer (E : EdgeIndex) (W : FloatTensor)
  (targets srcs : LongTensor) (probs : FloatTensor) (sel : LongTensor)
  : result LayerSample :=
  (filtered <-
     _Utility.filter_selected_edges_by_source_nodes_and_target_nodes
       E sel targets ;;
   let se := unique filtered in
   raw <- non_normalized_weights E W srcs probs sel se ;;
   E_sel <- gather E se ;;
   norm <- __normalize_edges_weight_by_target_nodes E_sel raw ;;
   E_ret <- gather E se ;;
   ok (mkLayerSample E_ret norm sel se))%res.



(** The sampler the constructor builds on the path [0 -> 1 -> 2 -> 3]. *)
Definition path4_sampler : Sampler :=
  Eval vm_compute in
    match __init__ path4 with
    | inr s => s
    | inl _ => mkSampler [] []
    end.

(** [g'] is [g] after at most [k] more raw outputs were consumed. *)
Definition advanced_by (k : nat) (g g' : RNG) : Prop :=
  raw g' = raw g /\ cursor g <= cursor g' <= cursor g + k.

(** What the statements about [graph_random_splits] use of rounding to the
    nearest double: it is monotone, it leaves the integers up to [2^53]
    as they are, and it at most doubles a non-negative value. *)
Definition rounding (round : Q -> Q) : Prop :=
  (forall x y, (x <= y)%Q -> (round x <= round y)%Q)
  /\ (forall z, (Z.abs z <= 2 ^ 53)%Z ->
                (round (inject_Z z) == inject_Z z)%Q)
  /\ (forall x, (0 <= x)%Q -> (round x <= 2 * x)%Q).

(** [x] is a double: rounding leaves it as it is. *)
Definition is_double (round : Q -> Q) (x : Q) : Prop := (round x == x)%Q.

(** The seeds [torch.manual_seed] accepts: the integers of 64 bits, signed
    or unsigned.  It raises for any other, so a statement about a seeded
    call is about these. *)
Definition seed_accepted (seed : option Z) : Prop :=
  match seed with
  | Some sd => (- 2 ^ 63 <= sd < 2 ^ 64)%Z
  | None => True
  end.

(** [c] is one of the class indexes the loop of [random_splits_mask_class]
    visits for [label]: [0 <= c <= max(label)]. *)
Definition class_index_of (label : list Z) (c : Z) : Prop :=
  (0 <= c)%Z /\ exists x, In x label /\ (c <= x)%Z.




(* ================================================================== *)
(** * Facts about the primitives *)

Section ResultFacts.
Context {A B : Type}.

Lemma mapM_ok (f : A -> result B) (g : A -> B) (xs : list A) :
  (forall x, In x xs -> f x = ok (g x)) -> mapM f xs = ok (map g xs).
Proof.
  induction xs as [|x t IH]; intros H; simpl; [reflexivity|].
  rewrite (H x (or_introl eq_refl)); simpl.
  rewrite IH by (intros y Hy; apply H; now right).
  reflexivity.
Qed.

End ResultFacts.

Section UniqueFacts.

Lemma uinsert_In (x y : nat) (l : list nat) :
  In y (uinsert x l) <-> y = x \/ In y l.
Proof.
  induction l as [|z t IH]; simpl.
  - intuition.
  - destruct (x <? z) eqn:Hlt; [simpl; intuition|].
    destruct (x =? z) eqn:Heq.
    + apply Nat.eqb_eq in Heq; subst; simpl; intuition.
    + simpl; rewrite IH; intuition.
Qed.

Lemma unique_In (y : nat) (l : list nat) : In y (unique l) <-> In y l.
Proof.
  induction l as [|x t IH]; simpl; [tauto|].
  unfold unique in *; simpl. rewrite uinsert_In, IH. intuition.
Qed.

Lemma uinsert_sorted (x : nat) (l : list nat) :
  StronglySorted lt l -> StronglySorted lt (uinsert x l).
Proof.
  induction 1 as [|z t Hs IH Hz]; simpl.
  - repeat constructor.
  - destruct (x <? z) eqn:Hlt.
    + apply Nat.ltb_lt in Hlt. constructor.
      * now constructor.
      * constructor; [assumption|].
        rewrite Forall_forall in *; intros u Hu.
        specialize (Hz u Hu); lia.
    + destruct (x =? z) eqn:Heq; [now constructor|].
      apply Nat.ltb_ge in Hlt; apply Nat.eqb_neq in Heq.
      constructor; [assumption|].
      rewrite Forall_forall in *; intros u Hu.
      apply uinsert_In in Hu as [->|Hu]; [lia|auto].
Qed.

Lemma unique_sorted (l : list nat) : StronglySorted lt (unique l).
Proof.
  induction l as [|x t IH]; [constructor|].
  unfold unique in *; simpl; now apply uinsert_sorted.
Qed.

Lemma sorted_NoDup (l : list nat) : StronglySorted lt l -> NoDup l.
Proof.
  induction 1 as [|z t Hs IH Hz]; constructor; [|assumption].
  intros Hin. rewrite Forall_forall in Hz. specialize (Hz z Hin); lia.
Qed.

Lemma unique_NoDup (l : list nat) : NoDup (unique l).
Proof. apply sorted_NoDup, unique_sorted. Qed.

Lemma uinsert_length (x : nat) (l : list nat) :
  length (uinsert x l) <= S (length l).
Proof.
  induction l as [|z t IH]; simpl; [lia|].
  destruct (x <? z); [simpl; lia|].
  destruct (x =? z); simpl; lia.
Qed.

Lemma unique_length (l : list nat) : length (unique l) <= length l.
Proof.
  induction l as [|x t IH]; simpl; [lia|].
  unfold unique in *; simpl.
  pose proof (uinsert_length x (fold_right uinsert [] t)); lia.
Qed.

Lemma unique_nonempty (l : list nat) : l <> [] -> unique l <> [].
Proof.
  destruct l as [|x t]; [congruence|]; intros _ H.
  assert (Hin : In x (unique (x :: t))) by (apply unique_In; now left).
  rewrite H in Hin; contradiction.
Qed.

(** A strictly increasing tensor is its own [unique]. *)
Lemma uinsert_below (x : nat) (l : list nat) :
  Forall (lt x) l -> uinsert x l = x :: l.
Proof.
  destruct l as [|z t]; simpl; [reflexivity|].
  intros H; inversion H; subst.
  assert (Hlt : (x <? z) = true) by now apply Nat.ltb_lt.
  now rewrite Hlt.
Qed.

Lemma unique_of_sorted (l : list nat) : StronglySorted lt l -> unique l = l.
Proof.
  induction 1 as [|z t Hs IH Hz]; [reflexivity|].
  unfold unique in *; simpl. rewrite IH. now apply uinsert_below.
Qed.

Lemma unique_idem (l : list nat) : unique (unique l) = unique l.
Proof. apply unique_of_sorted, unique_sorted. Qed.

End UniqueFacts.

Section WhereFacts.

Lemma where_eq_from_In (v : LongTensor) (c i k : nat) :
  In k (where_eq_from i v c) <-> i <= k /\ nth_error v (k - i) = Some c.
Proof.
  revert i; induction v as [|x t IH]; intros i; simpl.
  - split; [tauto|]. intros [_ H]. destruct (k - i); discriminate.
  - destruct (x =? c) eqn:Heq; simpl; rewrite ?IH.
    + apply Nat.eqb_eq in Heq; subst x. split.
      * intros [<-|[Hle Hn]].
        -- rewrite Nat.sub_diag; simpl; auto.
        -- split; [lia|].
           replace (k - i) with (S (k - S i)) by lia; exact Hn.
      * intros [Hle Hn].
        destruct (Nat.eq_dec i k) as [->|Hne]; [now left|right].
        split; [lia|].
        replace (k - i) with (S (k - S i)) in Hn by lia; exact Hn.
    + apply Nat.eqb_neq in Heq. split.
      * intros [Hle Hn]. split; [lia|].
        replace (k - i) with (S (k - S i)) by lia; exact Hn.
      * intros [Hle Hn].
        destruct (Nat.eq_dec i k) as [->|Hne].
        -- rewrite Nat.sub_diag in Hn; simpl in Hn; congruence.
        -- split; [lia|].
           replace (k - i) with (S (k - S i)) in Hn by lia; exact Hn.
Qed.

Lemma where_eq_In (v : LongTensor) (c k : nat) :
  In k (where_eq v c) <-> nth_error v k = Some c.
Proof.
  unfold where_eq. rewrite where_eq_from_In, Nat.sub_0_r.
  split; [tauto|]. intros H; split; [lia|assumption].
Qed.

Lemma where_true_from_In (m : BoolTensor) (i k : nat) :
  In k (where_true_from i m) <-> i <= k /\ nth_error m (k - i) = Some true.
Proof.
  revert i; induction m as [|b t IH]; intros i; simpl.
  - split; [tauto|]. intros [_ H]. destruct (k - i); discriminate.
  - destruct b; simpl; rewrite ?IH.
    + split.
      * intros [<-|[Hle Hn]].
        -- rewrite Nat.sub_diag; simpl; auto.
        -- split; [lia|].
           replace (k - i) with (S (k - S i)) by lia; exact Hn.
      * intros [Hle Hn].
        destruct (Nat.eq_dec i k) as [->|Hne]; [now left|right].
        split; [lia|].
        replace (k - i) with (S (k - S i)) in Hn by lia; exact Hn.
    + split.
      * intros [Hle Hn]. split; [lia|].
        replace (k - i) with (S (k - S i)) by lia; exact Hn.
      * intros [Hle Hn].
        destruct (Nat.eq_dec i k) as [->|Hne].
        -- rewrite Nat.sub_diag in Hn; simpl in Hn; congruence.
        -- split; [lia|].
           replace (k - i) with (S (k - S i)) in Hn by lia; exact Hn.
Qed.

Lemma where_true_In (m : BoolTensor) (k : nat) :
  In k (where_true m) <-> nth_error m k = Some true.
Proof.
  unfold where_true. rewrite where_true_from_In, Nat.sub_0_r.
  split; [tauto|]. intros H; split; [lia|assumption].
Qed.

Lemma where_true_from_sorted (m : BoolTensor) (i : nat) :
  StronglySorted lt (where_true_from i m).
Proof.
  revert i; induction m as [|b t IH]; intros i; simpl; [constructor|].
  destruct b; [|apply IH].
  constructor; [apply IH|].
  apply Forall_forall; intros k Hk.
  apply where_true_from_In in Hk; lia.
Qed.

Lemma where_true_sorted (m : BoolTensor) : StronglySorted lt (where_true m).
Proof. apply where_true_from_sorted. Qed.

End WhereFacts.

Section MaskFacts.

Lemma set_true_length (m : BoolTensor) (i : nat) :
  length (set_true m i) = length m.
Proof.
  revert i; induction m as [|b t IH]; intros [|j]; simpl; auto.
Qed.

Lemma set_true_nth (m : BoolTensor) (i k : nat) :
  i < length m ->
  nth_error (set_true m i) k = Some true <->
  (k = i \/ nth_error m k = Some true).
Proof.
  revert i k; induction m as [|b t IH]; intros i k Hi; simpl in Hi; [lia|].
  destruct i as [|j]; destruct k as [|k']; simpl.
  - intuition.
  - intuition; discriminate.
  - intuition; discriminate.
  - rewrite IH by lia. intuition.
Qed.

Lemma zeros_bool_length (n : nat) : length (zeros_bool n) = n.
Proof. apply repeat_length. Qed.

Lemma zeros_bool_nth (n k : nat) : nth_error (zeros_bool n) k <> Some true.
Proof.
  intros H. apply nth_error_In in H. apply repeat_spec in H. discriminate.
Qed.

Lemma index_fill_true_ok (idx : LongTensor) (m : BoolTensor) :
  Forall (fun i => i < length m) idx ->
  exists m', index_fill_true m idx = ok m'
             /\ length m' = length m
             /\ forall k, nth_error m' k = Some true <->
                          (nth_error m k = Some true \/ In k idx).
Proof.
  revert m; induction idx as [|i t IH]; intros m H; simpl.
  - exists m; repeat split; auto; tauto.
  - inversion H as [|? ? Hi Ht]; subst.
    assert (Hlt : (i <? length m) = true) by now apply Nat.ltb_lt.
    rewrite Hlt.
    destruct (IH (set_true m i)) as (m' & Hm' & Hlen & Hnth).
    { rewrite set_true_length; exact Ht. }
    exists m'; split; [exact Hm'|]; split.
    + now rewrite Hlen, set_true_length.
    + intros k. rewrite Hnth, set_true_nth by assumption. intuition.
Qed.

Lemma mask_and_nth (a b : BoolTensor) (k : nat) :
  length a = length b ->
  nth_error (mask_and a b) k = Some true <->
  (nth_error a k = Some true /\ nth_error b k = Some true).
Proof.
  revert b k; induction a as [|x a IH]; intros [|y b] k; simpl;
    try discriminate.
  - intros _; destruct k; simpl; intuition; discriminate.
  - intros [= H]. destruct k as [|k']; simpl.
    + destruct x, y; simpl; intuition; discriminate.
    + now apply IH.
Qed.

Lemma gather_ok {A} (d : A) (t : list A) (idx : LongTensor) :
  Forall (fun i => i < length t) idx ->
  gather t idx = ok (map (fun i => nth i t d) idx).
Proof.
  intros H. unfold gather. apply mapM_ok.
  intros i Hi. rewrite Forall_forall in H. specialize (H i Hi).
  destruct (nth_error t i) as [a|] eqn:E.
  - now rewrite (nth_error_nth _ _ d E).
  - apply nth_error_None in E; lia.
Qed.

Lemma mask_select_ok {A} (t : list A) (m : BoolTensor) :
  length t = length m -> mask_select t m = ok (select_by t m).
Proof.
  revert m; induction t as [|a t IH]; intros [|b m]; simpl;
    try discriminate; [reflexivity|].
  intros [= H]. rewrite (IH m H); simpl. now destruct b.
Qed.

Lemma eq_mask_length (v : LongTensor) (c : nat) :
  length (eq_mask v c) = length v.
Proof. apply length_map. Qed.

Lemma select_by_In {A} (t : list A) (m : BoolTensor) (a : A) :
  In a (select_by t m) -> In a t.
Proof.
  revert m; induction t as [|x t IH]; intros [|b m]; simpl; try tauto.
  destruct b; simpl; intros H; [destruct H; [now left|]|]; right; eauto.
Qed.

End MaskFacts.

(* ================================================================== *)
(** * The edge set built at construction *)

Section GraphFacts.

Lemma list_max_ge (l : list nat) (x : nat) : In x l -> x <= list_max l.
Proof.
  intros H. pose proof (proj1 (list_max_le l (list_max l)) (le_n _)) as F.
  rewrite Forall_forall in F. now apply F.
Qed.

Lemma maybe_num_nodes_gt (l : list nat) (x : nat) :
  In x l -> x < maybe_num_nodes l.
Proof.
  intros H. destruct l as [|y t]; [contradiction|].
  unfold maybe_num_nodes. apply list_max_ge in H. lia.
Qed.

Lemma maybe_num_nodes_le (l : list nat) (n : nat) :
  Forall (fun x => x < n) l -> maybe_num_nodes l <= n.
Proof.
  intros H. destruct l as [|y t]; [simpl; lia|].
  unfold maybe_num_nodes.
  assert (Hne : y :: t <> []) by discriminate.
  apply (list_max_lt n Hne) in H. lia.
Qed.

Lemma degree_length (index : LongTensor) :
  length (degree index) = maybe_num_nodes index.
Proof. unfold degree. now rewrite length_map, length_seq. Qed.

Lemma degree_nth (index : LongTensor) (n : nat) :
  n < maybe_num_nodes index ->
  nth n (degree index) NaN = of_nat (count_occ Nat.eq_dec index n).
Proof.
  intros H. unfold degree.
  rewrite (nth_indep _ NaN (of_nat (count_occ Nat.eq_dec index 0)))
    by (rewrite length_map, length_seq; exact H).
  rewrite (map_nth (fun n => of_nat (count_occ Nat.eq_dec index n))).
  now rewrite seq_nth.
Qed.

Variable edge_index : EdgeIndex.
Let E := add_remaining_self_loops edge_index.
Let N := num_nodes edge_index.

Lemma self_loop_present (n : nat) : n < N -> In (n, n) E.
Proof.
  intros H. unfold E, add_remaining_self_loops.
  apply in_or_app; right.
  apply in_map_iff. exists n; split; [reflexivity|].
  apply in_seq. unfold N, num_nodes in H. lia.
Qed.

Lemma augmented_endpoints (e : nat * nat) :
  In e E -> fst e < N /\ snd e < N.
Proof.
  unfold E, add_remaining_self_loops. intros H.
  apply in_app_or in H as [H|H].
  - apply filter_In in H as [H _].
    split; apply maybe_num_nodes_gt; apply in_or_app.
    + left. unfold row0. now apply in_map.
    + right. unfold row1. now apply in_map.
  - apply in_map_iff in H as (n & <- & Hn).
    apply in_seq in Hn. simpl. unfold N, num_nodes. lia.
Qed.

Lemma augmented_num_nodes : num_nodes E = N.
Proof.
  apply Nat.le_antisymm.
  - apply maybe_num_nodes_le. apply Forall_forall. intros x Hx.
    apply in_app_or in Hx as [Hx|Hx];
      apply in_map_iff in Hx as (e & <- & He);
      now apply augmented_endpoints in He.
  - destruct N as [|n] eqn:HN; [lia|].
    assert (Hin : In (n, n) E) by (apply self_loop_present; lia).
    apply Nat.le_succ_l. apply maybe_num_nodes_gt.
    apply in_or_app; left. unfold row0.
    change n with (fst (n, n)). now apply in_map.
Qed.

Lemma augmented_out_degree (n : nat) : n < N -> 1 <= out_degree E n.
Proof.
  intros H. unfold out_degree.
  apply (proj1 (count_occ_In Nat.eq_dec (row0 E) n)).
  unfold row0. change n with (fst (n, n)).
  apply in_map. now apply self_loop_present.
Qed.

Lemma augmented_in_degree (n : nat) : n < N -> 1 <= in_degree E n.
Proof.
  intros H. unfold in_degree.
  apply (proj1 (count_occ_In Nat.eq_dec (row1 E) n)).
  unfold row1. change n with (snd (n, n)).
  apply in_map. now apply self_loop_present.
Qed.

(** The augmentation only adds edges. *)
Lemma augmented_keeps_edges : incl edge_index E.
Proof.
  intros [a b] He. destruct (Nat.eq_dec a b) as [->|Hne].
  - apply self_loop_present. unfold N, num_nodes.
    apply maybe_num_nodes_gt, in_or_app. left.
    unfold row0. change b with (fst (b, b)). now apply in_map.
  - unfold E, add_remaining_self_loops. apply in_or_app. left.
    apply filter_In. split; [exact He|]. cbn [fst snd].
    apply Nat.eqb_neq in Hne. now rewrite Hne.
Qed.

End GraphFacts.

(* ================================================================== *)
(** * compute_edge_weights *)

Section EdgeWeightFacts.

Lemma Qnat_pos (n : nat) : 1 <= n -> (0 < Qnat n)%Q.
Proof.
  intros H. unfold Qnat, Qlt; simpl. lia.
Qed.

Lemma Qis0_false (q : Q) : (0 < q)%Q -> Qis0 q = false.
Proof.
  intros H. unfold Qis0. destruct (Qeq_bool q 0) eqn:E; [|reflexivity].
  apply Qeq_bool_eq in E. rewrite E in H. exfalso; revert H; apply Qlt_irrefl.
Qed.

Lemma reciprocal_finite (n : nat) :
  1 <= n -> fdiv (Fin 1%Q) (of_nat n) = Fin (1 / Qnat n)%Q.
Proof.
  intros H. unfold of_nat; simpl. fold (Qnat n).
  now rewrite (Qis0_false (Qnat_pos H)).
Qed.

Lemma clamp_inf_no_inf (t : FloatTensor) :
  Forall (fun x => isinf x = false) (_Utility.clamp_inf t).
Proof.
  unfold _Utility.clamp_inf. apply Forall_forall. intros x Hx.
  apply in_map_iff in Hx as (y & <- & _). now destruct y.
Qed.

Lemma weights_of_counts (c0 c1 : nat -> nat) (L : EdgeIndex) :
  (forall e, In e L -> 1 <= c0 (fst e) /\ 1 <= c1 (snd e)) ->
  _Utility.tmul
    (_Utility.clamp_inf
       (map (fdiv (Fin 1%Q)) (map (fun i => of_nat (c0 i)) (row0 L))))
    (_Utility.clamp_inf
       (map (fdiv (Fin 1%Q)) (map (fun i => of_nat (c1 i)) (row1 L))))
  = map (fun e => Fin ((1 / Qnat (c0 (fst e))) * (1 / Qnat (c1 (snd e))))%Q) L.
Proof.
  induction L as [|e L IH]; intros H; [reflexivity|].
  destruct (H e (or_introl eq_refl)) as [H0 H1].
  cbn [row0 row1 map _Utility.clamp_inf _Utility.tmul].
  rewrite (reciprocal_finite H0), (reciprocal_finite H1).
  cbn [isinf fmul]. f_equal.
  apply IH. intros e' He'. apply H. now right.
Qed.

Lemma gather_degree (index : LongTensor) :
  gather (degree index) index
  = ok (map (fun i => of_nat (count_occ Nat.eq_dec index i)) index).
Proof.
  rewrite (gather_ok NaN).
  - f_equal. apply map_ext_in. intros i Hi.
    apply degree_nth. now apply maybe_num_nodes_gt.
  - apply Forall_forall. intros i Hi.
    rewrite degree_length. now apply maybe_num_nodes_gt.
Qed.

(** On every edge index the computation succeeds and gives the formula. *)
Lemma compute_edge_weights_spec (E : EdgeIndex) :
  _Utility.compute_edge_weights E = ok (map (fun e => Fin (edge_weight E e)) E).
Proof.
  unfold _Utility.compute_edge_weights.
  rewrite !gather_degree. cbn [rbind ok]. unfold ok. f_equal.
  apply (weights_of_counts
           (fun i => count_occ Nat.eq_dec (row0 E) i)
           (fun i => count_occ Nat.eq_dec (row1 E) i)).
  intros e He. split.
  - apply (proj1 (count_occ_In Nat.eq_dec (row0 E) (fst e))).
    unfold row0. now apply in_map.
  - apply (proj1 (count_occ_In Nat.eq_dec (row1 E) (snd e))).
    unfold row1. now apply in_map.
Qed.

Lemma edge_weight_pos (E : EdgeIndex) (e : nat * nat) :
  In e E -> (0 < edge_weight E e)%Q.
Proof.
  intros He. unfold edge_weight.
  assert (H0 : 1 <= out_degree E (fst e)).
  { apply (proj1 (count_occ_In Nat.eq_dec (row0 E) (fst e))).
    unfold row0. now apply in_map. }
  assert (H1 : 1 <= in_degree E (snd e)).
  { apply (proj1 (count_occ_In Nat.eq_dec (row1 E) (snd e))).
    unfold row1. now apply in_map. }
  apply Qnat_pos in H0, H1.
  apply Qmult_lt_0_compat; apply Qlt_shift_div_l; trivial; lra.
Qed.

Lemma init_spec (edge_index : EdgeIndex) :
  __init__ edge_index
  = ok (mkSampler (add_remaining_self_loops edge_index)
          (map (fun e => Fin (edge_weight
                                (add_remaining_self_loops edge_index) e))
               (add_remaining_self_loops edge_index))).
Proof.
  unfold __init__. now rewrite compute_edge_weights_spec.
Qed.

End EdgeWeightFacts.

(* ================================================================== *)
(** * Sums of float tensors *)

Section SumFacts.

Lemma Qsum_nonneg (l : list Q) :
  Forall (fun q => (0 <= q)%Q) l -> (0 <= Qsum l)%Q.
Proof.
  induction 1 as [|x l Hx _ IH]; simpl; lra.
Qed.

Lemma Qsum_pos (l : list Q) :
  l <> [] -> Forall (fun q => (0 < q)%Q) l -> (0 < Qsum l)%Q.
Proof.
  intros Hne H. destruct H as [|x l Hx Hl]; [congruence|].
  simpl. assert (0 <= Qsum l)%Q.
  { apply Qsum_nonneg. eapply Forall_impl; [|exact Hl].
    intros q Hq; simpl in Hq; lra. }
  lra.
Qed.

Lemma Qsum_ext (a b : list Q) :
  Forall2 Qeq a b -> (Qsum a == Qsum b)%Q.
Proof.
  induction 1 as [|x y a b Hxy _ IH]; simpl; [reflexivity|].
  rewrite Hxy, IH. reflexivity.
Qed.

Lemma Qsum_map_scale (c : Q) (l : list Q) :
  (Qsum (map (fun q => q * c) l) == Qsum l * c)%Q.
Proof.
  induction l as [|x l IH]; simpl; [lra|]. rewrite IH. lra.
Qed.

Lemma fold_fadd_finite (l : list float) (a : Q) :
  Forall (fun x => isfinite x = true) l ->
  exists q, fold_left fadd l (Fin a) = Fin q
            /\ (q == a + Qsum (map val l))%Q.
Proof.
  revert a; induction l as [|x l IH]; intros a H; simpl.
  - exists a; split; [reflexivity|lra].
  - inversion H as [|? ? Hx Hl]; subst.
    destruct x as [q| | |]; try discriminate. simpl.
    destruct (IH (a + q)%Q Hl) as (r & Hr & Hq).
    exists r; split; [exact Hr|]. rewrite Hq. lra.
Qed.

Lemma fsum_finite (l : list float) :
  Forall (fun x => isfinite x = true) l ->
  exists q, fsum l = Fin q /\ (q == Qsum (map val l))%Q.
Proof.
  intros H. destruct (fold_fadd_finite 0 H) as (q & Hq & He).
  exists q; split; [exact Hq|]. rewrite He. lra.
Qed.

Lemma finpos_finite (x : float) : finpos x -> isfinite x = true.
Proof. now destruct x. Qed.

Lemma finpos_val (x : float) : finpos x -> (0 < val x)%Q.
Proof. now destruct x. Qed.

Lemma Forall_finpos_finite (l : list float) :
  Forall finpos l -> Forall (fun x => isfinite x = true) l.
Proof. apply Forall_impl. exact finpos_finite. Qed.

Lemma fsum_finpos (l : list float) :
  l <> [] -> Forall finpos l -> finpos (fsum l).
Proof.
  intros Hne H.
  destruct (fsum_finite (Forall_finpos_finite H)) as (q & Hq & He).
  rewrite Hq; simpl. rewrite He. apply Qsum_pos.
  - destruct l; [congruence|discriminate].
  - apply Forall_forall. intros v Hv.
    apply in_map_iff in Hv as (x & <- & Hx).
    rewrite Forall_forall in H. apply finpos_val. now apply H.
Qed.

Lemma approx_val (x : float) (q : Q) : approx x q -> (val x == q)%Q.
Proof. now destruct x. Qed.

Lemma select_by_Forall {A} (P : A -> Prop) (t : list A) (m : BoolTensor) :
  Forall P t -> Forall P (select_by t m).
Proof.
  intros H. apply Forall_forall. intros a Ha.
  rewrite Forall_forall in H. apply H. eapply select_by_In; eauto.
Qed.

End SumFacts.

(* ================================================================== *)
(** * Candidate edges and candidate-source probabilities *)

Section CandidateFacts.

Lemma cat_map_ok {A} (f : nat -> list A) (U : LongTensor) :
  U <> [] -> cat (map f U) = ok (concat (map f U)).
Proof. destruct U; [congruence|reflexivity]. Qed.

Lemma in_concat_where (v : LongTensor) (U : LongTensor) (i : nat) :
  In i (concat (map (where_eq v) U)) <->
  exists t, In t U /\ nth_error v i = Some t.
Proof.
  rewrite in_concat. split.
  - intros (l & Hl & Hi). apply in_map_iff in Hl as (t & <- & Ht).
    exists t; split; [assumption|]. now apply where_eq_In.
  - intros (t & Ht & Hn). exists (where_eq v t); split.
    + now apply in_map.
    + now apply where_eq_In.
Qed.

Lemma nth_error_row1 (E : EdgeIndex) (i t : nat) :
  nth_error (row1 E) i = Some t <->
  exists e, nth_error E i = Some e /\ snd e = t.
Proof.
  unfold row1. rewrite nth_error_map.
  destruct (nth_error E i) as [e|]; simpl; split.
  - intros [= <-]; eauto.
  - intros (e' & [= <-] & <-); reflexivity.
  - discriminate.
  - intros (e' & H & _); discriminate.
Qed.

Lemma nth_error_row0 (E : EdgeIndex) (i t : nat) :
  nth_error (row0 E) i = Some t <->
  exists e, nth_error E i = Some e /\ fst e = t.
Proof.
  unfold row0. rewrite nth_error_map.
  destruct (nth_error E i) as [e|]; simpl; split.
  - intros [= <-]; eauto.
  - intros (e' & [= <-] & <-); reflexivity.
  - discriminate.
  - intros (e' & H & _); discriminate.
Qed.

(** Lines 112-117 on a non-empty target tensor. *)
Lemma candidate_edge_indexes_ok (E : EdgeIndex) (targets : LongTensor) :
  targets <> [] ->
  exists cand,
    candidate_edge_indexes E targets = ok cand
    /\ NoDup cand
    /\ forall i, In i cand <->
                 exists e, nth_error E i = Some e /\ In (snd e) targets.
Proof.
  intros Hne.
  exists (unique (concat (map (where_eq (row1 E)) (unique targets)))).
  split; [|split].
  - unfold candidate_edge_indexes.
    rewrite (cat_map_ok (where_eq (row1 E))) by now apply unique_nonempty.
    reflexivity.
  - apply unique_NoDup.
  - intros i. rewrite unique_In, in_concat_where. split.
    + intros (t & Ht & Hn). rewrite unique_In in Ht.
      apply nth_error_row1 in Hn as (e & He & <-). eauto.
    + intros (e & He & Ht). exists (snd e); split.
      * now rewrite unique_In.
      * apply nth_error_row1; eauto.
Qed.

Lemma candidate_in_range (E : EdgeIndex) (cand : LongTensor) :
  (forall i, In i cand -> exists e, nth_error E i = Some e) ->
  Forall (fun i => i < length E) cand.
Proof.
  intros H. apply Forall_forall. intros i Hi.
  destruct (H i Hi) as (e & He).
  apply nth_error_Some. congruence.
Qed.

Lemma select_by_map_filter {A B} (f : A -> B) (g : A -> bool) (l : list A) :
  select_by (map f l) (map g l) = map f (filter g l).
Proof.
  induction l as [|a l IH]; simpl; [reflexivity|].
  destruct (g a); simpl; now rewrite IH.
Qed.

Lemma Qsum_map_plus {A} (f g : A -> Q) (U : list A) :
  (Qsum (map (fun s => f s + g s) U) == Qsum (map f U) + Qsum (map g U))%Q.
Proof.
  induction U as [|u U IH]; simpl; [lra|]. rewrite IH. lra.
Qed.

Lemma Qsum_indicator (k : nat) (v : Q) (U : list nat) :
  NoDup U -> In k U ->
  (Qsum (map (fun s => if k =? s then v else 0) U) == v)%Q.
Proof.
  induction 1 as [|u U Hnotin Hnd IH]; intros Hin; [contradiction|].
  simpl. destruct (k =? u) eqn:E.
  - apply Nat.eqb_eq in E; subst u.
    assert (Z : (Qsum (map (fun s => if k =? s then v else 0) U) == 0)%Q).
    { clear - Hnotin. induction U as [|u U IH]; simpl; [reflexivity|].
      destruct (k =? u) eqn:E.
      - apply Nat.eqb_eq in E; subst. exfalso; apply Hnotin; now left.
      - rewrite IH; [lra|]. intros H; apply Hnotin; now right. }
    rewrite Z. lra.
  - apply Nat.eqb_neq in E.
    destruct Hin as [->|Hin]; [congruence|]. rewrite (IH Hin). lra.
Qed.

(** Grouping a weighted list by key and summing the groups gives the
    sum of the list. *)
Lemma Qsum_by_key {A} (key : A -> nat) (w : A -> Q) (l : list A)
      (U : list nat) :
  NoDup U -> (forall a, In a l -> In (key a) U) ->
  (Qsum (map (fun s => Qsum (map w (filter (fun a => key a =? s) l))) U)
   == Qsum (map w l))%Q.
Proof.
  intros Hnd. induction l as [|a l IH]; intros Hcov.
  - simpl. clear. induction U as [|u U IHU]; simpl; [reflexivity|].
    rewrite IHU. lra.
  - assert (Heq : Forall2 Qeq
      (map (fun s => Qsum (map w (filter (fun a0 => key a0 =? s) (a :: l)))) U)
      (map (fun s => (if key a =? s then w a else 0)
                     + Qsum (map w (filter (fun a0 => key a0 =? s) l)))%Q U)).
    { clear. induction U as [|u U IHU]; simpl; constructor; [|exact IHU].
      destruct (key a =? u); simpl; lra. }
    rewrite (Qsum_ext Heq), Qsum_map_plus.
    rewrite Qsum_indicator by (auto; apply Hcov; now left).
    rewrite IH by (intros b Hb; apply Hcov; now right).
    simpl. lra.
Qed.

End CandidateFacts.

Section ProbabilityFacts.

Variables (E : EdgeIndex) (W : FloatTensor) (cand : LongTensor).

Let cw : FloatTensor := map (fun i => nth i W NaN) cand.
Let group (s : nat) : FloatTensor :=
  map (fun i => nth i W NaN)
      (filter (fun i => fst (nth i E (0, 0)) =? s) cand).

Hypothesis cand_in_E : Forall (fun i => i < length E) cand.
Hypothesis cand_in_W : Forall (fun i => i < length W) cand.

Lemma eq_mask_candidates (s : nat) :
  eq_mask (row0 (map (fun i => nth i E (0, 0)) cand)) s
  = map (fun i => fst (nth i E (0, 0)) =? s) cand.
Proof. unfold eq_mask, row0. now rewrite !map_map. Qed.

(** The computation succeeds as soon as the total candidate weight is not
    a zero; entry [k] is the quotient of the two sums. *)
Lemma probabilities_ok (T : Q) :
  fsum cw = Fin T -> Qis0 T = false ->
  _Utility.get_candidate_source_nodes_probabilities cand E W
  = ok (candidate_sources E cand,
        map (fun s => fdiv (fsum (group s)) (Fin T))
            (candidate_sources E cand)).
Proof.
  intros HT HT0. unfold _Utility.get_candidate_source_nodes_probabilities.
  rewrite (gather_ok (0, 0) _ cand_in_E), (gather_ok NaN _ cand_in_W).
  cbn [rbind ok]. fold cw. fold (candidate_sources E cand).
  rewrite (mapM_ok _ (fun s => fdiv (fsum (group s)) (Fin T))).
  - cbn [rbind ok]. now rewrite length_map, Nat.eqb_refl.
  - intros s _. rewrite mask_select_ok.
    + cbn [rbind ok]. rewrite eq_mask_candidates, HT.
      unfold pydiv, cw. rewrite HT0, select_by_map_filter.
      reflexivity.
    + unfold cw, row0. now rewrite eq_mask_length, !length_map.
Qed.

Hypothesis cand_finite :
  Forall (fun i => isfinite (nth i W NaN) = true) cand.

Lemma group_finite (s : nat) : Forall (fun x => isfinite x = true) (group s).
Proof.
  unfold group. apply Forall_forall. intros x Hx.
  apply in_map_iff in Hx as (i & <- & Hi).
  apply filter_In in Hi as [Hi _].
  rewrite Forall_forall in cand_finite. now apply cand_finite.
Qed.

Lemma cw_finite : Forall (fun x => isfinite x = true) cw.
Proof.
  unfold cw. apply Forall_forall. intros x Hx.
  apply in_map_iff in Hx as (i & <- & Hi).
  rewrite Forall_forall in cand_finite. now apply cand_finite.
Qed.

Lemma fsum_cw : exists T, fsum cw = Fin T /\ (T == total_weight W cand)%Q.
Proof.
  destruct (fsum_finite cw_finite) as (T & HT & He).
  exists T; split; [exact HT|]. rewrite He.
  unfold cw, total_weight. now rewrite map_map.
Qed.

Lemma fsum_group (s : nat) :
  exists a, fsum (group s) = Fin a /\ (a == source_weight E W cand s)%Q.
Proof.
  destruct (fsum_finite (group_finite s)) as (a & Ha & He).
  exists a; split; [exact Ha|]. rewrite He.
  unfold group, source_weight. now rewrite map_map.
Qed.

Lemma probability_value (T : Q) (s : nat) :
  Qis0 T = false -> (T == total_weight W cand)%Q ->
  approx (fdiv (fsum (group s)) (Fin T))
         (source_weight E W cand s / total_weight W cand).
Proof.
  intros HT0 HT. destruct (fsum_group s) as (a & Ha & He).
  rewrite Ha. cbn [fdiv]. rewrite HT0. simpl. now rewrite He, HT.
Qed.

Lemma source_weights_sum :
  (Qsum (map (source_weight E W cand) (candidate_sources E cand))
   == total_weight W cand)%Q.
Proof.
  unfold source_weight, total_weight.
  apply (Qsum_by_key (fun i => fst (nth i E (0, 0)))
                     (fun i => val (nth i W NaN))).
  - apply unique_NoDup.
  - intros i Hi. unfold candidate_sources. rewrite unique_In.
    unfold row0. rewrite map_map.
    apply in_map_iff. now exists i.
Qed.

Lemma probabilities_sum_to_one (T : Q) :
  Qis0 T = false -> (T == total_weight W cand)%Q ->
  (Qsum (map val (map (fun s => fdiv (fsum (group s)) (Fin T))
                      (candidate_sources E cand))) == 1)%Q.
Proof.
  intros HT0 HT.
  assert (Hne : ~ (total_weight W cand == 0)%Q).
  { intros Hz. rewrite <- HT in Hz. unfold Qis0 in HT0.
    apply Qeq_eq_bool in Hz. congruence. }
  assert (Heq : Forall2 Qeq
    (map val (map (fun s => fdiv (fsum (group s)) (Fin T))
                  (candidate_sources E cand)))
    (map (fun q => q * / total_weight W cand)%Q
         (map (source_weight E W cand) (candidate_sources E cand)))).
  { generalize (candidate_sources E cand) as U.
    induction U as [|u U IHU]; simpl; constructor; [|exact IHU].
    apply approx_val. apply (probability_value u HT0 HT). }
  rewrite (Qsum_ext Heq), Qsum_map_scale, source_weights_sum.
  now field.
Qed.

End ProbabilityFacts.

(* ================================================================== *)
(** * Drawing with replacement *)

Section ChoiceFacts.

Lemma to_unit_range (z : Z) : (0 <= to_unit z)%Q /\ (to_unit z < 1)%Q.
Proof.
  unfold to_unit, Qle, Qlt; simpl.
  assert (H : (0 <= z mod two53 < two53)%Z)
    by (apply Z.mod_pos_bound; reflexivity).
  unfold two53 in *. lia.
Qed.

Lemma searchsorted_right_lt (cdf : list Q) (u : Q) :
  (exists c, In c cdf /\ (u < c)%Q) ->
  searchsorted_right cdf u < length cdf.
Proof.
  induction cdf as [|c t IH]; intros (x & Hx & Hu); [contradiction|].
  simpl. destruct (Qle_bool c u) eqn:E; [|lia].
  apply Qle_bool_iff in E.
  destruct Hx as [->|Hx]; [lra|].
  apply -> Nat.succ_lt_mono. apply IH. eauto.
Qed.

Lemma cumsum_from_length (acc : Q) (p : list Q) :
  length (cumsum_from acc p) = length p.
Proof. revert acc; induction p; intros; simpl; auto. Qed.

Lemma cumsum_from_last (acc : Q) (p : list Q) (d : Q) :
  p <> [] -> (last (cumsum_from acc p) d == acc + Qsum p)%Q.
Proof.
  revert acc; induction p as [|x p IH]; intros acc Hne; [congruence|].
  destruct p as [|y p].
  - simpl. lra.
  - change (last (cumsum_from acc (x :: y :: p)) d)
      with (last (cumsum_from (acc + x) (y :: p)) d).
    rewrite IH by discriminate. simpl. lra.
Qed.

Lemma last_In {A} (l : list A) (d : A) : l <> [] -> In (last l d) l.
Proof.
  induction l as [|x l IH]; [congruence|]; intros _.
  destruct l as [|y l]; [now left|].
  right. apply IH. discriminate.
Qed.

Lemma finnonneg_not_negative (p : FloatTensor) :
  Forall finnonneg p -> existsb is_negative p = false.
Proof.
  induction 1 as [|x p Hx _ IH]; simpl; [reflexivity|].
  rewrite IH, orb_false_r. destruct x as [q| | |]; simpl in *; try tauto.
  apply Qle_bool_iff in Hx. now rewrite Hx.
Qed.

Lemma finnonneg_finite (p : FloatTensor) :
  Forall finnonneg p -> Forall (fun x => isfinite x = true) p.
Proof. apply Forall_impl. intros [q| | |]; simpl; tauto. Qed.

(** On a probability vector the draw succeeds: [size] indexes below [n],
    and the random source advances by [size]. *)
Lemma np_random_choice_ok (n : nat) (size : Z) (p : FloatTensor) (g : RNG) :
  0 < n -> length p = n -> Forall finnonneg p ->
  (Qsum (map val p) == 1)%Q -> (0 <= size)%Z ->
  exists draws,
    np_random_choice n size p g
    = (ok draws, mkRNG (raw g) (cursor g + Z.to_nat size))
    /\ length draws = Z.to_nat size
    /\ Forall (fun i => i < n) draws.
Proof.
  intros Hn Hlen Hp Hsum Hsize. unfold np_random_choice.
  assert (Hn0 : (n =? 0) = false) by (apply Nat.eqb_neq; lia).
  rewrite Hn0; cbn [andb].
  rewrite Hlen, Nat.eqb_refl; cbn [negb].
  destruct (fsum_finite (finnonneg_finite Hp)) as (s & Hs & Hse).
  rewrite Hs, (finnonneg_not_negative Hp).
  assert (Hs1 : Qeq_bool s 1 = true).
  { apply Qeq_bool_iff. now rewrite Hse. }
  rewrite Hs1; cbn [negb].
  assert (Hsz : (size <? 0)%Z = false) by (apply Z.ltb_ge; lia).
  rewrite Hsz.
  set (cdf0 := cumsum (map val p)).
  set (cdf := map (fun c => (c / last cdf0 0)%Q) cdf0).
  unfold random_sample.
  eexists; split; [reflexivity|]; split.
  - now rewrite !length_map, length_seq.
  - apply Forall_forall. intros i Hi.
    apply in_map_iff in Hi as (u & <- & Hu).
    apply in_map_iff in Hu as (j & <- & _).
    assert (Hcl : length cdf = n).
    { unfold cdf, cdf0, cumsum.
      now rewrite length_map, cumsum_from_length, length_map. }
    rewrite <- Hcl. apply searchsorted_right_lt.
    assert (Hne : map val p <> []).
    { destruct p; [simpl in Hlen; lia|discriminate]. }
    assert (Hne0 : cdf0 <> []).
    { unfold cdf0, cumsum. intros H.
      apply (f_equal (@length Q)) in H.
      rewrite cumsum_from_length in H.
      destruct (map val p); [congruence|discriminate]. }
    assert (Hlast : (last cdf0 0 == 1)%Q).
    { unfold cdf0, cumsum. rewrite cumsum_from_last by assumption.
      rewrite Hsum. lra. }
    exists (last cdf0 0 / last cdf0 0)%Q. split.
    + unfold cdf. apply in_map_iff.
      exists (last cdf0 0%Q); split; [reflexivity|].
      apply last_In, Hne0.
    + rewrite Hlast. destruct (to_unit_range (raw g j)) as [_ H1].
      setoid_replace (1 / 1)%Q with 1%Q by reflexivity. exact H1.
Qed.





End ChoiceFacts.

(* ================================================================== *)
(** * The selection step *)

Section SelectionFacts.

Variables (srcs : LongTensor) (probs : FloatTensor).

(** Whatever happens, the selection step leaves the sampler object alone. *)
Lemma select_source_nodes_self (B : Z) (w : World) :
  self (snd (select_source_nodes srcs probs B w)) = self w.
Proof.
  unfold select_source_nodes.
  destruct (B <? Z.of_nat (length srcs))%Z; [|reflexivity].
  unfold bind, with_rng, lift, ret.
  destruct (np_random_choice (length srcs) B probs (np_random w))
    as [[e|draws] g']; [reflexivity|]. cbn [self snd].
  destruct (gather srcs (unique (unique draws))); reflexivity.
Qed.

(** Budget at least the number of candidates: all of them, and the random
    source is not consulted. *)
Lemma select_all (B : Z) (w : World) :
  (Z.of_nat (length srcs) <= B)%Z ->
  select_source_nodes srcs probs B w = (ok srcs, w).
Proof.
  intros H. unfold select_source_nodes.
  assert (Hb : (B <? Z.of_nat (length srcs))%Z = false)
    by (apply Z.ltb_ge; lia).
  now rewrite Hb.
Qed.

Hypothesis probs_length : length probs = length srcs.
Hypothesis probs_nonneg : Forall finnonneg probs.
Hypothesis probs_sum : (Qsum (map val probs) == 1)%Q.

(** Budget below the number of candidates: [B] indexes are drawn and the
    candidates at the distinct drawn positions are kept. *)
Lemma select_drawn (B : Z) (w : World) :
  (0 <= B < Z.of_nat (length srcs))%Z ->
  exists draws,
    np_random_choice (length srcs) B probs (np_random w)
    = (ok draws, mkRNG (raw (np_random w))
                       (cursor (np_random w) + Z.to_nat B))
    /\ length draws = Z.to_nat B
    /\ Forall (fun i => i < length srcs) draws
    /\ select_source_nodes srcs probs B w
       = (ok (unique (map (fun i => nth i srcs 0) (unique draws))),
          mkWorld (self w)
                  (mkRNG (raw (np_random w))
                         (cursor (np_random w) + Z.to_nat B))).
Proof.
  intros HB.
  destruct (@np_random_choice_ok (length srcs) B probs (np_random w))
    as (draws & Hd & Hlen & Hrange);
    try assumption; try lia.
  exists draws. repeat split; try assumption.
  unfold select_source_nodes.
  assert (Hb : (B <? Z.of_nat (length srcs))%Z = true)
    by (apply Z.ltb_lt; lia).
  rewrite Hb. unfold bind, with_rng, lift, ret. rewrite Hd.
  cbv beta iota zeta. unfold ok at 1. cbv beta iota.
  rewrite unique_idem, (gather_ok 0).
  - reflexivity.
  - apply Forall_forall. intros i Hi. rewrite unique_In in Hi.
    rewrite Forall_forall in Hrange. now apply Hrange.
Qed.

Lemma drawn_subset (draws : LongTensor) :
  Forall (fun i => i < length srcs) draws ->
  incl (unique (map (fun i => nth i srcs 0) (unique draws))) srcs.
Proof.
  intros H x Hx. rewrite unique_In in Hx.
  apply in_map_iff in Hx as (i & <- & Hi). rewrite unique_In in Hi.
  rewrite Forall_forall in H. apply nth_In. now apply H.
Qed.

Lemma drawn_size (draws : LongTensor) :
  length (unique (map (fun i => nth i srcs 0) (unique draws)))
  <= length draws.
Proof.
  etransitivity; [apply unique_length|].
  rewrite length_map. apply unique_length.
Qed.

Lemma drawn_nonempty (draws : LongTensor) :
  draws <> [] ->
  unique (map (fun i => nth i srcs 0) (unique draws)) <> [].
Proof.
  intros H. apply unique_nonempty.
  apply unique_nonempty in H.
  destruct (unique draws); [congruence|discriminate].
Qed.

End SelectionFacts.

(* ================================================================== *)
(** * Filtering the full edge set *)

Section FilterFacts.

Variable E : EdgeIndex.

Lemma where_positions_in_range (v : LongTensor) (U : LongTensor) :
  length v = length E ->
  Forall (fun i => i < length (zeros_bool (length E)))
         (concat (map (where_eq v) U)).
Proof.
  intros Hlen. apply Forall_forall. intros i Hi.
  apply in_concat_where in Hi as (t & _ & Hn).
  rewrite zeros_bool_length, <- Hlen.
  apply nth_error_Some. congruence.
Qed.

Lemma filter_selected_edges_ok (sel targets : LongTensor) :
  sel <> [] -> targets <> [] ->
  exists filtered,
    _Utility.filter_selected_edges_by_source_nodes_and_target_nodes
      E sel targets = ok filtered
    /\ StronglySorted lt filtered
    /\ forall i, In i filtered <->
                 exists e, nth_error E i = Some e
                           /\ In (fst e) sel /\ In (snd e) targets.
Proof.
  intros Hs Ht.
  unfold _Utility.filter_selected_edges_by_source_nodes_and_target_nodes.
  cbv zeta.
  rewrite (cat_map_ok (where_eq (row0 E))) by now apply unique_nonempty.
  cbn [rbind ok].
  match goal with
  | |- context [index_fill_true ?m ?idx] =>
      destruct (@index_fill_true_ok idx m) as (m1 & Hm1 & Hl1 & Hn1)
  end.
  { apply Forall_forall. intros i Hi. rewrite unique_In in Hi.
    revert i Hi. apply Forall_forall.
    apply where_positions_in_range. unfold row0. apply length_map. }
  rewrite Hm1. cbn [rbind ok].
  rewrite (cat_map_ok (where_eq (row1 E))) by now apply unique_nonempty.
  cbn [rbind ok].
  match goal with
  | |- context [index_fill_true ?m ?idx] =>
      destruct (@index_fill_true_ok idx m) as (m2 & Hm2 & Hl2 & Hn2)
  end.
  { apply where_positions_in_range. unfold row1. apply length_map. }
  rewrite Hm2. cbn [rbind ok].
  eexists; split; [reflexivity|]; split; [apply where_true_sorted|].
  intros i. rewrite where_true_In, mask_and_nth by congruence.
  rewrite Hn1, Hn2, unique_In, !in_concat_where.
  split.
  - intros [[H|(s & Hsin & Hsn)] [H'|(t & Htin & Htn)]];
      try (exfalso; eapply zeros_bool_nth; eassumption).
    rewrite unique_In in Hsin, Htin.
    apply nth_error_row0 in Hsn as (e & He & <-).
    apply nth_error_row1 in Htn as (e' & He' & <-).
    assert (e' = e) by congruence; subst e'. eauto.
  - intros (e & He & Hsin & Htin). split; right.
    + exists (fst e). rewrite unique_In. split; [assumption|].
      apply nth_error_row0; eauto.
    + exists (snd e). rewrite unique_In. split; [assumption|].
      apply nth_error_row1; eauto.
Qed.

End FilterFacts.

(* ================================================================== *)
(** * Weights before normalization *)

Section RawWeightFacts.

Lemma select_by_absent {A} (srcs : LongTensor) (t : list A) (s : nat) :
  ~ In s srcs -> select_by t (eq_mask srcs s) = [].
Proof.
  revert t; induction srcs as [|x srcs IH]; intros t Hs.
  - now destruct t.
  - destruct t as [|a t]; [reflexivity|]. simpl.
    destruct (x =? s) eqn:Hx.
    + apply Nat.eqb_eq in Hx. exfalso; apply Hs; now left.
    + apply IH. intros H; apply Hs; now right.
Qed.

Lemma select_by_prob_of (srcs : LongTensor) (probs : FloatTensor) (s : nat) :
  NoDup srcs -> length probs = length srcs -> In s srcs ->
  select_by probs (eq_mask srcs s) = [prob_of srcs probs s].
Proof.
  intros Hnd; revert probs.
  induction Hnd as [|x srcs Hx Hnd IH]; intros probs Hlen Hin;
    [contradiction|].
  destruct probs as [|p probs]; [discriminate|].
  injection Hlen as Hlen. simpl.
  destruct (x =? s) eqn:E.
  - apply Nat.eqb_eq in E; subst x. f_equal.
    now apply select_by_absent.
  - apply Nat.eqb_neq in E. destruct Hin as [->|Hin]; [congruence|].
    now apply IH.
Qed.

Lemma prob_of_map (f : nat -> float) (srcs : LongTensor) (s : nat) :
  In s srcs -> prob_of srcs (map f srcs) s = f s.
Proof.
  induction srcs as [|x srcs IH]; intros Hin; [contradiction|].
  simpl. destruct (x =? s) eqn:E.
  - apply Nat.eqb_eq in E; now subst.
  - apply Nat.eqb_neq in E. destruct Hin as [->|Hin]; [congruence|auto].
Qed.

Lemma tdiv_map {A} (f g : A -> float) (l : list A) :
  tdiv (map f l) (map g l) = map (fun a => fdiv (f a) (g a)) l.
Proof. induction l as [|a l IH]; simpl; [reflexivity|]. now rewrite IH. Qed.

Variables (E : EdgeIndex) (W : FloatTensor).
Variables (srcs : LongTensor) (probs : FloatTensor).
Variables (sel sel_edges : LongTensor).

Hypothesis srcs_NoDup : NoDup srcs.
Hypothesis probs_length : length probs = length srcs.
Hypothesis edges_in_E : Forall (fun i => i < length E) sel_edges.
Hypothesis edges_in_W : Forall (fun i => i < length W) sel_edges.
Hypothesis edges_sources :
  Forall (fun i => In (fst (nth i E (0, 0))) srcs) sel_edges.

(** Lines 146-158 succeed and divide each selected edge's weight by the
    number of selected source nodes times the probability of its source. *)
Lemma non_normalized_weights_ok :
  non_normalized_weights E W srcs probs sel sel_edges
  = ok (map (fun i =>
               fdiv (nth i W NaN)
                    (fmul (of_nat (length sel))
                          (prob_of srcs probs (fst (nth i E (0, 0))))))
            sel_edges).
Proof.
  unfold non_normalized_weights.
  rewrite (gather_ok NaN _ edges_in_W). cbn [rbind ok].
  rewrite (gather_ok 0).
  2:{ unfold row0. rewrite length_map. exact edges_in_E. }
  cbn [rbind ok].
  rewrite (mapM_ok _ (prob_of srcs probs)).
  - cbn [rbind ok]. unfold ok. f_equal.
    rewrite !map_map.
    rewrite (tdiv_map (fun i => nth i W NaN)
               (fun i => fmul (of_nat (length sel))
                           (prob_of srcs probs (nth i (row0 E) 0)))).
    apply map_ext. intros i. unfold row0.
    change 0 with (fst (0, 0)) at 1. now rewrite map_nth.
  - intros s Hs. apply in_map_iff in Hs as (i & <- & Hi).
    pose proof (proj1 (Forall_forall _ _) edges_sources i Hi) as Hsrc.
    unfold row0. change 0 with (fst (0, 0)). rewrite map_nth.
    rewrite mask_select_ok by now rewrite eq_mask_length.
    cbn [rbind ok].
    now rewrite select_by_prob_of.
Qed.

End RawWeightFacts.

(* ================================================================== *)
(** * Per-target normalization *)

Section NormalizeFacts.

Lemma fdiv_finpos (x : float) (s : Q) :
  finpos x -> (0 < s)%Q -> finpos (fdiv x (Fin s)).
Proof.
  destruct x as [a| | |]; simpl; try tauto. intros Ha Hs.
  rewrite (Qis0_false Hs). simpl. now apply Qlt_shift_div_l; [|lra].
Qed.

Lemma fdiv_val (x : float) (s : Q) :
  finpos x -> (0 < s)%Q -> (val (fdiv x (Fin s)) == val x / s)%Q.
Proof.
  destruct x as [a| | |]; simpl; try tauto. intros Ha Hs.
  rewrite (Qis0_false Hs). reflexivity.
Qed.

Lemma div_where_length (w : FloatTensor) (m : BoolTensor) (s : float) :
  length (div_where w m s) = length w.
Proof.
  revert m; induction w as [|x w IH]; intros [|b m]; simpl; auto.
Qed.

Lemma div_where_finpos (w : FloatTensor) (m : BoolTensor) (s : Q) :
  (0 < s)%Q -> Forall finpos w -> Forall finpos (div_where w m (Fin s)).
Proof.
  intros Hs H; revert m.
  induction H as [|x w Hx Hw IH]; intros [|b m]; simpl;
    try constructor; auto.
  destruct b; [now apply fdiv_finpos|assumption].
Qed.

Lemma div_where_selected (w : FloatTensor) (m : BoolTensor) (s : float) :
  length w = length m ->
  select_by (div_where w m s) m = map (fun x => fdiv x s) (select_by w m).
Proof.
  revert m; induction w as [|x w IH]; intros [|b m]; simpl;
    try discriminate; [reflexivity|].
  intros [= H]. destruct b; simpl; now rewrite IH.
Qed.

Lemma div_where_other (w : FloatTensor) (tg : LongTensor) (t t' : nat)
      (s : float) :
  t' <> t ->
  select_by (div_where w (eq_mask tg t) s) (eq_mask tg t')
  = select_by w (eq_mask tg t').
Proof.
  intros Hne; revert tg; induction w as [|x w IH]; intros [|y tg]; simpl;
    try reflexivity.
  destruct (y =? t') eqn:E'.
  - apply Nat.eqb_eq in E'; subst y.
    assert (Ht : (t' =? t) = false) by now apply Nat.eqb_neq.
    rewrite Ht. now rewrite IH.
  - apply IH.
Qed.

Lemma select_by_nonempty {A} (w : list A) (tg : LongTensor) (t : nat) :
  length w = length tg -> In t tg -> select_by w (eq_mask tg t) <> [].
Proof.
  revert tg; induction w as [|x w IH]; intros [|y tg]; simpl;
    try discriminate; try tauto.
  intros [= Hlen] Hin. destruct (y =? t) eqn:E; [discriminate|].
  apply Nat.eqb_neq in E. destruct Hin as [->|Hin]; [congruence|].
  now apply IH.
Qed.

Lemma Qsum_map_div (g : FloatTensor) (s : Q) :
  Forall finpos g -> (0 < s)%Q ->
  (Qsum (map val (map (fun x => fdiv x (Fin s)) g))
   == Qsum (map val g) / s)%Q.
Proof.
  intros H Hs. induction H as [|x g Hx _ IH]; simpl.
  - field. lra.
  - rewrite IH, (@fdiv_val x s Hx Hs). field. lra.
Qed.

Variable ei : EdgeIndex.

(** One pass of the loop: the weights into [t] are divided by their sum;
    the weights into every other target are left as they were. *)
Lemma normalize_step_ok (w : FloatTensor) (t : nat) :
  length w = length ei -> Forall finpos w -> In t (row1 ei) ->
  exists w',
    normalize_step ei (ok w) t = ok w'
    /\ length w' = length ei
    /\ Forall finpos w'
    /\ approx (fsum (select_by w' (eq_mask (row1 ei) t))) 1
    /\ forall t', t' <> t ->
         select_by w' (eq_mask (row1 ei) t')
         = select_by w (eq_mask (row1 ei) t').
Proof.
  intros Hlen Hpos Hin.
  assert (Hml : length w = length (eq_mask (row1 ei) t)).
  { rewrite eq_mask_length. unfold row1. now rewrite length_map. }
  set (g := select_by w (eq_mask (row1 ei) t)).
  assert (Hg : Forall finpos g) by now apply select_by_Forall.
  assert (Hgne : g <> []).
  { apply select_by_nonempty; [|assumption].
    unfold row1. now rewrite length_map. }
  destruct (fsum_finite (Forall_finpos_finite Hg)) as (s & Hs & Hse).
  assert (Hspos : (0 < s)%Q).
  { pose proof (fsum_finpos Hgne Hg) as P. rewrite Hs in P. exact P. }
  exists (div_where w (eq_mask (row1 ei) t) (Fin s)).
  split; [|split; [|split; [|split]]].
  - unfold normalize_step. cbn [rbind ok].
    rewrite mask_select_ok by assumption. cbn [rbind ok].
    fold g. now rewrite Hs.
  - now rewrite div_where_length.
  - now apply div_where_finpos.
  - rewrite div_where_selected by assumption. fold g.
    assert (Hg' : Forall finpos (map (fun x => fdiv x (Fin s)) g)).
    { apply Forall_forall. intros y Hy.
      apply in_map_iff in Hy as (x & <- & Hx).
      rewrite Forall_forall in Hg. apply fdiv_finpos; auto. }
    destruct (fsum_finite (Forall_finpos_finite Hg')) as (r & Hr & Hre).
    rewrite Hr. simpl. rewrite Hre, (Qsum_map_div Hg Hspos), <- Hse.
    field. lra.
  - intros t' Hne. now apply div_where_other.
Qed.

(** The whole loop over a list of targets of [ei]. *)
Lemma normalize_loop_ok (U : LongTensor) (w : FloatTensor) :
  length w = length ei -> Forall finpos w ->
  (forall t, In t U -> In t (row1 ei)) ->
  exists w',
    fold_left (normalize_step ei) U (ok w) = ok w'
    /\ length w' = length ei
    /\ Forall finpos w'
    /\ (forall t, In t U ->
          approx (fsum (select_by w' (eq_mask (row1 ei) t))) 1)
    /\ (forall t, ~ In t U ->
          select_by w' (eq_mask (row1 ei) t)
          = select_by w (eq_mask (row1 ei) t)).
Proof.
  revert w; induction U as [|u U IH]; intros w Hlen Hpos HU.
  - exists w. simpl. repeat split; auto; contradiction.
  - destruct (@normalize_step_ok w u) as (w1 & H1 & Hl1 & Hp1 & Hs1 & Ho1);
      auto; [apply HU; now left|].
    destruct (IH w1) as (w' & H' & Hl' & Hp' & Hs' & Ho'); auto;
      [intros t Ht; apply HU; now right|].
    exists w'. cbn [fold_left]. rewrite H1. repeat split; auto.
    + intros t [<-|Ht]; [|now apply Hs'].
      destruct (in_dec Nat.eq_dec u U) as [Hu|Hu]; [now apply Hs'|].
      now rewrite (Ho' u Hu).
    + intros t Ht. rewrite Ho' by (intros H; apply Ht; now right).
      apply Ho1. intros ->. apply Ht. now left.
Qed.

Lemma normalize_ok (w : FloatTensor) :
  length w = length ei -> Forall finpos w ->
  exists w',
    __normalize_edges_weight_by_target_nodes ei w = ok w'
    /\ length w' = length ei
    /\ Forall finpos w'
    /\ forall t, In t (row1 ei) ->
         approx (fsum (select_by w' (eq_mask (row1 ei) t))) 1.
Proof.
  intros Hlen Hpos.
  destruct (@normalize_loop_ok (unique (row1 ei)) w)
    as (w' & H' & Hl' & Hp' & Hs' & _); auto.
  { intros t Ht. now rewrite unique_In in Ht. }
  exists w'. repeat split; auto.
  - unfold __normalize_edges_weight_by_target_nodes.
    rewrite Hlen, Nat.eqb_refl. exact H'.
  - intros t Ht. apply Hs'. now rewrite unique_In.
Qed.

End NormalizeFacts.

(* ================================================================== *)
(** * The layer step, stage by stage *)

Section Stages.

Lemma sample_layer_stages (targets : LongTensor) (B : Z) (w : World) :
  __sample_layer targets B w
  = let E := all_edge_index_with_self_loops (self w) in
    let W := all_edge_weights (self w) in
    match candidate_edge_indexes E targets with
    | inl e => (inl e, w)
    | inr cand =>
        match _Utility.get_candidate_source_nodes_probabilities cand E W with
        | inl e => (inl e, w)
        | inr (srcs, probs) =>
            if length srcs =? length probs then
              match select_source_nodes srcs probs B w with
              | (inl e, w') => (inl e, w')
              | (inr sel, w') =>
                  (finish_layer E W targets srcs probs sel, w')
              end
            else (inl AssertionError, w)
        end
    end.
Proof.
  unfold __sample_layer, bind, attr, lift, ret, throw. cbv zeta.
  cbn [ok raise].
  destruct (candidate_edge_indexes _ targets) as [e|cand]; [reflexivity|].
  destruct (_Utility.get_candidate_source_nodes_probabilities _ _ _)
    as [e|[srcs probs]]; [reflexivity|].
  destruct (length srcs =? length probs); [|reflexivity].
  pose proof (select_source_nodes_self srcs probs B w) as Hself.
  destruct (select_source_nodes srcs probs B w) as [[e|sel] w'];
    [reflexivity|].
  cbn [snd] in Hself. rewrite Hself. unfold finish_layer.
  destruct (_Utility.filter_selected_edges_by_source_nodes_and_target_nodes
              _ sel targets) as [e|filtered]; [reflexivity|].
  cbn [rbind]. cbv zeta.
  destruct (non_normalized_weights _ _ srcs probs sel (unique filtered))
    as [e|raw]; [reflexivity|].
  cbn [rbind].
  destruct (gather _ (unique filtered)) as [e|E_sel]; [reflexivity|].
  cbn [rbind].
  destruct (__normalize_edges_weight_by_target_nodes E_sel raw)
    as [e|norm]; reflexivity.
Qed.

(** Any call of [__sample_layer] leaves the sampler object as it was. *)
Lemma sample_layer_self (targets : LongTensor) (B : Z) (w : World) :
  self (snd (__sample_layer targets B w)) = self w.
Proof.
  rewrite sample_layer_stages. cbv zeta.
  destruct (candidate_edge_indexes _ targets) as [e|cand]; [reflexivity|].
  destruct (_Utility.get_candidate_source_nodes_probabilities _ _ _)
    as [e|[srcs probs]]; [reflexivity|].
  destruct (length srcs =? length probs); [|reflexivity].
  pose proof (select_source_nodes_self srcs probs B w) as Hself.
  destruct (select_source_nodes srcs probs B w) as [[e|sel] w'];
    exact Hself.
Qed.

Lemma sample_loop_self (budgets : list Z) (upper : LongTensor)
      (layers : list pytuple) (w : World) :
  self (snd (sample_loop budgets upper layers w)) = self w.
Proof.
  revert upper layers w.
  induction budgets as [|b rest IH]; intros upper layers w;
    [reflexivity|].
  cbn [sample_loop]. unfold bind.
  pose proof (sample_layer_self upper b w) as Hl.
  destruct (__sample_layer upper b w) as [[e|r] w']; [exact Hl|].
  cbn [snd] in Hl. rewrite IH. exact Hl.
Qed.

(** [sample] never writes to the sampler object: the edge set and the
    edge weights are those built by the constructor. *)
Lemma sample_self (top : LongTensor) (budgets : list Z) (w : World) :
  self (snd (sample top budgets w)) = self w.
Proof.
  unfold sample. destruct (length budgets =? 0); [reflexivity|].
  unfold bind.
  pose proof (sample_loop_self (rev budgets) top [] w) as Hl.
  destruct (sample_loop (rev budgets) top [] w) as [[e|layers] w'];
    exact Hl.
Qed.

End Stages.

(* ================================================================== *)
(** * A sampler built by the constructor *)

Section Constructed.

Variable edge_index : EdgeIndex.

Let E : EdgeIndex := add_remaining_self_loops edge_index.
Let W : FloatTensor := map (fun e => Fin (edge_weight E e)) E.
Let N : nat := num_nodes edge_index.

(** Target tensors the sampler is meant for: non-empty, nodes of the graph. *)
Definition targets_ok (targets : LongTensor) : Prop :=
  targets <> [] /\ Forall (fun t => t < N) targets.

Lemma W_length : length W = length E.
Proof. unfold W. apply length_map. Qed.

Lemma W_nth (i : nat) :
  i < length E -> nth i W NaN = Fin (edge_weight E (nth i E (0, 0))).
Proof.
  intros H. unfold W.
  rewrite (nth_indep _ NaN (Fin (edge_weight E (0, 0))))
    by (rewrite length_map; exact H).
  now rewrite (map_nth (fun e => Fin (edge_weight E e))).
Qed.

Lemma W_finpos (i : nat) : i < length E -> finpos (nth i W NaN).
Proof.
  intros H. rewrite (W_nth H). simpl.
  apply edge_weight_pos. now apply nth_In.
Qed.

Section Layer.

Variable targets : LongTensor.
Hypothesis Htargets : targets_ok targets.

(** Stage 1 and 2: candidate edges and candidate-source probabilities. *)
Lemma candidate_stage :
  exists cand probs,
    candidate_edge_indexes E targets = ok cand
    /\ (forall i, In i cand <->
          exists e, nth_error E i = Some e /\ In (snd e) targets)
    /\ _Utility.get_candidate_source_nodes_probabilities cand E W
       = ok (candidate_sources E cand, probs)
    /\ candidate_sources E cand <> []
    /\ Forall (fun n => n < N) (candidate_sources E cand)
    /\ length probs = length (candidate_sources E cand)
    /\ Forall finpos probs
    /\ (Qsum (map val probs) == 1)%Q
    /\ forall s, In s (candidate_sources E cand) ->
         approx (prob_of (candidate_sources E cand) probs s)
                (source_weight E W cand s / total_weight W cand)
         /\ finpos (prob_of (candidate_sources E cand) probs s).
Proof.
  destruct Htargets as [Hne Hrange].
  destruct (@candidate_edge_indexes_ok E targets Hne)
    as (cand & Hcand & Hnd & Hin).
  assert (HinE : Forall (fun i => i < length E) cand).
  { apply candidate_in_range. intros i Hi.
    apply Hin in Hi as (e & He & _). eauto. }
  assert (HinW : Forall (fun i => i < length W) cand)
    by now rewrite W_length.
  assert (Hpos : Forall (fun i => finpos (nth i W NaN)) cand).
  { eapply Forall_impl; [|exact HinE]. intros i. apply W_finpos. }
  assert (Hfin : Forall (fun i => isfinite (nth i W NaN) = true) cand).
  { eapply Forall_impl; [|exact Hpos]. intros i. apply finpos_finite. }
  assert (Hcne : cand <> []).
  { destruct targets as [|t ts]; [congruence|].
    inversion Hrange as [|? ? Ht _]; subst.
    pose proof (@self_loop_present edge_index t Ht) as Hl.
    apply In_nth_error in Hl as (i & Hi).
    assert (Hic : In i cand).
    { apply Hin. exists (t, t). split; [exact Hi|now left]. }
    intros ->. contradiction. }
  destruct (@fsum_cw W cand Hfin) as (T & HT & HTe).
  assert (HTpos : (0 < T)%Q).
  { assert (P : finpos (fsum (map (fun i => nth i W NaN) cand))).
    { apply fsum_finpos.
      - destruct cand; [congruence|discriminate].
      - apply Forall_forall. intros x Hx.
        apply in_map_iff in Hx as (i & <- & Hi).
        rewrite Forall_forall in Hpos. now apply Hpos. }
    rewrite HT in P. exact P. }
  pose proof (Qis0_false HTpos) as HT0.
  set (srcs := candidate_sources E cand).
  set (pf := fun s =>
               fdiv (fsum (map (fun i => nth i W NaN)
                               (filter (fun i => fst (nth i E (0, 0)) =? s)
                                       cand)))
                    (Fin T)).
  assert (Hgroup : forall s, In s srcs -> finpos (pf s)).
  { intros s Hs. unfold pf. apply fdiv_finpos; [|exact HTpos].
    unfold srcs, candidate_sources in Hs. rewrite unique_In in Hs.
    unfold row0 in Hs. rewrite map_map in Hs.
    apply in_map_iff in Hs as (i & Hsi & Hi).
    apply fsum_finpos.
    - assert (Hif : In i (filter (fun i => fst (nth i E (0, 0)) =? s) cand)).
      { apply filter_In. split; [exact Hi|]. now apply Nat.eqb_eq. }
      destruct (filter _ cand); [contradiction|discriminate].
    - apply Forall_forall. intros x Hx.
      apply in_map_iff in Hx as (j & <- & Hj).
      apply filter_In in Hj as [Hj _].
      rewrite Forall_forall in Hpos. now apply Hpos. }
  exists cand, (map pf srcs).
  split; [exact Hcand|]. split; [exact Hin|].
  split; [exact (@probabilities_ok E W cand HinE HinW T HT HT0)|].
  split.
  { unfold srcs, candidate_sources. apply unique_nonempty.
    unfold row0. destruct cand; [congruence|discriminate]. }
  split.
  { apply Forall_forall. intros n Hn.
    unfold srcs, candidate_sources in Hn. rewrite unique_In in Hn.
    unfold row0 in Hn. rewrite map_map in Hn.
    apply in_map_iff in Hn as (i & <- & Hi).
    rewrite Forall_forall in HinE.
    apply (@augmented_endpoints edge_index).
    apply nth_In. now apply HinE. }
  split; [apply length_map|].
  split.
  { apply Forall_forall. intros x Hx.
    apply in_map_iff in Hx as (s0 & <- & Hs0). now apply Hgroup. }
  split; [exact (@probabilities_sum_to_one E W cand Hfin T HT0 HTe)|].
  intros s0 Hs0. rewrite prob_of_map by exact Hs0. split.
  - exact (@probability_value E W cand Hfin T s0 HT0 HTe).
  - now apply Hgroup.
Qed.

(** Stage 3: the selection step, for a positive budget. *)
Lemma selection_stage (srcs : LongTensor) (probs : FloatTensor)
      (B : Z) (w : World) :
  srcs <> [] -> StronglySorted lt srcs ->
  length probs = length srcs -> Forall finpos probs ->
  (Qsum (map val probs) == 1)%Q -> (0 < B)%Z ->
  exists sel g',
    select_source_nodes srcs probs B w = (ok sel, mkWorld (self w) g')
    /\ sel <> [] /\ incl sel srcs /\ StronglySorted lt sel
    /\ (Z.of_nat (length sel) <= B)%Z
    /\ ((Z.of_nat (length srcs) <= B)%Z ->
        sel = srcs /\ g' = np_random w).
Proof.
  intros Hne Hsorted Hlen Hpos Hsum HB.
  destruct (Z_lt_le_dec B (Z.of_nat (length srcs))) as [Hlt|Hge].
  - assert (Hnn : Forall finnonneg probs).
    { eapply Forall_impl; [|exact Hpos].
      intros [q| | |]; simpl; try tauto. intros; lra. }
    destruct (@select_drawn srcs probs Hlen Hnn Hsum B w)
      as (draws & _ & Hdl & Hdr & Hsel); [lia|].
    eexists; eexists; split; [exact Hsel|].
    split; [|split; [|split; [|split]]].
    + apply drawn_nonempty. intros ->. simpl in Hdl. lia.
    + now apply drawn_subset.
    + apply unique_sorted.
    + pose proof (drawn_size srcs draws). lia.
    + intros Hc. lia.
  - exists srcs, (np_random w).
    rewrite (select_all srcs probs w Hge).
    split; [now destruct w|].
    split; [exact Hne|]. split; [apply incl_refl|].
    split; [exact Hsorted|]. split; [lia|]. auto.
Qed.

Lemma raw_weight_value (x p : float) (k : nat) :
  finpos x -> finpos p -> 1 <= k ->
  finpos (fdiv x (fmul (of_nat k) p))
  /\ approx (fdiv x (fmul (of_nat k) p)) (val x / (Qnat k * val p)).
Proof.
  destruct x as [a| | |], p as [b| | |]; simpl; try tauto.
  intros Ha Hb Hk. fold (Qnat k).
  pose proof (Qnat_pos Hk) as Hq.
  assert (Hkb : (0 < Qnat k * b)%Q) by now apply Qmult_lt_0_compat.
  rewrite (Qis0_false Hkb). simpl. split; [|reflexivity].
  apply Qlt_shift_div_l; [exact Hkb|lra].
Qed.

(** Stages 4 to 6: filtering, weighting and normalizing, for a
    non-empty selection among the candidate sources. *)
Lemma finish_stage (cand : LongTensor) (probs : FloatTensor)
      (sel : LongTensor) :
  let srcs := candidate_sources E cand in
  length probs = length srcs ->
  (forall s, In s srcs -> finpos (prob_of srcs probs s)) ->
  sel <> [] -> incl sel srcs ->
  exists filtered raw norm,
    _Utility.filter_selected_edges_by_source_nodes_and_target_nodes
      E sel targets = ok filtered
    /\ StronglySorted lt filtered
    /\ (forall i, In i filtered <->
          exists e, nth_error E i = Some e
                    /\ In (fst e) sel /\ In (snd e) targets)
    /\ non_normalized_weights E W srcs probs sel filtered = ok raw
    /\ raw = map (fun i =>
                    fdiv (nth i W NaN)
                         (fmul (of_nat (length sel))
                               (prob_of srcs probs (fst (nth i E (0, 0))))))
                 filtered
    /\ Forall finpos raw
    /\ __normalize_edges_weight_by_target_nodes
         (map (fun i => nth i E (0, 0)) filtered) raw = ok norm
    /\ length norm = length filtered
    /\ Forall finpos norm
    /\ (forall t, In t (row1 (map (fun i => nth i E (0, 0)) filtered)) ->
          approx (fsum (select_by norm
                          (eq_mask
                             (row1 (map (fun i => nth i E (0, 0)) filtered))
                             t))) 1)
    /\ finish_layer E W targets srcs probs sel
       = ok (mkLayerSample (map (fun i => nth i E (0, 0)) filtered)
                           norm sel filtered).
Proof.
  intros srcs Hplen Hppos Hsne Hsub.
  destruct Htargets as [Htne _].
  destruct (@filter_selected_edges_ok E sel targets Hsne Htne)
    as (filtered & Hf & Hfs & Hfin).
  assert (HinE : Forall (fun i => i < length E) filtered).
  { apply candidate_in_range. intros i Hi.
    apply Hfin in Hi as (e & He & _). eauto. }
  assert (HinW : Forall (fun i => i < length W) filtered)
    by now rewrite W_length.
  assert (Hsrc : Forall (fun i => In (fst (nth i E (0, 0))) srcs) filtered).
  { apply Forall_forall. intros i Hi.
    apply Hfin in Hi as (e & He & Hes & _).
    rewrite (nth_error_nth _ _ (0, 0) He). now apply Hsub. }
  pose proof (@non_normalized_weights_ok E W srcs probs sel filtered
                (unique_NoDup _) Hplen HinE HinW Hsrc) as Hraw.
  set (raw := map (fun i =>
                     fdiv (nth i W NaN)
                          (fmul (of_nat (length sel))
                                (prob_of srcs probs
                                         (fst (nth i E (0, 0))))))
                  filtered) in *.
  assert (Hk : 1 <= length sel).
  { destruct sel; [congruence|simpl; lia]. }
  assert (Hrpos : Forall finpos raw).
  { apply Forall_forall. intros x Hx.
    apply in_map_iff in Hx as (i & <- & Hi).
    apply raw_weight_value; [|apply Hppos|exact Hk].
    - apply W_finpos. rewrite Forall_forall in HinE. now apply HinE.
    - rewrite Forall_forall in Hsrc. now apply Hsrc. }
  destruct (@normalize_ok (map (fun i => nth i E (0, 0)) filtered) raw)
    as (norm & Hn & Hnl & Hnp & Hns).
  { unfold raw. now rewrite !length_map. }
  { exact Hrpos. }
  exists filtered, raw, norm.
  repeat (split; [first [assumption | reflexivity]|]).
  split; [now rewrite Hnl, length_map|].
  split; [assumption|]. split; [assumption|].
  unfold finish_layer. rewrite Hf. cbn [rbind ok]. cbv zeta.
  rewrite (unique_of_sorted Hfs), Hraw. cbn [rbind ok].
  rewrite (gather_ok (0, 0) _ HinE). cbn [rbind ok].
  rewrite Hn. reflexivity.
Qed.

End Layer.

Let s0 : Sampler := mkSampler E W.
Let edge_at (i : nat) : nat * nat := nth i E (0, 0).

(** Everything one call of [__sample_layer] establishes, stage by stage:
    [cand] are the candidate edge indexes, [probs] the candidate-source
    probabilities, [raw] the weights before normalization and [r] the
    returned tuple. *)
Record layer_facts (targets : LongTensor) (B : Z) (g : RNG)
       (r : LayerSample) (g' : RNG)
       (cand : LongTensor) (probs raw : FloatTensor) : Prop := {
  lf_candidates : candidate_edge_indexes E targets = ok cand;
  lf_candidates_spec :
    forall i, In i cand <->
              exists e, nth_error E i = Some e /\ In (snd e) targets;
  lf_probabilities :
    _Utility.get_candidate_source_nodes_probabilities cand E W
    = ok (candidate_sources E cand, probs);
  lf_probs_length : length probs = length (candidate_sources E cand);
  lf_probs_sum : (Qsum (map val probs) == 1)%Q;
  lf_probs_value :
    forall s, In s (candidate_sources E cand) ->
      approx (prob_of (candidate_sources E cand) probs s)
             (source_weight E W cand s / total_weight W cand)
      /\ finpos (prob_of (candidate_sources E cand) probs s);
  lf_selection :
    select_source_nodes (candidate_sources E cand) probs B (mkWorld s0 g)
    = (ok (ls_selected_source_nodes r), mkWorld s0 g');
  lf_selected_subset :
    incl (ls_selected_source_nodes r) (candidate_sources E cand);
  lf_selected_sorted : StronglySorted lt (ls_selected_source_nodes r);
  lf_selected_size : (Z.of_nat (length (ls_selected_source_nodes r)) <= B)%Z;
  lf_selected_all :
    (Z.of_nat (length (candidate_sources E cand)) <= B)%Z ->
    ls_selected_source_nodes r = candidate_sources E cand /\ g' = g;
  lf_next : targets_ok (ls_selected_source_nodes r);
  lf_filtered :
    _Utility.filter_selected_edges_by_source_nodes_and_target_nodes
      E (ls_selected_source_nodes r) targets
    = ok (ls_selected_edge_indexes r);
  lf_edges_spec :
    forall i, In i (ls_selected_edge_indexes r) <->
              exists e, nth_error E i = Some e
                        /\ In (fst e) (ls_selected_source_nodes r)
                        /\ In (snd e) targets;
  lf_edges_sorted : StronglySorted lt (ls_selected_edge_indexes r);
  lf_edge_index : ls_edge_index r = map edge_at (ls_selected_edge_indexes r);
  lf_raw :
    non_normalized_weights E W (candidate_sources E cand) probs
      (ls_selected_source_nodes r) (ls_selected_edge_indexes r) = ok raw;
  lf_raw_value :
    raw = map (fun i =>
                 fdiv (nth i W NaN)
                      (fmul (of_nat (length (ls_selected_source_nodes r)))
                            (prob_of (candidate_sources E cand) probs
                                     (fst (edge_at i)))))
              (ls_selected_edge_indexes r);
  lf_raw_finpos : Forall finpos raw;
  lf_normalized :
    __normalize_edges_weight_by_target_nodes (ls_edge_index r) raw
    = ok (ls_edge_weight r);
  lf_weight_length :
    length (ls_edge_weight r) = length (ls_selected_edge_indexes r);
  lf_weight_finpos : Forall finpos (ls_edge_weight r);
  lf_weight_sums :
    forall t, In t (row1 (ls_edge_index r)) ->
      approx (fsum (select_by (ls_edge_weight r)
                              (eq_mask (row1 (ls_edge_index r)) t))) 1
}.

(** On a non-empty tensor of graph nodes and a positive budget, the layer
    step returns, and its result satisfies [layer_facts]. *)
Lemma sample_layer_ok (targets : LongTensor) (B : Z) (g : RNG) :
  targets_ok targets -> (0 < B)%Z ->
  exists r g' cand probs raw,
    __sample_layer targets B (mkWorld s0 g) = (ok r, mkWorld s0 g')
    /\ layer_facts targets B g r g' cand probs raw.
Proof.
  intros Ht HB.
  destruct (candidate_stage Ht)
    as (cand & probs & Hc & Hcs & Hp & Hsne & Hsr & Hpl & Hpp & Hps & Hpv).
  destruct (@selection_stage (candidate_sources E cand) probs B
              (mkWorld s0 g) Hsne (unique_sorted _) Hpl Hpp Hps HB)
    as (sel & g' & Hsel & Hselne & Hsub & Hsorted & Hsize & Hall).
  cbn [self np_random] in Hsel, Hall.
  destruct (@finish_stage targets Ht cand probs sel Hpl
              (fun s Hs => proj2 (Hpv s Hs)) Hselne Hsub)
    as (filtered & raw & norm & Hf & Hfs & Hfin & Hraw & Hrv & Hrp
        & Hn & Hnl & Hnp & Hns & Hfinish).
  exists (mkLayerSample (map edge_at filtered) norm sel filtered),
    g', cand, probs, raw.
  split.
  - rewrite sample_layer_stages. cbv zeta. cbn [self].
    change (all_edge_index_with_self_loops s0) with E.
    change (all_edge_weights s0) with W.
    rewrite Hc. unfold ok at 1. cbv beta iota.
    rewrite Hp. unfold ok at 1. cbv beta iota.
    rewrite Hpl, Nat.eqb_refl, Hsel. unfold ok at 1. cbv beta iota.
    now rewrite Hfinish.
  - constructor; cbn [ls_edge_index ls_edge_weight
                      ls_selected_source_nodes ls_selected_edge_indexes];
      try assumption; try reflexivity.
    split; [exact Hselne|].
    apply Forall_forall. intros n Hn'.
    rewrite Forall_forall in Hsr. apply Hsr. now apply Hsub.
Qed.

(** The pair [sample] keeps of a layer result. *)
Definition layer_pair (r : LayerSample) : pytuple :=
  [VEdgeIndex (ls_edge_index r); VFloatTensor (ls_edge_weight r)].

(** [layer_calls upper bs g rs g']: [rs] are the results of the successive
    calls of [__sample_layer] made by the loop of [sample] on the budgets
    [bs] (already reversed), starting from the target tensor [upper] and
    the random source [g]; each call's selected source nodes are the next
    call's targets. *)
Fixpoint layer_calls (upper : LongTensor) (bs : list Z) (g : RNG)
         (rs : list LayerSample) (g' : RNG) : Prop :=
  match bs, rs with
  | [], [] => g' = g
  | b :: bs', r :: rs' =>
      exists g1 cand probs raw,
        __sample_layer upper b (mkWorld s0 g) = (ok r, mkWorld s0 g1)
        /\ layer_facts upper b g r g1 cand probs raw
        /\ layer_calls (ls_selected_source_nodes r) bs' g1 rs' g'
  | _, _ => False
  end.

Lemma layer_calls_length (bs : list Z) :
  forall upper g rs g',
    layer_calls upper bs g rs g' -> length rs = length bs.
Proof.
  induction bs as [|b bs IH]; intros upper g [|r rs] g' H;
    simpl in H; try contradiction; [reflexivity|].
  destruct H as (g1 & cand & probs & raw & _ & _ & H).
  simpl. f_equal. eapply IH; eauto.
Qed.

Lemma sample_loop_ok (bs : list Z) :
  Forall (fun b => (0 < b)%Z) bs ->
  forall upper layers g,
    targets_ok upper ->
    exists rs g',
      layer_calls upper bs g rs g'
      /\ sample_loop bs upper layers (mkWorld s0 g)
         = (ok (layers ++ map layer_pair rs), mkWorld s0 g').
Proof.
  induction 1 as [|b bs Hb Hbs IH]; intros upper layers g Hup.
  - exists [], g. split; [reflexivity|].
    simpl. now rewrite app_nil_r.
  - destruct (sample_layer_ok g Hup Hb)
      as (r & g1 & cand & probs & raw & Hr & Hf).
    destruct (IH (ls_selected_source_nodes r)
                 (layers ++ [layer_pair r]) g1 (lf_next Hf))
      as (rs & g' & Hcalls & Hloop).
    exists (r :: rs), g'. split.
    + simpl. exists g1, cand, probs, raw. auto.
    + cbn [sample_loop]. unfold bind. rewrite Hr.
      unfold ok at 1. cbv beta iota zeta.
      cbn [map].
      replace (layers ++ layer_pair r :: map layer_pair rs)
        with ((layers ++ [layer_pair r]) ++ map layer_pair rs)
        by (now rewrite <- app_assoc).
      exact Hloop.
Qed.

(** [sample] on a non-empty tensor of graph nodes and a non-empty sequence
    of positive budgets returns the pairs of the successive layer calls,
    last call first. *)
Lemma sample_ok (top : LongTensor) (budgets : list Z) (g : RNG) :
  targets_ok top -> budgets <> [] ->
  Forall (fun b => (0 < b)%Z) budgets ->
  exists rs g',
    layer_calls top (rev budgets) g rs g'
    /\ sample top budgets (mkWorld s0 g)
       = (ok (rev (map layer_pair rs)), mkWorld s0 g').
Proof.
  intros Htop Hne Hpos.
  destruct (@sample_loop_ok (rev budgets)) with (upper := top)
    (layers := @nil pytuple) (g := g) as (rs & g' & Hcalls & Hloop).
  { apply Forall_rev, Hpos. }
  { exact Htop. }
  exists rs, g'. split; [exact Hcalls|].
  unfold sample.
  assert (Hl : (length budgets =? 0) = false).
  { apply Nat.eqb_neq. destruct budgets; [congruence|discriminate]. }
  rewrite Hl. unfold bind. rewrite Hloop. reflexivity.
Qed.

End Constructed.

(* ================================================================== *)
(** * Properties of the sampler *)

Lemma init_inv (edge_index : EdgeIndex) (s : Sampler) :
  __init__ edge_index = ok s ->
  s = mkSampler (add_remaining_self_loops edge_index)
        (map (fun e => Fin (edge_weight (add_remaining_self_loops edge_index) e))
             (add_remaining_self_loops edge_index)).
Proof. rewrite init_spec. now intros [= <-]. Qed.

Lemma prob_of_nth (srcs : LongTensor) (probs : FloatTensor) (k s : nat) :
  NoDup srcs -> length probs = length srcs ->
  nth_error srcs k = Some s ->
  nth_error probs k = Some (prob_of srcs probs s).
Proof.
  intros Hnd; revert probs k.
  induction Hnd as [|x srcs Hx Hnd IH]; intros probs k Hlen Hk.
  - destruct k; discriminate.
  - destruct probs as [|p probs]; [discriminate|].
    injection Hlen as Hlen. destruct k as [|k]; simpl in *.
    + injection Hk as ->. now rewrite Nat.eqb_refl.
    + destruct (x =? s) eqn:E.
      * apply Nat.eqb_eq in E; subst x. exfalso; apply Hx.
        eapply nth_error_In; eassumption.
      * now apply IH.
Qed.

Lemma path4_init : __init__ path4 = ok path4_sampler.
Proof. reflexivity. Defined.

(** C9 -- self-loop augmentation: the edge set the constructor stores has
    the nodes of the constructor's graph and all its edges; every node of
    that graph has its self-loop in the stored set, hence out-degree at
    least 1 and in-degree at least 1 there; and no call of [sample] changes
    the stored edge set. *)
Theorem C9_degrees_at_least_one_and_edge_set_kept
        (edge_index : EdgeIndex) (s : Sampler) :
  __init__ edge_index = ok s ->
  let E := all_edge_index_with_self_loops s in
  E = add_remaining_self_loops edge_index
  /\ num_nodes E = num_nodes edge_index
  /\ incl edge_index E
  /\ (forall n, n < num_nodes edge_index ->
        In (n, n) E /\ 1 <= out_degree E n /\ 1 <= in_degree E n)
  /\ (forall n, n < num_nodes E ->
        1 <= out_degree E n /\ 1 <= in_degree E n)
  /\ (forall top budgets g,
        all_edge_index_with_self_loops
          (self (snd (sample top budgets (mkWorld s g)))) = E).
Proof.
  intros Hinit. apply init_inv in Hinit. subst s.
  cbn [all_edge_index_with_self_loops]. split; [reflexivity|].
  split; [apply augmented_num_nodes|].
  split; [apply augmented_keeps_edges|]. split; [|split].
  - intros n Hn. split; [now apply self_loop_present|]. split.
    + now apply augmented_out_degree.
    + now apply augmented_in_degree.
  - intros n Hn. rewrite augmented_num_nodes in Hn. split.
    + now apply augmented_out_degree.
    + now apply augmented_in_degree.
  - intros top budgets g. now rewrite sample_self.
Qed.

Lemma C9_witness :
  __init__ path4 = ok path4_sampler
  /\ num_nodes (all_edge_index_with_self_loops path4_sampler)
     = num_nodes path4
  /\ (forall n, n < num_nodes path4 ->
        In (n, n) (all_edge_index_with_self_loops path4_sampler)
        /\ 1 <= out_degree (all_edge_index_with_self_loops path4_sampler) n
        /\ 1 <= in_degree (all_edge_index_with_self_loops path4_sampler) n).
Proof.
  split; [exact path4_init|].
  destruct (@C9_degrees_at_least_one_and_edge_set_kept
              path4 path4_sampler path4_init) as (_ & Hn & _ & Hd & _).
  split; [exact Hn|exact Hd].
Defined.

(** C8 -- edge weights: the weight array the constructor stores is the
    result of the one call of [compute_edge_weights]; the weight of every
    edge is [1/outdeg(src) * 1/indeg(tgt)]; a reciprocal that is not finite
    (degree 0) is replaced by 0, so every weight is finite; and no call of
    [sample] changes the array. *)
Theorem C8_edge_weights (edge_index : EdgeIndex) (s : Sampler) :
  __init__ edge_index = ok s ->
  let E := all_edge_index_with_self_loops s in
  let W := all_edge_weights s in
  _Utility.compute_edge_weights E = ok W
  /\ length W = length E
  /\ (forall i e, nth_error E i = Some e ->
        exists q, nth_error W i = Some (Fin q)
                  /\ (q == (1 / Qnat (out_degree E (fst e)))
                          * (1 / Qnat (in_degree E (snd e))))%Q)
  /\ (forall k, _Utility.clamp_inf [fdiv (Fin 1%Q) (of_nat k)]
                = [if k =? 0 then Fin 0%Q else Fin (1 / Qnat k)%Q])
  /\ (forall t, Forall (fun x => isinf x = false) (_Utility.clamp_inf t))
  /\ Forall (fun x => isfinite x = true) W
  /\ (forall top budgets g,
        all_edge_weights (self (snd (sample top budgets (mkWorld s g)))) = W).
Proof.
  intros Hinit. apply init_inv in Hinit. subst s.
  cbn [all_edge_index_with_self_loops all_edge_weights].
  set (E := add_remaining_self_loops edge_index).
  split; [apply compute_edge_weights_spec|].
  split; [apply length_map|].
  split.
  { intros i e He. exists (edge_weight E e). split; [|reflexivity].
    now rewrite nth_error_map, He. }
  split.
  { intros [|k].
    - reflexivity.
    - rewrite reciprocal_finite by lia. reflexivity. }
  split; [apply clamp_inf_no_inf|].
  split.
  { apply Forall_forall. intros x Hx.
    apply in_map_iff in Hx as (e & <- & _). reflexivity. }
  intros top budgets g. now rewrite sample_self.
Qed.

Lemma C8_witness :
  __init__ path4 = ok path4_sampler
  /\ length (all_edge_weights path4_sampler)
     = length (all_edge_index_with_self_loops path4_sampler).
Proof.
  split; [exact path4_init|].
  exact (proj1 (proj2 (@C8_edge_weights path4 path4_sampler path4_init))).
Defined.

Lemma layer_calls_facts (edge_index : EdgeIndex) (bs : list Z) :
  forall upper g rs g' r,
    layer_calls edge_index upper bs g rs g' -> In r rs ->
    exists targets B g1 g2 cand probs raw,
      layer_facts edge_index targets B g1 r g2 cand probs raw.
Proof.
  induction bs as [|b bs IH]; intros upper g [|r0 rs] g' r H Hin;
    simpl in H; try contradiction.
  destruct H as (g1 & cand & probs & raw & _ & Hf & H).
  destruct Hin as [<-|Hin].
  - now exists upper, b, g, g1, cand, probs, raw.
  - eapply IH; eauto.
Qed.

(** C6 -- candidate-source probabilities: on a non-empty tensor of target
    nodes of the graph, the candidate edges are the edges into a target;
    the probability of each unique candidate source node is the weight of
    the candidate edges leaving it over the weight of all candidate edges;
    and the probabilities sum to 1. *)
Theorem C6_candidate_probabilities
        (edge_index : EdgeIndex) (s : Sampler) (targets : LongTensor) :
  __init__ edge_index = ok s ->
  targets <> [] -> Forall (fun t => t < num_nodes edge_index) targets ->
  let E := all_edge_index_with_self_loops s in
  let W := all_edge_weights s in
  exists cand probs,
    candidate_edge_indexes E targets = ok cand
    /\ (forall i, In i cand <->
          exists e, nth_error E i = Some e /\ In (snd e) targets)
    /\ _Utility.get_candidate_source_nodes_probabilities cand E W
       = ok (candidate_sources E cand, probs)
    /\ (forall k n, nth_error (candidate_sources E cand) k = Some n ->
          exists p, nth_error probs k = Some (Fin p)
                    /\ (p == source_weight E W cand n / total_weight W cand)%Q)
    /\ approx (fsum probs) 1.
Proof.
  intros Hinit Hne Hrange. apply init_inv in Hinit. subst s.
  cbn [all_edge_index_with_self_loops all_edge_weights].
  destruct (@candidate_stage edge_index targets (conj Hne Hrange))
    as (cand & probs & Hc & Hcs & Hp & _ & _ & Hpl & Hpp & Hps & Hpv).
  exists cand, probs. repeat (split; [assumption|]). split.
  - intros k n Hk.
    pose proof (@prob_of_nth _ probs k n (unique_NoDup _) Hpl Hk) as Hn.
    destruct (Hpv n (nth_error_In _ _ Hk)) as [Ha _].
    rewrite Hn.
    destruct (prob_of _ probs n) as [p| | |]; simpl in Ha; try contradiction.
    now exists p.
  - destruct (fsum_finite (Forall_finpos_finite Hpp)) as (q & Hq & He).
    rewrite Hq. simpl. now rewrite He.
Qed.

Lemma C6_witness :
  __init__ path4 = ok path4_sampler
  /\ [3] <> []
  /\ Forall (fun t => t < num_nodes path4) [3]
  /\ exists cand probs,
       candidate_edge_indexes
         (all_edge_index_with_self_loops path4_sampler) [3] = ok cand
       /\ _Utility.get_candidate_source_nodes_probabilities cand
            (all_edge_index_with_self_loops path4_sampler)
            (all_edge_weights path4_sampler)
          = ok (candidate_sources
                  (all_edge_index_with_self_loops path4_sampler) cand, probs)
       /\ approx (fsum probs) 1.
Proof.
  assert (H1 : [3] <> []) by discriminate.
  assert (H2 : Forall (fun t => t < num_nodes path4) [3]).
  { constructor; [vm_compute; lia|constructor]. }
  split; [exact path4_init|]. split; [exact H1|]. split; [exact H2|].
  destruct (@C6_candidate_probabilities path4 path4_sampler [3]
              path4_init H1 H2) as (cand & probs & Hc & _ & Hp & _ & Hs).
  exists cand, probs. auto.
Defined.

(** C7 -- per-target normalization: in every layer returned by [sample],
    for every node that is the target of a selected edge, the normalized
    weights of the selected edges into that node sum to 1. *)
Theorem C7_normalized_weights_sum_to_one
        (edge_index : EdgeIndex) (s : Sampler) (top : LongTensor)
        (budgets : list Z) (g : RNG) :
  __init__ edge_index = ok s ->
  top <> [] -> Forall (fun t => t < num_nodes edge_index) top ->
  budgets <> [] -> Forall (fun b => (0 < b)%Z) budgets ->
  exists layers w',
    sample top budgets (mkWorld s g) = (ok layers, w')
    /\ forall l, In l layers ->
         exists ei ew,
           l = [VEdgeIndex ei; VFloatTensor ew]
           /\ forall t, In t (row1 ei) ->
                approx (fsum (select_by ew (eq_mask (row1 ei) t))) 1.
Proof.
  intros Hinit Hne Hrange Hbne Hbpos. apply init_inv in Hinit. subst s.
  destruct (@sample_ok edge_index top budgets g (conj Hne Hrange) Hbne Hbpos)
    as (rs & g' & Hcalls & Hsample).
  eexists; eexists; split; [exact Hsample|].
  intros l Hl. apply in_rev in Hl. apply in_map_iff in Hl as (r & <- & Hr).
  destruct (@layer_calls_facts edge_index _ _ _ _ _ r Hcalls Hr)
    as (targets & B & g1 & g2 & cand & probs & raw & Hf).
  exists (ls_edge_index r), (ls_edge_weight r). split; [reflexivity|].
  exact (lf_weight_sums Hf).
Qed.

Lemma C7_witness :
  __init__ path4 = ok path4_sampler
  /\ [3] <> []
  /\ Forall (fun t => t < num_nodes path4) [3]
  /\ [2; 2]%Z <> []
  /\ Forall (fun b => (0 < b)%Z) [2; 2]%Z
  /\ exists layers w',
       sample [3] [2; 2]%Z (mkWorld path4_sampler (const_rng 0))
       = (ok layers, w').
Proof.
  assert (H1 : [3] <> []) by discriminate.
  assert (H2 : Forall (fun t => t < num_nodes path4) [3]).
  { constructor; [vm_compute; lia|constructor]. }
  assert (H3 : [2; 2]%Z <> []) by discriminate.
  assert (H4 : Forall (fun b => (0 < b)%Z) [2; 2]%Z).
  { repeat constructor. }
  repeat (split; [first [exact path4_init | assumption]|]).
  destruct (@C7_normalized_weights_sum_to_one path4 path4_sampler [3]
              [2; 2]%Z (const_rng 0) path4_init H1 H2 H3 H4)
    as (layers & w' & Hs & _).
  now exists layers, w'.
Defined.

(** C5 -- edge filtering: the selected edge indexes are exactly the
    positions, in the full self-loop-augmented edge set, of the edges whose
    source is a selected source node and whose target is a current target
    node; the returned edge index holds those edges. *)
Theorem C5_selected_edges
        (edge_index : EdgeIndex) (s : Sampler) (targets : LongTensor)
        (B : Z) (g : RNG) :
  __init__ edge_index = ok s ->
  targets <> [] -> Forall (fun t => t < num_nodes edge_index) targets ->
  (0 < B)%Z ->
  let E := all_edge_index_with_self_loops s in
  exists r w',
    __sample_layer targets B (mkWorld s g) = (ok r, w')
    /\ _Utility.filter_selected_edges_by_source_nodes_and_target_nodes
         E (ls_selected_source_nodes r) targets
       = ok (ls_selected_edge_indexes r)
    /\ (forall i, In i (ls_selected_edge_indexes r) <->
          exists e, nth_error E i = Some e
                    /\ In (fst e) (ls_selected_source_nodes r)
                    /\ In (snd e) targets)
    /\ NoDup (ls_selected_edge_indexes r)
    /\ ls_edge_index r
       = map (fun i => nth i E (0, 0)) (ls_selected_edge_indexes r).
Proof.
  intros Hinit Hne Hrange HB. apply init_inv in Hinit. subst s.
  cbn [all_edge_index_with_self_loops].
  destruct (@sample_layer_ok edge_index targets B g (conj Hne Hrange) HB)
    as (r & g' & cand & probs & raw & Hr & Hf).
  exists r. eexists. split; [exact Hr|].
  split; [exact (lf_filtered Hf)|].
  split; [exact (lf_edges_spec Hf)|].
  split; [exact (sorted_NoDup (lf_edges_sorted Hf))|].
  exact (lf_edge_index Hf).
Qed.

Lemma C5_witness :
  __init__ path4 = ok path4_sampler
  /\ [2; 3] <> []
  /\ Forall (fun t => t < num_nodes path4) [2; 3]
  /\ (0 < 2)%Z
  /\ exists r w',
       __sample_layer [2; 3] 2 (mkWorld path4_sampler (const_rng 0))
       = (ok r, w').
Proof.
  assert (H1 : [2; 3] <> []) by discriminate.
  assert (H2 : Forall (fun t => t < num_nodes path4) [2; 3]).
  { repeat constructor; vm_compute; lia. }
  assert (H3 : (0 < 2)%Z) by lia.
  repeat (split; [first [exact path4_init | assumption]|]).
  destruct (@C5_selected_edges path4 path4_sampler [2; 3] 2%Z (const_rng 0)
              path4_init H1 H2 H3) as (r & w' & Hr & _).
  now exists r, w'.
Defined.

(** C3 -- weights before normalization: each selected edge [e] gets
    [w(e) / (k * p(src e))], where [k] is the number of distinct selected
    source nodes (the length of the selected tensor, whatever the budget)
    and [p] the candidate-source probability of the edge's source; these
    are the weights handed to the normalization. *)
Theorem C3_weights_before_normalization
        (edge_index : EdgeIndex) (s : Sampler) (targets : LongTensor)
        (B : Z) (g : RNG) :
  __init__ edge_index = ok s ->
  targets <> [] -> Forall (fun t => t < num_nodes edge_index) targets ->
  (0 < B)%Z ->
  let E := all_edge_index_with_self_loops s in
  let W := all_edge_weights s in
  exists r w' cand probs raw,
    __sample_layer targets B (mkWorld s g) = (ok r, w')
    /\ candidate_edge_indexes E targets = ok cand
    /\ _Utility.get_candidate_source_nodes_probabilities cand E W
       = ok (candidate_sources E cand, probs)
    /\ non_normalized_weights E W (candidate_sources E cand) probs
         (ls_selected_source_nodes r) (ls_selected_edge_indexes r) = ok raw
    /\ __normalize_edges_weight_by_target_nodes (ls_edge_index r) raw
       = ok (ls_edge_weight r)
    /\ NoDup (ls_selected_source_nodes r)
    /\ forall j i e,
         nth_error (ls_selected_edge_indexes r) j = Some i ->
         nth_error E i = Some e ->
         exists w p q,
           nth_error W i = Some (Fin w)
           /\ prob_of (candidate_sources E cand) probs (fst e) = Fin p
           /\ (p == source_weight E W cand (fst e) / total_weight W cand)%Q
           /\ nth_error raw j = Some (Fin q)
           /\ (q == w / (Qnat (length (ls_selected_source_nodes r)) * p))%Q.
Proof.
  intros Hinit Hne Hrange HB. apply init_inv in Hinit. subst s.
  cbn [all_edge_index_with_self_loops all_edge_weights].
  destruct (@sample_layer_ok edge_index targets B g (conj Hne Hrange) HB)
    as (r & g' & cand & probs & raw & Hr & Hf).
  set (E := add_remaining_self_loops edge_index) in *.
  set (W := map (fun e => Fin (edge_weight E e)) E) in *.
  exists r. eexists. exists cand, probs, raw.
  split; [exact Hr|]. split; [exact (lf_candidates Hf)|].
  split; [exact (lf_probabilities Hf)|]. split; [exact (lf_raw Hf)|].
  split; [exact (lf_normalized Hf)|].
  split; [exact (sorted_NoDup (lf_selected_sorted Hf))|].
  intros j i e Hj He.
  assert (Hi : i < length E) by (apply nth_error_Some; congruence).
  assert (Hsrc : In (fst e) (candidate_sources E cand)).
  { apply (lf_selected_subset Hf).
    apply nth_error_In in Hj. apply (lf_edges_spec Hf) in Hj.
    destruct Hj as (e' & He' & Hs & _).
    assert (e' = e) by (unfold E in *; congruence). now subst e'. }
  destruct (lf_probs_value Hf _ Hsrc) as [Hpa Hpp].
  change (add_remaining_self_loops edge_index) with E in Hpa, Hpp.
  change (map (fun e => Fin (edge_weight E e)) E) with W in Hpa.
  assert (Hk : 1 <= length (ls_selected_source_nodes r)).
  { destruct (lf_next Hf) as [Hn _].
    destruct (ls_selected_source_nodes r); [congruence|simpl; lia]. }
  pose proof (@W_finpos edge_index i Hi) as Hwp. fold E W in Hwp.
  destruct (@raw_weight_value (nth i W NaN)
              (prob_of (candidate_sources E cand) probs (fst e))
              (length (ls_selected_source_nodes r)) Hwp Hpp Hk)
    as [_ Hra].
  assert (Hrj : nth_error raw j
                = Some (fdiv (nth i W NaN)
                          (fmul (of_nat (length (ls_selected_source_nodes r)))
                                (prob_of (candidate_sources E cand) probs
                                         (fst e))))).
  { rewrite (lf_raw_value Hf), nth_error_map. fold E. rewrite Hj.
    cbn [option_map].
    now rewrite (nth_error_nth _ _ (0, 0) He). }
  assert (HWi : nth_error W i = Some (nth i W NaN)).
  { apply nth_error_nth'. unfold W. now rewrite length_map. }
  destruct (nth i W NaN) as [w| | |] eqn:EW; simpl in Hwp; try contradiction.
  destruct (prob_of (candidate_sources E cand) probs (fst e))
    as [p| | |] eqn:EP; simpl in Hpp; try contradiction.
  simpl in Hpa.
  destruct (fdiv (Fin w)
              (fmul (of_nat (length (ls_selected_source_nodes r))) (Fin p)))
    as [q| | |] eqn:EQ; simpl in Hra; try contradiction.
  exists w, p, q. repeat split; auto.
Qed.

Lemma C3_witness :
  __init__ path4 = ok path4_sampler
  /\ [2; 3] <> []
  /\ Forall (fun t => t < num_nodes path4) [2; 3]
  /\ (0 < 2)%Z
  /\ exists r w' raw,
       __sample_layer [2; 3] 2 (mkWorld path4_sampler (const_rng 0))
       = (ok r, w')
       /\ __normalize_edges_weight_by_target_nodes (ls_edge_index r) raw
          = ok (ls_edge_weight r).
Proof.
  assert (H1 : [2; 3] <> []) by discriminate.
  assert (H2 : Forall (fun t => t < num_nodes path4) [2; 3]).
  { repeat constructor; vm_compute; lia. }
  assert (H3 : (0 < 2)%Z) by lia.
  repeat (split; [first [exact path4_init | assumption]|]).
  destruct (@C3_weights_before_normalization path4 path4_sampler [2; 3]
              2%Z (const_rng 0) path4_init H1 H2 H3)
    as (r & w' & cand & probs & raw & Hr & _ & _ & _ & Hn & _).
  now exists r, w', raw.
Defined.



Lemma empty_targets_fail_in_cat (s : Sampler) (B : Z) (g : RNG) :
  candidate_edge_indexes (all_edge_index_with_self_loops s) []
  = raise RuntimeError
  /\ __sample_layer [] B (mkWorld s g) = (raise RuntimeError, mkWorld s g).
Proof.
  split; [reflexivity|]. now rewrite sample_layer_stages.
Qed.

(** C1 (as the code behaves) -- on a non-empty tensor of target nodes of
    the graph and a non-empty sequence of [n] positive budgets, [sample]
    returns [n] layer results.  The loop calls [__sample_layer] once per
    budget, last budget first, each call taking the previous call's
    selected source nodes as targets, and the results are returned in the
    reverse of the call order: input-most layer first.  Each layer result
    is the pair [(edge_index, edge_weight)] of its call. *)
Theorem C1_sample_returns_layer_pairs
        (edge_index : EdgeIndex) (s : Sampler) (top : LongTensor)
        (budgets : list Z) (g : RNG) :
  __init__ edge_index = ok s ->
  top <> [] -> Forall (fun t => t < num_nodes edge_index) top ->
  budgets <> [] -> Forall (fun b => (0 < b)%Z) budgets ->
  exists rs g',
    layer_calls edge_index top (rev budgets) g rs g'
    /\ sample top budgets (mkWorld s g)
       = (ok (rev (map layer_pair rs)), mkWorld s g')
    /\ length (rev (map layer_pair rs)) = length budgets.
Proof.
  intros Hinit Hne Hrange Hbne Hbpos. apply init_inv in Hinit. subst s.
  destruct (@sample_ok edge_index top budgets g (conj Hne Hrange) Hbne Hbpos)
    as (rs & g' & Hcalls & Hsample).
  exists rs, g'. split; [exact Hcalls|]. split; [exact Hsample|].
  rewrite length_rev, length_map.
  rewrite (layer_calls_length _ _ _ _ _ _ Hcalls). apply length_rev.
Qed.

Lemma C1_witness :
  __init__ path4 = ok path4_sampler
  /\ [3] <> []
  /\ Forall (fun t => t < num_nodes path4) [3]
  /\ [2; 2]%Z <> []
  /\ Forall (fun b => (0 < b)%Z) [2; 2]%Z
  /\ exists rs g',
       sample [3] [2; 2]%Z (mkWorld path4_sampler (const_rng 0))
       = (ok (rev (map layer_pair rs)), mkWorld path4_sampler g')
       /\ length (rev (map layer_pair rs)) = length [2; 2]%Z.
Proof.
  assert (H1 : [3] <> []) by discriminate.
  assert (H2 : Forall (fun t => t < num_nodes path4) [3]).
  { constructor; [vm_compute; lia|constructor]. }
  assert (H3 : [2; 2]%Z <> []) by discriminate.
  assert (H4 : Forall (fun b => (0 < b)%Z) [2; 2]%Z).
  { repeat constructor. }
  repeat (split; [first [exact path4_init | assumption]|]).
  destruct (@C1_sample_returns_layer_pairs path4 path4_sampler [3]
              [2; 2]%Z (const_rng 0) path4_init H1 H2 H3 H4)
    as (rs & g' & _ & Hs & Hl).
  now exists rs, g'.
Defined.

(** C1 as stated fails: on the path graph with targets [{3}] and budgets
    [[2; 2]], what [sample] returns is not a sequence of the 4-tuples of
    [__sample_layer]. *)
Lemma C1_counterexample :
  ~ exists rs w',
      sample [3] [2; 2]%Z (mkWorld path4_sampler (const_rng 0))
      = (ok (rev (map tuple_of_layer_sample rs)), w').
Proof.
  intros (rs & w' & H).
  assert (Hs : exists l1 l2 w,
             sample [3] [2; 2]%Z (mkWorld path4_sampler (const_rng 0))
             = (ok [l1; l2], w)
             /\ length l1 = 2).
  { eexists. eexists. eexists. split; vm_compute; reflexivity. }
  destruct Hs as (l1 & l2 & w & Hs & Hl1).
  rewrite Hs in H. injection H as H _.
  destruct rs as [|r rs] using rev_ind; [discriminate|].
  rewrite map_app, rev_app_distr in H. simpl in H.
  injection H as H _. rewrite H in Hl1. discriminate.
Qed.

(* ================================================================== *)
(** * Random split masks *)

Section SplitFacts.

Lemma remove_nth_length {A} (k : nat) (l : list A) :
  k < length l -> length (remove_nth k l) = pred (length l).
Proof.
  revert k; induction l as [|x l IH]; intros k Hk; simpl in *; [lia|].
  destruct k as [|k]; [reflexivity|].
  simpl. rewrite IH by lia. lia.
Qed.

Lemma nth_remove_nth_perm {A} (d : A) (k : nat) (l : list A) :
  k < length l -> Permutation (nth k l d :: remove_nth k l) l.
Proof.
  revert k; induction l as [|x l IH]; intros k Hk; simpl in *; [lia|].
  destruct k as [|k]; [reflexivity|].
  simpl. rewrite perm_swap. constructor. apply IH. lia.
Qed.

Lemma randperm_from_perm (raw : nat -> Z) (n : nat) :
  forall pool cur,
    length pool = n -> Permutation (randperm_from n pool raw cur) pool.
Proof.
  induction n as [|n IH]; intros pool cur Hlen.
  - destruct pool; [constructor|discriminate].
  - cbn [randperm_from].
    set (k := Z.to_nat (raw cur mod Z.of_nat (length pool))).
    assert (Hk : k < length pool).
    { unfold k. rewrite Hlen.
      pose proof (Z.mod_pos_bound (raw cur) (Z.of_nat (S n))). lia. }
    eapply Permutation_trans; [|exact (@nth_remove_nth_perm nat 0 k pool Hk)].
    constructor. apply IH. rewrite remove_nth_length by exact Hk. lia.
Qed.

Lemma randperm_perm (n : nat) (g : RNG) :
  Permutation (fst (randperm n g)) (seq 0 n).
Proof. apply randperm_from_perm. apply length_seq. Qed.

Lemma index_to_mask_ok (index : LongTensor) (size : nat) :
  Forall (fun i => i < size) index ->
  exists m, index_to_mask index size = ok m
            /\ length m = size
            /\ forall i, nth i m false = true <-> In i index.
Proof.
  intros H. unfold index_to_mask.
  destruct (@index_fill_true_ok index (zeros_bool size))
    as (m & Hm & Hl & Hn).
  { now rewrite zeros_bool_length. }
  exists m. split; [exact Hm|]. split; [now rewrite Hl, zeros_bool_length|].
  intros i. split.
  - intros Hi.
    assert (Hlt : i < length m).
    { destruct (Nat.lt_ge_cases i (length m)) as [|Hge]; [assumption|].
      rewrite nth_overflow in Hi by exact Hge. discriminate. }
    pose proof (nth_error_nth' m false Hlt) as He. rewrite Hi in He.
    apply Hn in He as [He|He]; [|exact He].
    exfalso. eapply zeros_bool_nth; eassumption.
  - intros Hi.
    assert (He : nth_error m i = Some true) by (apply Hn; now right).
    now apply nth_error_nth.
Qed.

(** Bounds [0 <= a <= b]: the three slices cut the sequence in three. *)
Lemma slices_cover {A} (l : list A) (a b : Z) :
  (0 <= a <= b)%Z ->
  slice l None (Some a) ++ slice l (Some a) (Some b) ++ slice l (Some b) None
  = l.
Proof.
  intros Hab. unfold slice, slice_index.
  assert (Ha : (a <? 0)%Z = false) by (apply Z.ltb_ge; lia).
  assert (Hb : (b <? 0)%Z = false) by (apply Z.ltb_ge; lia).
  rewrite Ha, Hb.
  set (a' := Nat.min (Z.to_nat a) (length l)).
  set (b' := Nat.min (Z.to_nat b) (length l)).
  assert (Hle : a' <= b') by (unfold a', b'; lia).
  assert (Hbl : b' <= length l) by (unfold b'; lia).
  rewrite Nat.sub_0_r. cbn [skipn].
  rewrite (firstn_all2 (n := length l - b')) by (rewrite length_skipn; lia).
  replace (skipn b' l) with (skipn (b' - a') (skipn a' l))
    by (rewrite skipn_skipn; f_equal; lia).
  now rewrite firstn_skipn, firstn_skipn.
Qed.




Lemma int_of_float_nonneg (q : Q) :
  (0 <= q)%Q -> int_of_float q = Qfloor q /\ (0 <= Qfloor q)%Z.
Proof.
  intros H. unfold int_of_float.
  apply Qle_bool_iff in H as Hb. rewrite Hb. split; [reflexivity|].
  change 0%Z with (Qfloor 0). now apply Qfloor_resp_le.
Qed.

Variable manual_seed : Z -> RNG.


End SplitFacts.

Section SplitLoops.

Variable manual_seed : Z -> RNG.
Variables (train_ratio val_ratio : Q) (seed : option Z).
Hypothesis train_nonneg : (0 <= train_ratio)%Q.
Hypothesis val_nonneg : (0 <= val_ratio)%Q.



End SplitLoops.




(* ================================================================== *)
(** * Further properties of the sampler *)

Section EdgeSetFacts.

Lemma Qnat_ge_1 (n : nat) : 1 <= n -> (1 <= Qnat n)%Q.
Proof. intros H. unfold Qnat, Qle; simpl. lia. Qed.

Lemma reciprocal_le_1 (n : nat) : 1 <= n -> (1 / Qnat n <= 1)%Q.
Proof.
  intros H. pose proof (Qnat_ge_1 H) as H1.
  apply Qle_shift_div_r; lra.
Qed.

Lemma reciprocal_pos (n : nat) : 1 <= n -> (0 < 1 / Qnat n)%Q.
Proof.
  intros H. pose proof (Qnat_ge_1 H) as H1.
  apply Qlt_shift_div_l; lra.
Qed.

Lemma edge_weight_le_1 (E : EdgeIndex) (e : nat * nat) :
  In e E -> (edge_weight E e <= 1)%Q.
Proof.
  intros He. unfold edge_weight.
  assert (H0 : 1 <= out_degree E (fst e)).
  { apply (proj1 (count_occ_In Nat.eq_dec (row0 E) (fst e))).
    unfold row0. now apply in_map. }
  assert (H1 : 1 <= in_degree E (snd e)).
  { apply (proj1 (count_occ_In Nat.eq_dec (row1 E) (snd e))).
    unfold row1. now apply in_map. }
  pose proof (reciprocal_le_1 H0). pose proof (reciprocal_le_1 H1).
  pose proof (reciprocal_pos H0). pose proof (reciprocal_pos H1).
  nra.
Qed.

Lemma filter_self_loops_only (l : list nat) (f : nat * nat -> bool) :
  (forall n, f (n, n) = false) ->
  filter f (map (fun n => (n, n)) l) = [].
Proof.
  intros H. induction l as [|n l IH]; simpl; [reflexivity|].
  now rewrite H.
Qed.

Lemma filter_self_loops_all (l : list nat) (f : nat * nat -> bool) :
  (forall n, f (n, n) = true) ->
  filter f (map (fun n => (n, n)) l) = map (fun n => (n, n)) l.
Proof.
  intros H. induction l as [|n l IH]; simpl; [reflexivity|].
  now rewrite H, IH.
Qed.

Lemma filter_twice {A} (f : A -> bool) (l : list A) :
  filter f (filter f l) = filter f l.
Proof.
  induction l as [|a l IH]; simpl; [reflexivity|].
  destruct (f a) eqn:E; simpl; rewrite ?E, IH; reflexivity.
Qed.

Lemma filter_complement {A} (f : A -> bool) (l : list A) :
  filter (fun a => negb (f a)) (filter f l) = [].
Proof.
  induction l as [|a l IH]; simpl; [reflexivity|].
  destruct (f a) eqn:E; simpl; rewrite ?E; simpl; exact IH.
Qed.

(** Augmenting an augmented edge set changes nothing. *)
Lemma add_remaining_self_loops_idem (edge_index : EdgeIndex) :
  add_remaining_self_loops (add_remaining_self_loops edge_index)
  = add_remaining_self_loops edge_index.
Proof.
  pose proof (augmented_num_nodes edge_index) as HN.
  unfold num_nodes in HN.
  unfold add_remaining_self_loops at 1. cbv zeta. rewrite HN.
  unfold add_remaining_self_loops at 1.
  rewrite filter_app, filter_twice, filter_self_loops_only.
  - now rewrite app_nil_r.
  - intros n. simpl. now rewrite Nat.eqb_refl.
Qed.

End EdgeSetFacts.

(** X1 -- [compute_edge_weights] on any edge index, self-loops or not: it
    returns one weight per edge, the weight of an edge is
    [1/outdeg(src) * 1/indeg(tgt)], it is finite, positive and at most 1,
    and no reciprocal of a gathered degree is infinite, so the replacement
    of infinities by 0 never changes a value. *)
Theorem X1_edge_weights_of_any_edge_index (E : EdgeIndex) :
  exists W,
    _Utility.compute_edge_weights E = ok W
    /\ length W = length E
    /\ (forall i e, nth_error E i = Some e ->
          exists q, nth_error W i = Some (Fin q)
                    /\ (q == (1 / Qnat (out_degree E (fst e)))
                            * (1 / Qnat (in_degree E (snd e))))%Q
                    /\ (0 < q)%Q /\ (q <= 1)%Q)
    /\ _Utility.clamp_inf
         (map (fdiv (Fin 1%Q))
              (map (fun i => of_nat (out_degree E i)) (row0 E)))
       = map (fdiv (Fin 1%Q))
             (map (fun i => of_nat (out_degree E i)) (row0 E))
    /\ _Utility.clamp_inf
         (map (fdiv (Fin 1%Q))
              (map (fun i => of_nat (in_degree E i)) (row1 E)))
       = map (fdiv (Fin 1%Q))
             (map (fun i => of_nat (in_degree E i)) (row1 E)).
Proof.
  exists (map (fun e => Fin (edge_weight E e)) E).
  split; [apply compute_edge_weights_spec|].
  split; [apply length_map|].
  split.
  { intros i e He. exists (edge_weight E e).
    split; [now rewrite nth_error_map, He|].
    split; [reflexivity|].
    apply nth_error_In in He.
    split; [now apply edge_weight_pos|now apply edge_weight_le_1]. }
  assert (Hclamp : forall (c : nat -> nat) (l : list nat),
             (forall i, In i l -> 1 <= c i) ->
             _Utility.clamp_inf
               (map (fdiv (Fin 1%Q)) (map (fun i => of_nat (c i)) l))
             = map (fdiv (Fin 1%Q)) (map (fun i => of_nat (c i)) l)).
  { intros c l Hc. unfold _Utility.clamp_inf. rewrite !map_map.
    apply map_ext_in. intros i Hi.
    now rewrite (reciprocal_finite (Hc i Hi)). }
  split; apply Hclamp; intros i Hi.
  - now apply (proj1 (count_occ_In Nat.eq_dec (row0 E) i)).
  - now apply (proj1 (count_occ_In Nat.eq_dec (row1 E) i)).
Qed.

(** X2 -- what the constructor stores: the edges that are not self-loops,
    in their order, then exactly one self-loop per node, whatever
    self-loops the input had; building a sampler from a sampler's own edge
    set gives the same sampler. *)
Theorem X2_constructor_edge_set
        (edge_index : EdgeIndex) (s : Sampler) :
  __init__ edge_index = ok s ->
  let E := all_edge_index_with_self_loops s in
  filter (fun e => negb (fst e =? snd e)) E
  = filter (fun e => negb (fst e =? snd e)) edge_index
  /\ filter (fun e => fst e =? snd e) E
     = map (fun n => (n, n)) (seq 0 (num_nodes edge_index))
  /\ num_nodes E = num_nodes edge_index
  /\ __init__ E = ok s.
Proof.
  intros Hinit. apply init_inv in Hinit. subst s.
  cbn [all_edge_index_with_self_loops].
  split; [|split; [|split]].
  - unfold add_remaining_self_loops.
    rewrite filter_app, filter_twice, filter_self_loops_only.
    + apply app_nil_r.
    + intros n. simpl. now rewrite Nat.eqb_refl.
  - unfold add_remaining_self_loops.
    rewrite filter_app, filter_self_loops_all.
    + replace (filter (fun e => fst e =? snd e)
                 (filter (fun e => negb (fst e =? snd e)) edge_index))
        with (@nil (nat * nat)); [reflexivity|].
      symmetry.
      rewrite <- (filter_complement (fun e => negb (fst e =? snd e))
                    edge_index).
      apply filter_ext. intros e. now rewrite negb_involutive.
    + intros n. simpl. apply Nat.eqb_refl.
  - apply augmented_num_nodes.
  - rewrite init_spec, add_remaining_self_loops_idem. reflexivity.
Qed.

Lemma X2_witness :
  __init__ [(0, 0); (0, 0); (0, 1)] = ok (mkSampler
     [(0, 1); (0, 0); (1, 1)] [Fin (1 # 4); Fin (1 # 2); Fin (1 # 2)])
  /\ __init__ [(0, 1); (0, 0); (1, 1)] = ok (mkSampler
     [(0, 1); (0, 0); (1, 1)] [Fin (1 # 4); Fin (1 # 2); Fin (1 # 2)]).
Proof.
  assert (H : __init__ [(0, 0); (0, 0); (0, 1)] = ok (mkSampler
     [(0, 1); (0, 0); (1, 1)] [Fin (1 # 4); Fin (1 # 2); Fin (1 # 2)]))
    by reflexivity.
  split; [exact H|].
  exact (proj2 (proj2 (proj2 (@X2_constructor_edge_set _ _ H)))).
Defined.

Section LayerConsequences.

Variable edge_index : EdgeIndex.
Variables (targets : LongTensor) (B : Z) (g g' : RNG) (r : LayerSample).
Variables (cand : LongTensor) (probs raw : FloatTensor).
Hypothesis Hf : layer_facts edge_index targets B g r g' cand probs raw.

Let E := add_remaining_self_loops edge_index.

Lemma selected_edge_nth (i : nat) :
  In i (ls_selected_edge_indexes r) ->
  exists e, nth_error E i = Some e /\ nth i E (0, 0) = e
            /\ In (fst e) (ls_selected_source_nodes r)
            /\ In (snd e) targets.
Proof.
  intros Hi. apply (lf_edges_spec Hf) in Hi as (e & He & Hs & Ht).
  exists e. repeat split; auto. now apply nth_error_nth.
Qed.

(** The sources of the returned edges are exactly the selected source
    nodes. *)
Lemma facts_sources_eq (n : nat) :
  In n (row0 (ls_edge_index r)) <-> In n (ls_selected_source_nodes r).
Proof.
  rewrite (lf_edge_index Hf). unfold row0. rewrite map_map. split.
  - intros H. apply in_map_iff in H as (i & <- & Hi).
    destruct (@selected_edge_nth i Hi) as (e & _ & Hn & Hs & _).
    fold E. now rewrite Hn.
  - intros Hn.
    pose proof (lf_selected_subset Hf n Hn) as Hc.
    unfold candidate_sources in Hc. rewrite unique_In in Hc.
    unfold row0 in Hc. rewrite map_map in Hc.
    apply in_map_iff in Hc as (i & Hi & Hic).
    apply (lf_candidates_spec Hf) in Hic as (e & He & Ht).
    fold E in Hi, He.
    pose proof (nth_error_nth _ _ (0, 0) He) as Hnth.
    rewrite Hnth in Hi.
    apply in_map_iff. exists i. split.
    + fold E. now rewrite Hnth.
    + apply (lf_edges_spec Hf). exists e. fold E.
      split; [exact He|]. split; [now rewrite Hi|exact Ht].
Qed.

(** The targets of the returned edges are target nodes of the call. *)
Lemma facts_targets_sub : incl (row1 (ls_edge_index r)) targets.
Proof.
  intros t Ht. rewrite (lf_edge_index Hf) in Ht.
  unfold row1 in Ht. rewrite map_map in Ht.
  apply in_map_iff in Ht as (i & <- & Hi).
  destruct (@selected_edge_nth i Hi) as (e & _ & Hn & _ & Hte).
  fold E. now rewrite Hn.
Qed.

(** Every selected edge is a candidate edge. *)
Lemma facts_edges_candidates : incl (ls_selected_edge_indexes r) cand.
Proof.
  intros i Hi. apply (lf_edges_spec Hf) in Hi as (e & He & _ & Ht).
  apply (lf_candidates_spec Hf). eauto.
Qed.

End LayerConsequences.

Section WeightBounds.

Lemma select_by_member {A} (t : list A) (m : BoolTensor) (j : nat) (a : A) :
  nth_error t j = Some a -> nth_error m j = Some true ->
  In a (select_by t m).
Proof.
  revert m j; induction t as [|x t IH]; intros [|b m] [|j]; simpl;
    try discriminate.
  - intros [= ->] [= ->]. now left.
  - intros Ha Hb. destruct b; [right|]; eauto.
Qed.

Lemma member_le_Qsum (l : FloatTensor) (x : float) :
  Forall finpos l -> In x l -> (val x <= Qsum (map val l))%Q.
Proof.
  induction 1 as [|y l Hy Hl IH]; intros Hin; [contradiction|].
  simpl.
  assert (Hs : (0 <= Qsum (map val l))%Q).
  { apply Qsum_nonneg. apply Forall_forall. intros q Hq.
    apply in_map_iff in Hq as (z & <- & Hz).
    rewrite Forall_forall in Hl. apply Qlt_le_weak, finpos_val. auto. }
  destruct Hin as [->|Hin].
  - lra.
  - specialize (IH Hin). apply finpos_val in Hy. lra.
Qed.

(** Positive weights whose groups by target sum to 1 are at most 1. *)
Lemma normalized_weights_unit (ei : EdgeIndex) (w : FloatTensor) :
  length w = length ei -> Forall finpos w ->
  (forall t, In t (row1 ei) ->
     approx (fsum (select_by w (eq_mask (row1 ei) t))) 1) ->
  Forall (fun x => exists q, x = Fin q /\ (0 < q)%Q /\ (q <= 1)%Q) w.
Proof.
  intros Hlen Hpos Hsum. apply Forall_forall. intros x Hx.
  apply In_nth_error in Hx as (j & Hj).
  assert (Hjl : j < length ei).
  { rewrite <- Hlen. apply nth_error_Some. congruence. }
  destruct (nth_error ei j) as [e|] eqn:He;
    [|apply nth_error_None in He; lia].
  assert (Ht : In (snd e) (row1 ei)).
  { unfold row1. apply in_map. eapply nth_error_In; eauto. }
  assert (Hm : nth_error (eq_mask (row1 ei) (snd e)) j = Some true).
  { unfold eq_mask, row1. rewrite !nth_error_map, He. simpl.
    now rewrite Nat.eqb_refl. }
  pose proof (@select_by_member _ w _ j x Hj Hm) as Hin.
  set (grp := select_by w (eq_mask (row1 ei) (snd e))) in *.
  assert (Hg : Forall finpos grp) by now apply select_by_Forall.
  specialize (Hsum _ Ht). fold grp in Hsum.
  destruct (fsum_finite (Forall_finpos_finite Hg)) as (q & Hq & Hqe).
  rewrite Hq in Hsum. simpl in Hsum.
  pose proof (@member_le_Qsum grp x Hg Hin) as Hle.
  assert (Hxp : finpos x).
  { rewrite Forall_forall in Hpos. apply Hpos.
    eapply nth_error_In; eauto. }
  destruct x as [v| | |]; simpl in Hxp; try contradiction.
  exists v. split; [reflexivity|]. split; [exact Hxp|].
  simpl in Hle. rewrite <- Hqe, Hsum in Hle. exact Hle.
Qed.

End WeightBounds.

(** X3 -- because of the self-loops, every target node of a layer step is
    one of its candidate source nodes; so when the budget covers all the
    candidates, the selected source nodes include the targets. *)
Theorem X3_targets_are_candidate_sources
        (edge_index : EdgeIndex) (s : Sampler) (targets : LongTensor)
        (B : Z) (g : RNG) :
  __init__ edge_index = ok s ->
  targets <> [] -> Forall (fun t => t < num_nodes edge_index) targets ->
  (0 < B)%Z ->
  let E := all_edge_index_with_self_loops s in
  exists r w' cand,
    __sample_layer targets B (mkWorld s g) = (ok r, w')
    /\ candidate_edge_indexes E targets = ok cand
    /\ incl targets (candidate_sources E cand)
    /\ ((Z.of_nat (length (candidate_sources E cand)) <= B)%Z ->
        incl targets (ls_selected_source_nodes r)).
Proof.
  intros Hinit Hne Hrange HB. apply init_inv in Hinit. subst s.
  cbn [all_edge_index_with_self_loops].
  destruct (@sample_layer_ok edge_index targets B g (conj Hne Hrange) HB)
    as (r & g' & cand & probs & raw & Hr & Hf).
  set (E := add_remaining_self_loops edge_index) in *.
  assert (Hin : incl targets (candidate_sources E cand)).
  { intros t Ht. rewrite Forall_forall in Hrange.
    pose proof (@self_loop_present edge_index t (Hrange t Ht)) as Hl.
    fold E in Hl. apply In_nth_error in Hl as (i & Hi).
    assert (Hic : In i cand).
    { apply (lf_candidates_spec Hf). exists (t, t). fold E. auto. }
    unfold candidate_sources. rewrite unique_In. unfold row0.
    rewrite map_map. apply in_map_iff. exists i. split; [|exact Hic].
    now rewrite (nth_error_nth _ _ (0, 0) Hi). }
  exists r. eexists. exists cand.
  split; [exact Hr|]. split; [exact (lf_candidates Hf)|].
  split; [exact Hin|].
  intros Hle. destruct (lf_selected_all Hf Hle) as [-> _]. exact Hin.
Qed.

Lemma X3_witness :
  __init__ path4 = ok path4_sampler
  /\ [2; 3] <> []
  /\ Forall (fun t => t < num_nodes path4) [2; 3]
  /\ (0 < 3)%Z
  /\ exists r w' cand,
       __sample_layer [2; 3] 3 (mkWorld path4_sampler (const_rng 0))
       = (ok r, w')
       /\ incl [2; 3]
            (candidate_sources
               (all_edge_index_with_self_loops path4_sampler) cand).
Proof.
  assert (H1 : [2; 3] <> []) by discriminate.
  assert (H2 : Forall (fun t => t < num_nodes path4) [2; 3]).
  { repeat constructor; vm_compute; lia. }
  assert (H3 : (0 < 3)%Z) by lia.
  repeat (split; [first [exact path4_init | assumption]|]).
  destruct (@X3_targets_are_candidate_sources path4 path4_sampler [2; 3]
              3%Z (const_rng 0) path4_init H1 H2 H3)
    as (r & w' & cand & Hr & _ & Hi & _).
  now exists r, w', cand.
Defined.

(** X4 -- the edge index a layer step returns: its source nodes are
    exactly the selected source nodes (every selected node keeps at least
    one edge) and its target nodes are among the targets of the call. *)
Theorem X4_returned_edges_span_the_selection
        (edge_index : EdgeIndex) (s : Sampler) (targets : LongTensor)
        (B : Z) (g : RNG) :
  __init__ edge_index = ok s ->
  targets <> [] -> Forall (fun t => t < num_nodes edge_index) targets ->
  (0 < B)%Z ->
  exists r w',
    __sample_layer targets B (mkWorld s g) = (ok r, w')
    /\ (forall n, In n (row0 (ls_edge_index r)) <->
                  In n (ls_selected_source_nodes r))
    /\ incl (row1 (ls_edge_index r)) targets.
Proof.
  intros Hinit Hne Hrange HB. apply init_inv in Hinit. subst s.
  destruct (@sample_layer_ok edge_index targets B g (conj Hne Hrange) HB)
    as (r & g' & cand & probs & raw & Hr & Hf).
  exists r. eexists. split; [exact Hr|]. split.
  - intros n. exact (facts_sources_eq Hf n).
  - exact (facts_targets_sub Hf).
Qed.

Lemma X4_witness :
  __init__ path4 = ok path4_sampler
  /\ [2; 3] <> []
  /\ Forall (fun t => t < num_nodes path4) [2; 3]
  /\ (0 < 2)%Z
  /\ exists r w',
       __sample_layer [2; 3] 2 (mkWorld path4_sampler (const_rng 0))
       = (ok r, w')
       /\ incl (row1 (ls_edge_index r)) [2; 3].
Proof.
  assert (H1 : [2; 3] <> []) by discriminate.
  assert (H2 : Forall (fun t => t < num_nodes path4) [2; 3]).
  { repeat constructor; vm_compute; lia. }
  assert (H3 : (0 < 2)%Z) by lia.
  repeat (split; [first [exact path4_init | assumption]|]).
  destruct (@X4_returned_edges_span_the_selection path4 path4_sampler
              [2; 3] 2%Z (const_rng 0) path4_init H1 H2 H3)
    as (r & w' & Hr & _ & Hi).
  now exists r, w'.
Defined.

(** X5 -- in every layer [sample] returns there is one weight per edge,
    and every weight is finite, positive and at most 1. *)
Theorem X5_returned_weights_in_unit_interval
        (edge_index : EdgeIndex) (s : Sampler) (top : LongTensor)
        (budgets : list Z) (g : RNG) :
  __init__ edge_index = ok s ->
  top <> [] -> Forall (fun t => t < num_nodes edge_index) top ->
  budgets <> [] -> Forall (fun b => (0 < b)%Z) budgets ->
  exists layers w',
    sample top budgets (mkWorld s g) = (ok layers, w')
    /\ forall l, In l layers ->
         exists ei ew,
           l = [VEdgeIndex ei; VFloatTensor ew]
           /\ length ew = length ei
           /\ Forall (fun x => exists q, x = Fin q
                                         /\ (0 < q)%Q /\ (q <= 1)%Q) ew.
Proof.
  intros Hinit Hne Hrange Hbne Hbpos. apply init_inv in Hinit. subst s.
  destruct (@sample_ok edge_index top budgets g (conj Hne Hrange) Hbne Hbpos)
    as (rs & g' & Hcalls & Hsample).
  eexists; eexists; split; [exact Hsample|].
  intros l Hl. apply in_rev in Hl. apply in_map_iff in Hl as (r & <- & Hr).
  destruct (@layer_calls_facts edge_index _ _ _ _ _ r Hcalls Hr)
    as (targets & B & g1 & g2 & cand & probs & raw & Hf).
  exists (ls_edge_index r), (ls_edge_weight r). split; [reflexivity|].
  assert (Hlen : length (ls_edge_weight r) = length (ls_edge_index r)).
  { rewrite (lf_weight_length Hf), (lf_edge_index Hf).
    now rewrite length_map. }
  split; [exact Hlen|].
  apply (@normalized_weights_unit (ls_edge_index r)); [exact Hlen| |].
  - exact (lf_weight_finpos Hf).
  - exact (lf_weight_sums Hf).
Qed.

Lemma X5_witness :
  __init__ path4 = ok path4_sampler
  /\ [3] <> []
  /\ Forall (fun t => t < num_nodes path4) [3]
  /\ [2; 2]%Z <> []
  /\ Forall (fun b => (0 < b)%Z) [2; 2]%Z
  /\ exists layers w',
       sample [3] [2; 2]%Z (mkWorld path4_sampler (const_rng 0))
       = (ok layers, w').
Proof.
  assert (H1 : [3] <> []) by discriminate.
  assert (H2 : Forall (fun t => t < num_nodes path4) [3]).
  { constructor; [vm_compute; lia|constructor]. }
  assert (H3 : [2; 2]%Z <> []) by discriminate.
  assert (H4 : Forall (fun b => (0 < b)%Z) [2; 2]%Z).
  { repeat constructor. }
  repeat (split; [first [exact path4_init | assumption]|]).
  destruct (@X5_returned_weights_in_unit_interval path4 path4_sampler [3]
              [2; 2]%Z (const_rng 0) path4_init H1 H2 H3 H4)
    as (layers & w' & Hs & _).
  now exists layers, w'.
Defined.

(** X6 -- the filter over the full edge set never selects an edge outside
    the candidate edges of the call: every selected edge index is a
    candidate edge index. *)
Theorem X6_selected_edges_are_candidates
        (edge_index : EdgeIndex) (s : Sampler) (targets : LongTensor)
        (B : Z) (g : RNG) :
  __init__ edge_index = ok s ->
  targets <> [] -> Forall (fun t => t < num_nodes edge_index) targets ->
  (0 < B)%Z ->
  exists r w' cand,
    __sample_layer targets B (mkWorld s g) = (ok r, w')
    /\ candidate_edge_indexes (all_edge_index_with_self_loops s) targets
       = ok cand
    /\ incl (ls_selected_edge_indexes r) cand.
Proof.
  intros Hinit Hne Hrange HB. apply init_inv in Hinit. subst s.
  cbn [all_edge_index_with_self_loops].
  destruct (@sample_layer_ok edge_index targets B g (conj Hne Hrange) HB)
    as (r & g' & cand & probs & raw & Hr & Hf).
  exists r. eexists. exists cand.
  split; [exact Hr|]. split; [exact (lf_candidates Hf)|].
  exact (facts_edges_candidates Hf).
Qed.

Lemma X6_witness :
  __init__ path4 = ok path4_sampler
  /\ [2; 3] <> []
  /\ Forall (fun t => t < num_nodes path4) [2; 3]
  /\ (0 < 2)%Z
  /\ exists r w' cand,
       __sample_layer [2; 3] 2 (mkWorld path4_sampler (const_rng 0))
       = (ok r, w')
       /\ incl (ls_selected_edge_indexes r) cand.
Proof.
  assert (H1 : [2; 3] <> []) by discriminate.
  assert (H2 : Forall (fun t => t < num_nodes path4) [2; 3]).
  { repeat constructor; vm_compute; lia. }
  assert (H3 : (0 < 2)%Z) by lia.
  repeat (split; [first [exact path4_init | assumption]|]).
  destruct (@X6_selected_edges_are_candidates path4 path4_sampler
              [2; 3] 2%Z (const_rng 0) path4_init H1 H2 H3)
    as (r & w' & cand & Hr & _ & Hi).
  now exists r, w', cand.
Defined.

Section BudgetEdgeCases.

(** A negative size makes the draw fail with numpy's [ValueError], whatever
    the probabilities, and the random source is not consumed. *)
Lemma np_random_choice_negative (n : nat) (size : Z) (p : FloatTensor)
      (g : RNG) :
  (size < 0)%Z -> np_random_choice n size p g = (raise ValueError, g).
Proof.
  intros Hs. unfold np_random_choice.
  destruct ((n =? 0) && negb (size =? 0)%Z); [reflexivity|].
  destruct (negb (length p =? n)); [reflexivity|].
  assert (Hlt : (size <? 0)%Z = true) by now apply Z.ltb_lt.
  destruct (fsum p) as [q| | |]; try reflexivity;
    destruct (existsb is_negative p); try reflexivity.
  destruct (negb (Qeq_bool q 1)); [reflexivity|]. now rewrite Hlt.
Qed.

(** With no selected source node the rest of the layer step fails in
    [torch.cat]. *)
Lemma finish_layer_no_selection (E : EdgeIndex) (W : FloatTensor)
      (targets srcs : LongTensor) (probs : FloatTensor) :
  finish_layer E W targets srcs probs [] = raise RuntimeError.
Proof. reflexivity. Qed.

Lemma world_eta (w : World) : mkWorld (self w) (np_random w) = w.
Proof. now destruct w. Qed.

Lemma select_negative (srcs : LongTensor) (probs : FloatTensor) (B : Z)
      (w : World) :
  (B < 0)%Z ->
  select_source_nodes srcs probs B w = (raise ValueError, w).
Proof.
  intros HB. unfold select_source_nodes.
  assert (Hb : (B <? Z.of_nat (length srcs))%Z = true)
    by (apply Z.ltb_lt; lia).
  rewrite Hb. unfold bind, with_rng.
  rewrite np_random_choice_negative by exact HB.
  cbv beta iota. now rewrite world_eta.
Qed.

Lemma layer_negative_budget (edge_index : EdgeIndex) (s : Sampler)
      (targets : LongTensor) (B : Z) (g : RNG) :
  __init__ edge_index = ok s ->
  targets <> [] -> Forall (fun t => t < num_nodes edge_index) targets ->
  (B < 0)%Z ->
  __sample_layer targets B (mkWorld s g) = (raise ValueError, mkWorld s g).
Proof.
  intros Hinit Hne Hrange HB. apply init_inv in Hinit. subst s.
  destruct (@candidate_stage edge_index targets (conj Hne Hrange))
    as (cand & probs & Hc & _ & Hp & _ & _ & Hpl & _).
  rewrite sample_layer_stages. cbv zeta.
  cbn [self all_edge_index_with_self_loops all_edge_weights].
  rewrite Hc. unfold ok at 1. cbv beta iota.
  rewrite Hp. unfold ok at 1. cbv beta iota.
  rewrite Hpl, Nat.eqb_refl.
  now rewrite select_negative.
Qed.

Lemma layer_zero_budget (edge_index : EdgeIndex) (s : Sampler)
      (targets : LongTensor) (g : RNG) :
  __init__ edge_index = ok s ->
  targets <> [] -> Forall (fun t => t < num_nodes edge_index) targets ->
  exists w',
    __sample_layer targets 0 (mkWorld s g) = (raise RuntimeError, w').
Proof.
  intros Hinit Hne Hrange. apply init_inv in Hinit. subst s.
  destruct (@candidate_stage edge_index targets (conj Hne Hrange))
    as (cand & probs & Hc & _ & Hp & Hsne & _ & Hpl & Hpp & Hps & _).
  assert (Hnn : Forall finnonneg probs).
  { eapply Forall_impl; [|exact Hpp].
    intros [q| | |]; simpl; try tauto. intros; lra. }
  set (w := mkWorld
              (mkSampler (add_remaining_self_loops edge_index)
                 (map (fun e => Fin (edge_weight
                                       (add_remaining_self_loops edge_index) e))
                      (add_remaining_self_loops edge_index))) g).
  destruct (@select_drawn _ probs Hpl Hnn Hps 0%Z w)
    as (draws & _ & Hdl & _ & Hsel).
  { split; [lia|].
    destruct (candidate_sources (add_remaining_self_loops edge_index) cand);
      [congruence|simpl; lia]. }
  assert (Hd : draws = []) by (destruct draws; [reflexivity|discriminate]).
  subst draws. cbn [unique fold_right map] in Hsel.
  subst w. cbn [self np_random] in Hsel.
  eexists.
  rewrite sample_layer_stages. cbv zeta.
  cbn [self all_edge_index_with_self_loops all_edge_weights].
  rewrite Hc. unfold ok at 1. cbv beta iota.
  rewrite Hp. unfold ok at 1. cbv beta iota.
  rewrite Hpl, Nat.eqb_refl. rewrite Hsel.
  unfold ok at 1. cbv beta iota.
  rewrite finish_layer_no_selection. reflexivity.
Qed.

End BudgetEdgeCases.

(** X21 -- an empty target tensor, for any sampler object and any budget.
    The sampler has no check of its own for it: the layer step fails in
    its first statement, [torch.cat] of no tensor, with the error torch
    raises there (a [RuntimeError] or a [ValueError], by the version of
    torch).  No probability is computed, the random source is not
    consulted and the sampler is unchanged; [sample] on an empty tensor of
    top-layer targets fails in the same way at its first layer. *)
Theorem X21_empty_targets_fail_in_first_statement
        (s : Sampler) (B : Z) (g : RNG) :
  exists e,
    (e = RuntimeError \/ e = ValueError)
    /\ candidate_edge_indexes (all_edge_index_with_self_loops s) [] = raise e
    /\ __sample_layer [] B (mkWorld s g) = (raise e, mkWorld s g)
    /\ forall budgets,
         budgets <> [] ->
         sample [] budgets (mkWorld s g) = (raise e, mkWorld s g).
Proof.
  exists RuntimeError. split; [now left|].
  split; [apply (empty_targets_fail_in_cat s B g)|].
  split; [apply (empty_targets_fail_in_cat s B g)|].
  intros budgets Hne. unfold sample.
  assert (Hlen : (length budgets =? 0) = false).
  { destruct budgets; [congruence|reflexivity]. }
  rewrite Hlen.
  destruct (rev budgets) as [|b rest] eqn:Er.
  { apply (f_equal (@length Z)) in Er. rewrite length_rev in Er.
    destruct budgets; [congruence|discriminate]. }
  unfold bind at 1. cbn [sample_loop]. unfold bind at 1.
  now rewrite (proj2 (empty_targets_fail_in_cat s b g)).
Qed.

(** X7 -- budgets that are not positive, on a non-empty tensor of target
    nodes of the graph: with budget 0 nothing is drawn, no source node is
    selected and the layer step fails in [torch.cat] of no tensor, with the
    error torch raises there (a [RuntimeError] or a [ValueError], by the
    version of torch); with a negative budget [np.random.choice] refuses
    the size with a [ValueError] and neither the sampler nor the random
    source changes. *)
Theorem X7_layer_step_with_non_positive_budget
        (edge_index : EdgeIndex) (s : Sampler) (targets : LongTensor)
        (B : Z) (g : RNG) :
  __init__ edge_index = ok s ->
  targets <> [] -> Forall (fun t => t < num_nodes edge_index) targets ->
  (B <= 0)%Z ->
  (B = 0%Z ->
   exists e,
     fst (__sample_layer targets B (mkWorld s g)) = raise e
     /\ (e = RuntimeError \/ e = ValueError))
  /\ ((B < 0)%Z ->
      __sample_layer targets B (mkWorld s g)
      = (raise ValueError, mkWorld s g)).
Proof.
  intros Hinit Hne Hrange HB. split.
  - intros ->.
    destruct (@layer_zero_budget edge_index s targets g Hinit Hne Hrange)
      as (w' & Hw).
    exists RuntimeError. rewrite Hw. split; [reflexivity|now left].
  - intros Hlt. now apply (@layer_negative_budget edge_index).
Qed.

Lemma X7_witness :
  __init__ path4 = ok path4_sampler
  /\ [3] <> []
  /\ Forall (fun t => t < num_nodes path4) [3]
  /\ (0 <= 0)%Z
  /\ exists e,
       fst (__sample_layer [3] 0 (mkWorld path4_sampler (const_rng 0)))
       = raise e
       /\ (e = RuntimeError \/ e = ValueError).
Proof.
  assert (H1 : [3] <> []) by discriminate.
  assert (H2 : Forall (fun t => t < num_nodes path4) [3]).
  { constructor; [vm_compute; lia|constructor]. }
  assert (H3 : (0 <= 0)%Z) by lia.
  repeat (split; [first [exact path4_init | assumption]|]).
  exact (proj1 (@X7_layer_step_with_non_positive_budget path4 path4_sampler
                  [3] 0%Z (const_rng 0) path4_init H1 H2 H3) eq_refl).
Defined.

Lemma sample_loop_fails (edge_index : EdgeIndex) (s : Sampler)
      (bs : list Z) :
  __init__ edge_index = ok s ->
  Exists (fun b => (b <= 0)%Z) bs ->
  forall upper layers g,
    upper <> [] -> Forall (fun t => t < num_nodes edge_index) upper ->
    exists e w',
      sample_loop bs upper layers (mkWorld s g) = (inl e, w')
      /\ (e = RuntimeError \/ e = ValueError).
Proof.
  intros Hinit. induction bs as [|b bs IH]; intros Hex upper layers g Hne Hr.
  - inversion Hex.
  - cbn [sample_loop]. unfold bind.
    destruct (Z_le_gt_dec b 0) as [Hle|Hgt].
    + destruct (Z.eq_dec b 0) as [->|Hnz].
      * destruct (@layer_zero_budget edge_index s upper g Hinit Hne Hr)
          as (w' & Hw).
        rewrite Hw. exists RuntimeError, w'. split; [reflexivity|auto].
      * rewrite (@layer_negative_budget edge_index s upper b g Hinit Hne Hr)
          by lia.
        exists ValueError. eexists. split; [reflexivity|auto].
    + assert (Hex' : Exists (fun b => (b <= 0)%Z) bs).
      { inversion Hex; subst; [lia|assumption]. }
      pose proof (@init_inv edge_index s Hinit) as Hs.
      destruct (@sample_layer_ok edge_index upper b g (conj Hne Hr))
        as (r & g1 & cand & probs & raw & Hlayer & Hf); [lia|].
      rewrite <- Hs in Hlayer. rewrite Hlayer.
      unfold ok at 1. cbv beta iota zeta.
      destruct (lf_next Hf) as [Hne' Hr'].
      apply IH; assumption.
Qed.

(** X8 -- [sample] on a non-empty tensor of target nodes of the graph
    raises as soon as one budget is zero or negative: it returns no layer,
    and the error is torch's (zero budget) or numpy's [ValueError]
    (negative budget), whichever the loop meets first. *)
Theorem X8_sample_raises_on_non_positive_budget
        (edge_index : EdgeIndex) (s : Sampler) (top : LongTensor)
        (budgets : list Z) (g : RNG) :
  __init__ edge_index = ok s ->
  top <> [] -> Forall (fun t => t < num_nodes edge_index) top ->
  Exists (fun b => (b <= 0)%Z) budgets ->
  exists e w',
    sample top budgets (mkWorld s g) = (inl e, w')
    /\ (e = RuntimeError \/ e = ValueError).
Proof.
  intros Hinit Hne Hrange Hex.
  destruct (@sample_loop_fails edge_index s (rev budgets) Hinit
              (Exists_rev Hex) top [] g Hne Hrange)
    as (e & w' & Hloop & He).
  exists e, w'. split; [|exact He].
  unfold sample.
  assert (Hl : (length budgets =? 0) = false).
  { apply Nat.eqb_neq. destruct budgets; [inversion Hex|discriminate]. }
  rewrite Hl. unfold bind. now rewrite Hloop.
Qed.

Lemma X8_witness :
  __init__ path4 = ok path4_sampler
  /\ [3] <> []
  /\ Forall (fun t => t < num_nodes path4) [3]
  /\ Exists (fun b => (b <= 0)%Z) [0; 2]%Z
  /\ exists e w',
       sample [3] [0; 2]%Z (mkWorld path4_sampler (const_rng 0))
       = (inl e, w').
Proof.
  assert (H1 : [3] <> []) by discriminate.
  assert (H2 : Forall (fun t => t < num_nodes path4) [3]).
  { constructor; [vm_compute; lia|constructor]. }
  assert (H3 : Exists (fun b => (b <= 0)%Z) [0; 2]%Z).
  { constructor. lia. }
  repeat (split; [first [exact path4_init | assumption]|]).
  destruct (@X8_sample_raises_on_non_positive_budget path4 path4_sampler
              [3] [0; 2]%Z (const_rng 0) path4_init H1 H2 H3)
    as (e & w' & Hs & _).
  now exists e, w'.
Defined.

Lemma no_candidate_edges (E : EdgeIndex) (targets : LongTensor) :
  targets <> [] ->
  (forall e, In e E -> ~ In (snd e) targets) ->
  candidate_edge_indexes E targets = ok [].
Proof.
  intros Hne Hnone.
  destruct (@candidate_edge_indexes_ok E targets Hne) as (cand & Hc & _ & Hin).
  destruct cand as [|i cand]; [exact Hc|].
  exfalso. destruct (proj1 (Hin i) (or_introl eq_refl)) as (e & He & Ht).
  apply (Hnone e); [eapply nth_error_In; eauto|exact Ht].
Qed.

(** X9 -- for any sampler object: when no stored edge points to a node of
    the (non-empty) target tensor, e.g. when every target lies outside the
    graph, the layer step raises and changes nothing: the candidates and
    the selection are empty, so for a budget of at least 0 [torch.cat]
    fails on no tensor, with the error torch raises there (a
    [RuntimeError] or a [ValueError], by the version of torch), and
    [np.random.choice] refuses a negative budget with a [ValueError]. *)
Theorem X9_layer_step_without_edge_into_targets
        (s : Sampler) (targets : LongTensor) (B : Z) (g : RNG) :
  targets <> [] ->
  (forall e, In e (all_edge_index_with_self_loops s) ->
             ~ In (snd e) targets) ->
  ((0 <= B)%Z ->
   exists e,
     __sample_layer targets B (mkWorld s g) = (raise e, mkWorld s g)
     /\ (e = RuntimeError \/ e = ValueError))
  /\ ((B < 0)%Z ->
      __sample_layer targets B (mkWorld s g)
      = (raise ValueError, mkWorld s g)).
Proof.
  intros Hne Hnone.
  pose proof (@no_candidate_edges _ targets Hne Hnone) as Hc.
  assert (Hp : forall W,
             _Utility.get_candidate_source_nodes_probabilities
               [] (all_edge_index_with_self_loops s) W = ok ([], []))
    by reflexivity.
  split; intros HB; [exists RuntimeError; split; [|now left]|];
    rewrite sample_layer_stages; cbv zeta;
    cbn [self]; rewrite Hc; unfold ok at 1; cbv beta iota;
    rewrite Hp; unfold ok at 1; cbv beta iota; cbn [length Nat.eqb].
  - rewrite select_all by (simpl; lia).
    unfold ok at 1. cbv beta iota.
    now rewrite finish_layer_no_selection.
  - now rewrite select_negative.
Qed.

Lemma X9_witness :
  [7] <> []
  /\ (forall e, In e (all_edge_index_with_self_loops path4_sampler) ->
                ~ In (snd e) [7])
  /\ exists e,
       __sample_layer [7] 2 (mkWorld path4_sampler (const_rng 0))
       = (raise e, mkWorld path4_sampler (const_rng 0))
       /\ (e = RuntimeError \/ e = ValueError).
Proof.
  assert (H1 : [7] <> []) by discriminate.
  assert (H2 : forall e, In e (all_edge_index_with_self_loops path4_sampler)
                         -> ~ In (snd e) [7]).
  { intros e He [Hs|[]]. simpl in He.
    repeat (destruct He as [<-|He]; [discriminate|]). exact He. }
  split; [exact H1|]. split; [exact H2|].
  apply (proj1 (@X9_layer_step_without_edge_into_targets path4_sampler [7]
                  2%Z (const_rng 0) H1 H2)).
  lia.
Defined.

Section FullSelection.

Lemma bounded_NoDup_length (l : LongTensor) (N : nat) :
  NoDup l -> Forall (fun n => n < N) l -> length l <= N.
Proof.
  intros Hnd Hb.
  assert (Hi : incl l (seq 0 N)).
  { intros n Hn. rewrite Forall_forall in Hb. apply in_seq.
    specialize (Hb n Hn). lia. }
  pose proof (@NoDup_incl_length nat l (seq 0 N) Hnd Hi) as H.
  now rewrite length_seq in H.
Qed.

(** With a budget of at least the number of nodes the layer step selects
    every candidate and never looks at the random source. *)
Lemma sample_layer_all (edge_index : EdgeIndex) (s : Sampler)
      (targets : LongTensor) (B : Z) :
  __init__ edge_index = ok s ->
  targets <> [] -> Forall (fun t => t < num_nodes edge_index) targets ->
  (Z.of_nat (num_nodes edge_index) <= B)%Z ->
  exists r,
    (forall g, __sample_layer targets B (mkWorld s g) = (ok r, mkWorld s g))
    /\ ls_selected_source_nodes r <> []
    /\ Forall (fun t => t < num_nodes edge_index)
              (ls_selected_source_nodes r).
Proof.
  intros Hinit Hne Hrange HB. apply init_inv in Hinit. subst s.
  pose proof (conj Hne Hrange : targets_ok edge_index targets) as Ht.
  destruct (candidate_stage Ht)
    as (cand & probs & Hc & Hcs & Hp & Hsne & Hsr & Hpl & Hpp & Hps & Hpv).
  set (E := add_remaining_self_loops edge_index) in *.
  set (srcs := candidate_sources E cand) in *.
  assert (Hlen : length srcs <= num_nodes edge_index).
  { apply bounded_NoDup_length; [apply unique_NoDup|exact Hsr]. }
  destruct (@finish_stage edge_index targets Ht cand probs srcs Hpl
              (fun n Hn => proj2 (Hpv n Hn)) Hsne (incl_refl _))
    as (filtered & raw & norm & _ & _ & _ & _ & _ & _ & _ & _ & _ & _
        & Hfinish).
  exists (mkLayerSample (map (fun i => nth i E (0, 0)) filtered) norm srcs
                        filtered).
  split; [|split; [exact Hsne|exact Hsr]].
  intros g. rewrite sample_layer_stages. cbv zeta.
  cbn [self all_edge_index_with_self_loops all_edge_weights].
  fold E. rewrite Hc. unfold ok at 1. cbv beta iota.
  rewrite Hp. unfold ok at 1. cbv beta iota.
  fold srcs. rewrite Hpl, Nat.eqb_refl.
  rewrite select_all by lia.
  unfold ok at 1. cbv beta iota.
  fold E srcs in Hfinish. rewrite Hfinish. reflexivity.
Qed.

Lemma sample_loop_all (edge_index : EdgeIndex) (s : Sampler) (bs : list Z) :
  __init__ edge_index = ok s ->
  Forall (fun b => (Z.of_nat (num_nodes edge_index) <= b)%Z) bs ->
  forall upper layers,
    upper <> [] -> Forall (fun t => t < num_nodes edge_index) upper ->
    exists out,
      forall g,
        sample_loop bs upper layers (mkWorld s g) = (ok out, mkWorld s g).
Proof.
  intros Hinit. induction 1 as [|b bs Hb Hbs IH]; intros upper layers Hne Hr.
  - exists layers. reflexivity.
  - destruct (@sample_layer_all edge_index s upper b Hinit Hne Hr Hb)
      as (r & Hlayer & Hne' & Hr').
    destruct (IH (ls_selected_source_nodes r)
                 (layers ++ [[VEdgeIndex (ls_edge_index r);
                              VFloatTensor (ls_edge_weight r)]]) Hne' Hr')
      as (out & Hout).
    exists out. intros g. cbn [sample_loop]. unfold bind.
    rewrite Hlayer. unfold ok at 1. cbv beta iota zeta. apply Hout.
Qed.

End FullSelection.

(** X10 -- when every budget is at least the number of nodes of the graph,
    [sample] involves no randomness: it returns the same layers whatever
    the random source, and leaves the random source as it found it. *)
Theorem X10_sample_without_randomness
        (edge_index : EdgeIndex) (s : Sampler) (top : LongTensor)
        (budgets : list Z) :
  __init__ edge_index = ok s ->
  top <> [] -> Forall (fun t => t < num_nodes edge_index) top ->
  budgets <> [] ->
  Forall (fun b => (Z.of_nat (num_nodes edge_index) <= b)%Z) budgets ->
  exists layers,
    forall g, sample top budgets (mkWorld s g) = (ok layers, mkWorld s g).
Proof.
  intros Hinit Hne Hrange Hbne Hb.
  destruct (@sample_loop_all edge_index s (rev budgets) Hinit
              (Forall_rev Hb) top [] Hne Hrange) as (out & Hout).
  exists (rev out). intros g. unfold sample.
  assert (Hl : (length budgets =? 0) = false).
  { apply Nat.eqb_neq. destruct budgets; [congruence|discriminate]. }
  rewrite Hl. unfold bind. now rewrite Hout.
Qed.

Lemma X10_witness :
  __init__ path4 = ok path4_sampler
  /\ [3] <> []
  /\ Forall (fun t => t < num_nodes path4) [3]
  /\ [4; 4]%Z <> []
  /\ Forall (fun b => (Z.of_nat (num_nodes path4) <= b)%Z) [4; 4]%Z
  /\ exists layers,
       forall g,
         sample [3] [4; 4]%Z (mkWorld path4_sampler g)
         = (ok layers, mkWorld path4_sampler g).
Proof.
  assert (H1 : [3] <> []) by discriminate.
  assert (H2 : Forall (fun t => t < num_nodes path4) [3]).
  { constructor; [vm_compute; lia|constructor]. }
  assert (H3 : [4; 4]%Z <> []) by discriminate.
  assert (H4 : Forall (fun b => (Z.of_nat (num_nodes path4) <= b)%Z)
                      [4; 4]%Z).
  { repeat constructor; vm_compute; discriminate. }
  repeat (split; [first [exact path4_init | assumption]|]).
  exact (@X10_sample_without_randomness path4 path4_sampler [3] [4; 4]%Z
           path4_init H1 H2 H3 H4).
Defined.

Section RandomSourceUse.

Lemma advanced_by_refl (k : nat) (g : RNG) : advanced_by k g g.
Proof. unfold advanced_by. split; [reflexivity|lia]. Qed.

Lemma advanced_by_trans (k1 k2 : nat) (g1 g2 g3 : RNG) :
  advanced_by k1 g1 g2 -> advanced_by k2 g2 g3 ->
  advanced_by (k1 + k2) g1 g3.
Proof.
  unfold advanced_by. intros [R1 C1] [R2 C2]. split; [congruence|lia].
Qed.

Lemma np_random_choice_rng (n : nat) (size : Z) (p : FloatTensor) (g : RNG) :
  advanced_by (Z.to_nat size) g (snd (np_random_choice n size p g)).
Proof.
  unfold np_random_choice.
  destruct ((n =? 0) && negb (size =? 0)%Z); [apply advanced_by_refl|].
  destruct (negb (length p =? n)); [apply advanced_by_refl|].
  destruct (fsum p) as [q| | |]; try apply advanced_by_refl;
    destruct (existsb is_negative p); try apply advanced_by_refl.
  destruct (negb (Qeq_bool q 1)); [apply advanced_by_refl|].
  destruct (size <? 0)%Z; [apply advanced_by_refl|].
  unfold random_sample, advanced_by. cbn [snd raw cursor].
  split; [reflexivity|lia].
Qed.

Lemma select_source_nodes_rng (srcs : LongTensor) (probs : FloatTensor)
      (B : Z) (w : World) :
  advanced_by (Z.to_nat B) (np_random w)
              (np_random (snd (select_source_nodes srcs probs B w))).
Proof.
  unfold select_source_nodes.
  destruct (B <? Z.of_nat (length srcs))%Z; [|apply advanced_by_refl].
  unfold bind, with_rng, lift, ret.
  pose proof (np_random_choice_rng (length srcs) B probs (np_random w)) as H.
  destruct (np_random_choice (length srcs) B probs (np_random w))
    as [[e|draws] g']; cbn [snd] in H; [exact H|].
  destruct (gather srcs (unique (unique draws))); exact H.
Qed.

Lemma sample_layer_rng (targets : LongTensor) (B : Z) (w : World) :
  advanced_by (Z.to_nat B) (np_random w)
              (np_random (snd (__sample_layer targets B w))).
Proof.
  rewrite sample_layer_stages. cbv zeta.
  destruct (candidate_edge_indexes _ targets) as [e|cand];
    [apply advanced_by_refl|].
  destruct (_Utility.get_candidate_source_nodes_probabilities _ _ _)
    as [e|[srcs probs]]; [apply advanced_by_refl|].
  destruct (length srcs =? length probs); [|apply advanced_by_refl].
  pose proof (select_source_nodes_rng srcs probs B w) as H.
  destruct (select_source_nodes srcs probs B w) as [[e|sel] w']; exact H.
Qed.

Lemma sample_loop_rng (bs : list Z) :
  forall upper layers w,
    advanced_by (list_sum (map Z.to_nat bs)) (np_random w)
                (np_random (snd (sample_loop bs upper layers w))).
Proof.
  induction bs as [|b bs IH]; intros upper layers w.
  - apply advanced_by_refl.
  - cbn [sample_loop map list_sum fold_right]. unfold bind.
    pose proof (sample_layer_rng upper b w) as H.
    destruct (__sample_layer upper b w) as [[e|r] w']; cbn [snd] in H.
    + destruct H as [R C]. split; [exact R|]. cbn [snd]. lia.
    + eapply advanced_by_trans; [exact H|apply IH].
Qed.

End RandomSourceUse.

(** X11 -- whatever the sampler object and the arguments, and whether it
    returns or raises, [sample] only reads the random source forward: the
    stream of raw outputs is the same afterwards, the position never moves
    back, and at most the sum of the (non-negative) budgets is consumed. *)
Theorem X11_sample_consumes_at_most_the_budgets
        (s : Sampler) (top : LongTensor) (budgets : list Z) (g : RNG) :
  advanced_by (list_sum (map Z.to_nat budgets)) g
              (np_random (snd (sample top budgets (mkWorld s g)))).
Proof.
  unfold sample. destruct (length budgets =? 0); [apply advanced_by_refl|].
  unfold bind.
  pose proof (sample_loop_rng (rev budgets) top [] (mkWorld s g)) as H.
  assert (Hsum : list_sum (map Z.to_nat (rev budgets))
                 = list_sum (map Z.to_nat budgets)).
  { rewrite map_rev. clear. induction (map Z.to_nat budgets) as [|x l IH];
      [reflexivity|].
    simpl. rewrite list_sum_app. simpl. lia. }
  rewrite Hsum in H. cbn [np_random] in H.
  destruct (sample_loop (rev budgets) top [] (mkWorld s g))
    as [[e|layers] w']; exact H.
Qed.

Section LayerChain.

Variable edge_index : EdgeIndex.

(** In the order of the calls: the first call's edges point to the initial
    targets, and each later call's edges point to sources of the edges of
    the call before it. *)
Lemma layer_calls_chain (bs : list Z) :
  forall upper g rs g',
    layer_calls edge_index upper bs g rs g' ->
    (forall r rest, rs = r :: rest -> incl (row1 (ls_edge_index r)) upper)
    /\ (forall a r1 r2 b, rs = a ++ r1 :: r2 :: b ->
          incl (row1 (ls_edge_index r2)) (row0 (ls_edge_index r1))).
Proof.
  induction bs as [|b0 bs IH]; intros upper g [|r0 rs] g' H;
    simpl in H; try contradiction.
  - split.
    + intros r rest [=].
    + intros [|x a] r1 r2 b [=].
  - destruct H as (g1 & cand & probs & raw & _ & Hf & Hrest).
    destruct (IH _ _ _ _ Hrest) as [Hhead Hadj].
    split.
    + intros r rest [= <- <-]. exact (facts_targets_sub Hf).
    + intros [|x a] r1 r2 b Heq.
      * simpl in Heq. injection Heq as <- Hrs.
        intros t Ht. apply (facts_sources_eq Hf).
        exact (Hhead r2 b Hrs t Ht).
      * simpl in Heq. injection Heq as _ Hrs.
        exact (Hadj a r1 r2 b Hrs).
Qed.

End LayerChain.

(** X12 -- the layers [sample] returns fit together: the targets of the
    edges of a layer are among the sources of the edges of the next layer
    of the returned sequence, and the targets of the edges of the last
    layer are among the target nodes the call was given. *)
Theorem X12_returned_layers_chain
        (edge_index : EdgeIndex) (s : Sampler) (top : LongTensor)
        (budgets : list Z) (g : RNG) :
  __init__ edge_index = ok s ->
  top <> [] -> Forall (fun t => t < num_nodes edge_index) top ->
  budgets <> [] -> Forall (fun b => (0 < b)%Z) budgets ->
  exists layers w',
    sample top budgets (mkWorld s g) = (ok layers, w')
    /\ (forall pre post ei1 ew1 ei2 ew2,
          layers = pre ++ [VEdgeIndex ei1; VFloatTensor ew1]
                       :: [VEdgeIndex ei2; VFloatTensor ew2] :: post ->
          incl (row1 ei1) (row0 ei2))
    /\ (forall pre ei ew,
          layers = pre ++ [[VEdgeIndex ei; VFloatTensor ew]] ->
          incl (row1 ei) top).
Proof.
  intros Hinit Hne Hrange Hbne Hbpos. apply init_inv in Hinit. subst s.
  destruct (@sample_ok edge_index top budgets g (conj Hne Hrange) Hbne Hbpos)
    as (rs & g' & Hcalls & Hsample).
  destruct (@layer_calls_chain edge_index _ _ _ _ _ Hcalls) as [Hhead Hadj].
  eexists; eexists; split; [exact Hsample|]. split.
  - intros pre post ei1 ew1 ei2 ew2 Heq.
    apply rev_eq_app in Heq. cbn [rev] in Heq.
    rewrite <- !app_assoc in Heq. cbn [app] in Heq.
    apply map_eq_app in Heq as (a & rest & -> & _ & Hrest).
    apply map_eq_cons in Hrest as (r2 & rest2 & -> & H2 & Hrest2).
    apply map_eq_cons in Hrest2 as (r1 & c & -> & H1 & _).
    unfold layer_pair in H1, H2.
    injection H1 as <- _. injection H2 as <- _.
    exact (Hadj a r2 r1 c eq_refl).
  - intros pre ei ew Heq.
    apply rev_eq_app in Heq. cbn [rev app] in Heq.
    apply map_eq_cons in Heq as (r & rest & -> & H1 & _).
    unfold layer_pair in H1. injection H1 as <- _.
    exact (Hhead r rest eq_refl).
Qed.

Lemma X12_witness :
  __init__ path4 = ok path4_sampler
  /\ [3] <> []
  /\ Forall (fun t => t < num_nodes path4) [3]
  /\ [2; 2]%Z <> []
  /\ Forall (fun b => (0 < b)%Z) [2; 2]%Z
  /\ exists layers w',
       sample [3] [2; 2]%Z (mkWorld path4_sampler (const_rng 0))
       = (ok layers, w')
       /\ (forall pre ei ew,
             layers = pre ++ [[VEdgeIndex ei; VFloatTensor ew]] ->
             incl (row1 ei) [3]).
Proof.
  assert (H1 : [3] <> []) by discriminate.
  assert (H2 : Forall (fun t => t < num_nodes path4) [3]).
  { constructor; [vm_compute; lia|constructor]. }
  assert (H3 : [2; 2]%Z <> []) by discriminate.
  assert (H4 : Forall (fun b => (0 < b)%Z) [2; 2]%Z).
  { repeat constructor. }
  repeat (split; [first [exact path4_init | assumption]|]).
  destruct (@X12_returned_layers_chain path4 path4_sampler [3]
              [2; 2]%Z (const_rng 0) path4_init H1 H2 H3 H4)
    as (layers & w' & Hs & _ & Hlast).
  now exists layers, w'.
Defined.

(* ================================================================== *)
(** * Further properties of the dataset utilities *)

Section MaskRoundTrip.

Lemma sorted_same_members (l1 : list nat) :
  forall l2,
    StronglySorted lt l1 -> StronglySorted lt l2 ->
    (forall x, In x l1 <-> In x l2) -> l1 = l2.
Proof.
  induction l1 as [|a l1 IH]; intros [|b l2] H1 H2 Hm.
  - reflexivity.
  - exfalso. apply (proj2 (Hm b)). now left.
  - exfalso. apply (proj1 (Hm a)). now left.
  - inversion H1 as [|? ? S1 F1]; subst. inversion H2 as [|? ? S2 F2]; subst.
    rewrite Forall_forall in F1, F2.
    assert (Hab : a = b).
    { destruct (proj1 (Hm a) (or_introl eq_refl)) as [E|Ha]; [now subst|].
      destruct (proj2 (Hm b) (or_introl eq_refl)) as [E|Hb]; [now subst|].
      specialize (F2 a Ha). specialize (F1 b Hb). lia. }
    subst b. f_equal. apply IH; try assumption.
    intros x. split; intros Hx.
    + destruct (proj1 (Hm x) (or_intror Hx)) as [E|Hx']; [|exact Hx'].
      subst x. specialize (F1 a Hx). lia.
    + destruct (proj2 (Hm x) (or_intror Hx)) as [E|Hx']; [|exact Hx'].
      subst x. specialize (F2 a Hx). lia.
Qed.

Lemma index_fill_true_error (idx : LongTensor) :
  forall m,
    Exists (fun i => length m <= i) idx ->
    index_fill_true m idx = raise IndexError.
Proof.
  induction idx as [|i idx IH]; intros m Hex; [inversion Hex|].
  cbn [index_fill_true].
  destruct (i <? length m) eqn:Hi.
  - apply IH. rewrite set_true_length.
    inversion Hex as [? ? H|? ? H]; subst; [|exact H].
    apply Nat.ltb_lt in Hi. lia.
  - reflexivity.
Qed.

Lemma mask_positions (m : BoolTensor) (i : nat) :
  nth_error m i = Some true <-> nth i m false = true.
Proof.
  split.
  - intros H. now apply nth_error_nth.
  - intros H.
    assert (Hlt : i < length m).
    { destruct (Nat.lt_ge_cases i (length m)) as [|Hge]; [assumption|].
      rewrite nth_overflow in H by exact Hge. discriminate. }
    rewrite (nth_error_nth' m false Hlt). now rewrite H.
Qed.

Lemma where_true_of_mask (m : BoolTensor) (index : LongTensor) :
  (forall i, nth i m false = true <-> In i index) ->
  where_true m = unique index.
Proof.
  intros H. apply sorted_same_members.
  - apply where_true_sorted.
  - apply unique_sorted.
  - intros x. now rewrite where_true_In, mask_positions, H, unique_In.
Qed.

End MaskRoundTrip.

(** X13 -- [index_to_mask]: when every index is below [size] the mask has
    [size] entries and its true positions, read back in order, are the
    distinct indexes in increasing order (repeated indexes count once);
    when some index is [size] or more the call raises [IndexError]. *)
Theorem X13_index_to_mask_round_trip (index : LongTensor) (size : nat) :
  if forallb (fun i => i <? size) index
  then exists m, index_to_mask index size = ok m
                 /\ length m = size
                 /\ where_true m = unique index
  else index_to_mask index size = raise IndexError.
Proof.
  destruct (forallb (fun i => i <? size) index) eqn:Hall.
  - assert (Hf : Forall (fun i => i < size) index).
    { apply Forall_forall. intros i Hi.
      rewrite forallb_forall in Hall. now apply Nat.ltb_lt, Hall. }
    destruct (index_to_mask_ok Hf) as (m & Hm & Hl & Hn).
    exists m. split; [exact Hm|]. split; [exact Hl|].
    now apply where_true_of_mask.
  - unfold index_to_mask. apply index_fill_true_error.
    rewrite zeros_bool_length.
    apply Exists_exists.
    assert (Hn : ~ Forall (fun i => i < size) index).
    { intros Hf. rewrite Forall_forall in Hf.
      assert (forallb (fun i => i <? size) index = true).
      { apply forallb_forall. intros i Hi. now apply Nat.ltb_lt, Hf. }
      congruence. }
    apply neg_Forall_Exists_neg in Hn.
    + apply Exists_exists in Hn as (i & Hi & Hlt). exists i. split; [exact Hi|lia].
    + intros i. destruct (lt_dec i size); [left|right]; assumption.
Qed.

Section SplitsInDetail.

Lemma slice_incl {A} (l : list A) (start stop : option Z) :
  incl (slice l start stop) l.
Proof.
  unfold slice. intros x Hx.
  set (a := match start with
            | Some i => slice_index (length l) i
            | None => 0
            end) in *.
  set (b := match stop with
            | Some i => slice_index (length l) i
            | None => length l
            end) in *.
  rewrite <- (firstn_skipn a l). apply in_or_app. right.
  rewrite <- (firstn_skipn (b - a) (skipn a l)). apply in_or_app. now left.
Qed.

Variable manual_seed : Z -> RNG.




End SplitsInDetail.



Section SplitSizes.




End SplitSizes.

Section GraphSplits.

Lemma slice_from_end {A} (l : list A) (b : Z) :
  (Z.of_nat (length l) <= b)%Z -> slice l (Some b) None = [].
Proof.
  intros Hb. unfold slice, slice_index.
  assert (Hb0 : (b <? 0)%Z = false) by (apply Z.ltb_ge; lia).
  rewrite Hb0.
  assert (Hl : length l <= Z.to_nat b).
  { rewrite <- (Nat2Z.id (length l)). apply Z2Nat.inj_le; lia. }
  rewrite (Nat.min_r _ _ Hl), Nat.sub_diag. reflexivity.
Qed.

End GraphSplits.


(* ================================================================== *)
(** * Splits by class *)

Section ClassPrimitives.

Lemma nonzero_eq_from_In (label : list Z) (c : Z) (i k : nat) :
  In k (nonzero_eq_from i label c)
  <-> i <= k /\ nth_error label (k - i) = Some c.
Proof.
  revert i; induction label as [|x t IH]; intros i; simpl.
  - split; [tauto|]. intros [_ H]. destruct (k - i); discriminate.
  - destruct (x =? c)%Z eqn:Heq; simpl; rewrite ?IH.
    + apply Z.eqb_eq in Heq; subst x. split.
      * intros [<-|[Hle Hn]].
        -- rewrite Nat.sub_diag; simpl; auto.
        -- split; [lia|].
           replace (k - i) with (S (k - S i)) by lia; exact Hn.
      * intros [Hle Hn].
        destruct (Nat.eq_dec i k) as [->|Hne]; [now left|right].
        split; [lia|].
        replace (k - i) with (S (k - S i)) in Hn by lia; exact Hn.
    + apply Z.eqb_neq in Heq. split.
      * intros [Hle Hn]. split; [lia|].
        replace (k - i) with (S (k - S i)) by lia; exact Hn.
      * intros [Hle Hn].
        destruct (Nat.eq_dec i k) as [->|Hne].
        -- rewrite Nat.sub_diag in Hn; simpl in Hn; congruence.
        -- split; [lia|].
           replace (k - i) with (S (k - S i)) in Hn by lia; exact Hn.
Qed.

Lemma nonzero_eq_In (label : list Z) (c : Z) (k : nat) :
  In k (nonzero_eq label c) <-> nth_error label k = Some c.
Proof.
  unfold nonzero_eq. rewrite nonzero_eq_from_In, Nat.sub_0_r.
  split; [tauto|]. intros H; split; [lia|assumption].
Qed.



Lemma nonzero_eq_from_length (label : list Z) (c : Z) (i : nat) :
  length (nonzero_eq_from i label c) = count_occ Z.eq_dec label c.
Proof.
  revert i; induction label as [|x t IH]; intros i; simpl; [reflexivity|].
  destruct (Z.eq_dec x c) as [->|Hne].
  - rewrite Z.eqb_refl. simpl. now rewrite IH.
  - apply Z.eqb_neq in Hne. rewrite Hne. apply IH.
Qed.

Lemma nonzero_eq_length (label : list Z) (c : Z) :
  length (nonzero_eq label c) = count_occ Z.eq_dec label c.
Proof. apply nonzero_eq_from_length. Qed.

Lemma nonzero_eq_bound (label : list Z) (c : Z) :
  Forall (fun k => k < length label) (nonzero_eq label c).
Proof.
  apply Forall_forall. intros k Hk. apply nonzero_eq_In in Hk.
  apply nth_error_Some. congruence.
Qed.

Lemma fold_max_spec (t : list Z) :
  forall x,
    (x <= fold_left Z.max t x)%Z
    /\ (forall y, In y t -> (y <= fold_left Z.max t x)%Z)
    /\ (fold_left Z.max t x = x \/ In (fold_left Z.max t x) t).
Proof.
  induction t as [|z t IH]; intros x; simpl.
  - split; [lia|]. split; [tauto|now left].
  - destruct (IH (Z.max x z)) as (H1 & H2 & H3).
    split; [lia|]. split.
    + intros y [<-|Hy]; [lia|now apply H2].
    + destruct H3 as [H3|H3]; [|now right; right].
      rewrite H3. destruct (Z.max_spec x z) as [[_ ->]|[_ ->]]; auto.
Qed.

Lemma tensor_max_ok (label : list Z) :
  label <> [] ->
  exists mx, tensor_max label = ok mx
             /\ In mx label /\ forall x, In x label -> (x <= mx)%Z.
Proof.
  destruct label as [|x t]; [congruence|]. intros _.
  destruct (fold_max_spec t x) as (H1 & H2 & H3).
  exists (fold_left Z.max t x). split; [reflexivity|]. split.
  - destruct H3 as [->|H3]; [now left|now right].
  - intros y [<-|Hy]; [exact H1|now apply H2].
Qed.

Lemma range_In (n c : Z) : In c (range n) <-> (0 <= c < n)%Z.
Proof.
  unfold range. rewrite in_map_iff. split.
  - intros (k & <- & Hk). apply in_seq in Hk. lia.
  - intros H. exists (Z.to_nat c). split; [lia|]. apply in_seq. lia.
Qed.


Lemma class_index_range (label : list Z) (mx c : Z) :
  In mx label -> (forall x, In x label -> (x <= mx)%Z) ->
  (In c (range (mx + 1)) <-> class_index_of label c).
Proof.
  intros Hin Hmax. rewrite range_In. unfold class_index_of. split.
  - intros H. split; [lia|]. exists mx. split; [exact Hin|lia].
  - intros (H0 & x & Hx & Hc). specialize (Hmax x Hx). lia.
Qed.





Lemma mask_or_length (a : BoolTensor) :
  forall b, length a = length b -> length (mask_or a b) = length a.
Proof.
  induction a as [|x a IH]; intros [|y b] H; simpl in *; try discriminate;
    [reflexivity|]. f_equal. apply IH. lia.
Qed.

Lemma mask_or_nth_error (a : BoolTensor) :
  forall b k x y,
    nth_error a k = Some x -> nth_error b k = Some y ->
    nth_error (mask_or a b) k = Some (x || y).
Proof.
  induction a as [|x0 a IH]; intros [|y0 b] [|k] x y Ha Hb; simpl in *;
    try discriminate.
  - congruence.
  - eapply IH; eauto.
Qed.

(** The positions outside both masks. *)
Lemma outside_both (a b : BoolTensor) (k : nat) :
  length a = length b ->
  (In k (where_true (mask_not (mask_or a b)))
   <-> nth_error a k = Some false /\ nth_error b k = Some false).
Proof.
  intros Hlen. rewrite where_true_In. unfold mask_not.
  rewrite nth_error_map.
  destruct (nth_error a k) as [x|] eqn:Ea.
  - destruct (nth_error b k) as [y|] eqn:Eb.
    + rewrite (mask_or_nth_error _ _ _ Ea Eb). simpl.
      destruct x, y; simpl; split; try tauto; try congruence;
        intros [? ?]; congruence.
    + exfalso. apply nth_error_None in Eb.
      assert (k < length a) by (apply nth_error_Some; congruence). lia.
  - assert (E : nth_error (mask_or a b) k = None).
    { apply nth_error_None. rewrite (mask_or_length _ _ Hlen).
      now apply nth_error_None. }
    rewrite E. simpl. split; [discriminate|intros [? _]; discriminate].
Qed.

(** The positions outside one mask. *)
Lemma outside_one (a : BoolTensor) (k : nat) :
  In k (where_true (mask_not a)) <-> nth_error a k = Some false.
Proof.
  rewrite where_true_In. unfold mask_not. rewrite nth_error_map.
  destruct (nth_error a k) as [[|]|]; simpl; split; congruence.
Qed.

End ClassPrimitives.

Section ClassSteps.

Lemma picks_in_range (idx p : list nat) (start stop : option Z) :
  Permutation p (seq 0 (length idx)) ->
  Forall (fun i => i < length idx) (slice p start stop).
Proof.
  intros Hp. apply Forall_forall. intros i Hi.
  apply slice_incl in Hi. apply (Permutation_in _ Hp) in Hi.
  apply in_seq in Hi. lia.
Qed.

Lemma picks_incl (idx l : list nat) :
  Forall (fun i => i < length idx) l ->
  incl (map (fun i => nth i idx 0) l) idx.
Proof.
  intros H x Hx. apply in_map_iff in Hx as (i & <- & Hi).
  rewrite Forall_forall in H. apply nth_In. now apply H.
Qed.


Lemma class_step_ok (label : list Z) (t v : Z) (train val_ : BoolTensor)
      (c : Z) (g : RNG) :
  length train = length label -> length val_ = length label ->
  (t + v < Z.of_nat (length (nonzero_eq label c)))%Z ->
  let idx := nonzero_eq label c in
  let p := fst (randperm (length idx) g) in
  let T := map (fun i => nth i idx 0) (slice p None (Some t)) in
  let V := map (fun i => nth i idx 0) (slice p (Some t) (Some (t + v)%Z)) in
  exists train' val',
    class_step label t v (train, val_) c g
    = (ok (train', val'), mkRNG (raw g) (cursor g + length idx))
    /\ length train' = length label /\ length val' = length label
    /\ (forall k, nth_error train' k = Some true
                  <-> nth_error train k = Some true \/ In k T)
    /\ (forall k, nth_error val' k = Some true
                  <-> nth_error val_ k = Some true \/ In k V).
Proof.
  intros Lt Lv Hbig idx p T V.
  pose proof (randperm_perm (length idx) g) as Hp. fold p in Hp.
  assert (HT : Forall (fun k => k < length train) T).
  { apply Forall_forall. intros k Hk.
    apply (@picks_incl idx _ (@picks_in_range idx p None (Some t) Hp)) in Hk.
    pose proof (nonzero_eq_bound label c) as Hb.
    rewrite Forall_forall in Hb. rewrite Lt. now apply Hb. }
  assert (HV : Forall (fun k => k < length val_) V).
  { apply Forall_forall. intros k Hk.
    apply (@picks_incl idx _
             (@picks_in_range idx p (Some t) (Some (t + v)%Z) Hp)) in Hk.
    pose proof (nonzero_eq_bound label c) as Hb.
    rewrite Forall_forall in Hb. rewrite Lv. now apply Hb. }
  destruct (@index_fill_true_ok T train HT) as (train' & Et & Ltr & Ntr).
  destruct (@index_fill_true_ok V val_ HV) as (val' & Ev & Lva & Nva).
  exists train', val'. split.
  - unfold class_step. fold idx.
    apply Z.ltb_lt in Hbig. fold idx in Hbig. rewrite Hbig. cbn [negb].
    unfold randperm. fold (randperm (length idx) g).
    change (randperm_from (length idx) (seq 0 (length idx)) (raw g)
                          (cursor g)) with p.
    rewrite (@gather_ok nat 0 idx _ (@picks_in_range idx p None (Some t) Hp)).
    rewrite (@gather_ok nat 0 idx _
               (@picks_in_range idx p (Some t) (Some (t + v)%Z) Hp)).
    fold T. fold V. unfold rbind at 1. unfold ok at 1.
    unfold rbind at 1. unfold ok at 1.
    rewrite Et. unfold rbind at 1. unfold ok at 1.
    rewrite Ev. reflexivity.
  - repeat split; try congruence; try apply Ntr; try apply Nva.
Qed.

Lemma class_step_fail (label : list Z) (t v : Z)
      (masks : BoolTensor * BoolTensor) (c : Z) (g : RNG) :
  (Z.of_nat (length (nonzero_eq label c)) <= t + v)%Z ->
  class_step label t v masks c g = (raise AssertionError, g).
Proof.
  intros H. unfold class_step. destruct masks as [train val_].
  apply Z.ltb_ge in H. now rewrite H.
Qed.


End ClassSteps.

Section ClassLoop.








End ClassLoop.

Section ClassSplitResult.


End ClassSplitResult.



Section ClassSplitOutcome.

Lemma class_loop_outcome (label : list Z) (t v : Z) :
  forall classes (train val_ : BoolTensor) g,
    length train = length label -> length val_ = length label ->
    ((forall c, In c classes ->
                (t + v < Z.of_nat (length (nonzero_eq label c)))%Z)
     /\ exists train' val' g',
          class_loop label t v classes (train, val_) g
          = (ok (train', val'), g')
          /\ length train' = length label /\ length val' = length label)
    \/ ((exists c, In c classes
                   /\ (Z.of_nat (length (nonzero_eq label c)) <= t + v)%Z)
        /\ exists g',
             class_loop label t v classes (train, val_) g
             = (raise AssertionError, g')
             /\ raw g' = raw g /\ cursor g <= cursor g').
Proof.
  induction classes as [|c rest IH]; intros train val_ g L1 L2.
  - left. split; [intros c []|]. exists train, val_, g. auto.
  - cbn [class_loop].
    destruct (Z_lt_le_dec (t + v) (Z.of_nat (length (nonzero_eq label c))))
      as [Hbig|Hsmall].
    + destruct (@class_step_ok label t v train val_ c g L1 L2 Hbig)
        as (train1 & val1 & Hstep & L1' & L2' & _).
      rewrite Hstep. unfold ok at 1. cbv beta iota.
      set (g1 := mkRNG (raw g) (cursor g + length (nonzero_eq label c))).
      destruct (IH train1 val1 g1 L1' L2')
        as [(Hall & Hok)|((c' & Hc' & Hs) & g' & Hrun & Hraw & Hcur)].
      * left. split; [|exact Hok].
        intros x [<-|Hx]; [exact Hbig|now apply Hall].
      * right. split; [exists c'; split; [now right|exact Hs]|].
        exists g'. split; [exact Hrun|].
        subst g1. cbn [raw cursor] in Hraw, Hcur. split; [exact Hraw|lia].
    + right. split; [exists c; split; [now left|exact Hsmall]|].
      exists g. rewrite (@class_step_fail label t v (train, val_) c g Hsmall).
      auto.
Qed.

Lemma remaining_bound (m : BoolTensor) :
  Forall (fun k => k < length m) (where_true (mask_not m)).
Proof.
  apply Forall_forall. intros k Hk. apply outside_one in Hk.
  apply nth_error_Some. congruence.
Qed.

Lemma fill_test_total (n : nat) (total_num_val total_num_test : option Z)
      (train val_ : BoolTensor) (g : RNG) :
  length train = n -> length val_ = n ->
  exists val' test g',
    fill_test_mask n total_num_val total_num_test train val_ g
    = (ok (train, val', test), g')
    /\ length val' = n /\ length test = n.
Proof.
  intros L1 L2. unfold fill_test_mask.
  assert (Lz : length (zeros_bool n) = n).
  { unfold zeros_bool. apply repeat_length. }
  destruct (positive_int total_num_val) eqn:Hpos.
  - set (tv := match total_num_val with Some k => k | None => 0%Z end).
    set (remaining := where_true (mask_not train)).
    pose proof (randperm_perm (length remaining) g) as Hp.
    destruct (randperm (length remaining) g) as [perm g'] eqn:Erp.
    cbn [fst] in Hp.
    assert (Hperm : Forall (fun i => i < length remaining) perm).
    { apply Forall_forall. intros i Hi.
      apply (Permutation_in _ Hp), in_seq in Hi. lia. }
    rewrite (@gather_ok nat 0 remaining perm Hperm).
    set (shuffled := map (fun i => nth i remaining 0) perm).
    assert (Hsh : forall start stop,
               Forall (fun k => k < n) (slice shuffled start stop)).
    { intros start stop. apply Forall_forall. intros k Hk.
      apply slice_incl in Hk. apply (@picks_incl remaining perm Hperm) in Hk.
      pose proof (remaining_bound train) as Hb.
      rewrite Forall_forall in Hb. rewrite <- L1. now apply Hb. }
    unfold rbind at 1. unfold ok at 1.
    destruct (@index_fill_true_ok (slice shuffled None (Some tv)) val_)
      as (val' & Ev & Lv & _); [rewrite L2; apply Hsh|].
    rewrite Ev. unfold rbind at 1. unfold ok at 1.
    destruct (positive_int total_num_test).
    + set (nt := match total_num_test with Some k => k | None => 0%Z end).
      destruct (@index_fill_true_ok
                  (slice shuffled (Some tv) (Some (tv + nt)%Z))
                  (zeros_bool n))
        as (test & Et & Lt & _); [rewrite Lz; apply Hsh|].
      rewrite Et. exists val', test, g'. split; [reflexivity|].
      split; congruence.
    + destruct (@index_fill_true_ok (slice shuffled (Some tv) None)
                                    (zeros_bool n))
        as (test & Et & Lt & _); [rewrite Lz; apply Hsh|].
      rewrite Et. exists val', test, g'. split; [reflexivity|].
      split; congruence.
  - destruct (@index_fill_true_ok
                (where_true (mask_not (mask_or train val_))) (zeros_bool n))
      as (test & Et & Lt & _).
    { rewrite Lz. apply Forall_forall. intros k Hk.
      apply outside_both in Hk as [Hk _]; [|congruence].
      rewrite <- L1. apply nth_error_Some. congruence. }
    rewrite Et. exists val_, test, g. split; [reflexivity|].
    split; congruence.
Qed.

End ClassSplitOutcome.

(** X18 -- the outcomes of the body of [random_splits_mask_class] on one
    node store, for any counts and totals and any seed torch accepts.  A
    label tensor without elements makes [max] raise.  When every class
    index from 0 to the largest label has more than
    [num_train_per_class + num_val_per_class] nodes the body returns three
    masks of the size of [label] with the generator restored.  Otherwise
    it raises [AssertionError], and the generator is not restored: it is
    left on the stream the loop was reading (the seeded one when an [int]
    seed was given). *)
Theorem X18_class_split_masks_outcome
        (manual_seed : Z -> RNG) (label : list Z)
        (num_train_per_class num_val_per_class : Z)
        (total_num_val total_num_test seed : option Z) (g : RNG) :
  seed_accepted seed ->
  let g1 := match seed with Some sd => manual_seed sd | None => g end in
  let run := class_split_masks manual_seed label num_train_per_class
               num_val_per_class total_num_val total_num_test seed g in
  (label = [] /\ run = (raise RuntimeError, g))
  \/ (label <> []
      /\ (forall c, class_index_of label c ->
                    (num_train_per_class + num_val_per_class
                     < Z.of_nat (count_occ Z.eq_dec label c))%Z)
      /\ exists train val_ test,
           run = (ok (train, val_, test), g)
           /\ length train = length label /\ length val_ = length label
           /\ length test = length label)
  \/ ((exists c, class_index_of label c
                 /\ (Z.of_nat (count_occ Z.eq_dec label c)
                     <= num_train_per_class + num_val_per_class)%Z)
      /\ exists g',
           run = (raise AssertionError, g')
           /\ raw g' = raw g1 /\ cursor g1 <= cursor g').
Proof.
  intros _.
  assert (Hcase : label = [] \/ label <> []).
  { destruct label; [now left|right; discriminate]. }
  destruct Hcase as [->|Hne]; [left; split; reflexivity|].
  intros g1 run. right.
  destruct (tensor_max_ok Hne) as (mx & Emax & Hin & Hmax).
  assert (Hrun : run = match class_loop label num_train_per_class
                               num_val_per_class (range (mx + 1))
                               (zeros_bool (length label),
                                zeros_bool (length label)) g1 with
                       | (inl e, g') => (inl e, g')
                       | (inr (train_mask, val_mask), g') =>
                           match fill_test_mask (length label) total_num_val
                                   total_num_test train_mask val_mask g' with
                           | (inl e, g'') => (inl e, g'')
                           | (inr masks, _) => (ok masks, g)
                           end
                       end).
  { unfold run, class_split_masks. rewrite Emax. reflexivity. }
  assert (Lz : length (zeros_bool (length label)) = length label).
  { unfold zeros_bool. apply repeat_length. }
  destruct (@class_loop_outcome label num_train_per_class num_val_per_class
              (range (mx + 1)) (zeros_bool (length label))
              (zeros_bool (length label)) g1 Lz Lz)
    as [(Hall & train & val_ & g2 & Hloop & L1 & L2)
       |((c & Hc & Hs) & g' & Hloop & Hraw & Hcur)].
  - left. split; [exact Hne|]. split.
    + intros c Hc. rewrite <- nonzero_eq_length. apply Hall.
      now apply (@class_index_range label mx c Hin Hmax).
    + destruct (@fill_test_total (length label) total_num_val
                  total_num_test train val_ g2 L1 L2)
        as (val' & test & g3 & Hfill & L2' & L3).
      exists train, val', test. split; [|auto].
      rewrite Hrun, Hloop. unfold ok at 1. cbv beta iota.
      rewrite Hfill. reflexivity.
  - right. split.
    + exists c. split.
      * now apply (@class_index_range label mx c Hin Hmax).
      * now rewrite <- nonzero_eq_length.
    + exists g'. split; [|auto]. rewrite Hrun, Hloop. reflexivity.
Qed.

Lemma X18_witness :
  seed_accepted (Some 5%Z)
  /\ exists g',
       class_split_masks const_rng [0; 1; 0]%Z 1 1 None None (Some 5%Z)
                         (const_rng 3)
       = (raise AssertionError, g').
Proof.
  assert (Hseed : seed_accepted (Some 5%Z)) by (simpl; lia).
  split; [exact Hseed|].
  destruct (@X18_class_split_masks_outcome const_rng [0; 1; 0]%Z 1 1
              None None (Some 5%Z) (const_rng 3) Hseed)
    as [[Hl _]|[(_ & Hbig & _)|(_ & g' & Hrun & _)]].
  - discriminate.
  - exfalso.
    assert (Hc : class_index_of [0; 1; 0]%Z 1).
    { split; [lia|]. exists 1%Z. split; [simpl; auto|lia]. }
    specialize (Hbig 1%Z Hc). vm_compute in Hbig. discriminate.
  - exists g'. exact Hrun.
Defined.

Section TotalValidation.



Lemma slice_length_from {A} (l : list A) (a : Z) :
  (0 <= a)%Z ->
  length (slice l (Some a) None)
  = length l - Nat.min (Z.to_nat a) (length l).
Proof.
  intros Ha. unfold slice, slice_index.
  assert (Ha0 : (a <? 0)%Z = false) by (apply Z.ltb_ge; lia).
  rewrite Ha0, length_firstn, length_skipn. apply Nat.min_id.
Qed.

Lemma slice_length_between {A} (l : list A) (a b : Z) :
  (0 <= a)%Z -> (0 <= b)%Z ->
  length (slice l (Some a) (Some b))
  = Nat.min (Z.to_nat b) (length l) - Nat.min (Z.to_nat a) (length l).
Proof.
  intros Ha Hb. unfold slice, slice_index.
  assert (Ha0 : (a <? 0)%Z = false) by (apply Z.ltb_ge; lia).
  assert (Hb0 : (b <? 0)%Z = false) by (apply Z.ltb_ge; lia).
  rewrite Ha0, Hb0, length_firstn, length_skipn.
  clear Ha Hb Ha0 Hb0.
  generalize (Z.to_nat a) (Z.to_nat b) (length l). intros x y n.
  apply Nat.min_l. apply Nat.sub_le_mono_r. apply Nat.le_min_r.
Qed.





End TotalValidation.



Section ClassSplitDataset.

Variable manual_seed : Z -> RNG.
Variables (num_train_per_class num_val_per_class : Z).
Variables (total_num_val total_num_test seed : option Z).
Variable g : RNG.







End ClassSplitDataset.



(* ================================================================== *)
(** * Splits of a set of graphs *)

Section DoubleFacts.

Variable round : Q -> Q.
Hypothesis round_ok : rounding round.

Lemma round_mono (x y : Q) : (x <= y)%Q -> (round x <= round y)%Q.
Proof. apply round_ok. Qed.

Lemma round_int (z : Z) :
  (Z.abs z <= 2 ^ 53)%Z -> (round (inject_Z z) == inject_Z z)%Q.
Proof. apply round_ok. Qed.

Lemma round_nonneg (x : Q) : (0 <= x)%Q -> (0 <= round x)%Q.
Proof.
  intros H. apply round_mono in H.
  assert (H0 : (round (inject_Z 0) == inject_Z 0)%Q).
  { apply round_int. vm_compute. discriminate. }
  change (inject_Z 0) with 0%Q in H0. now rewrite H0 in H.
Qed.

Lemma round_ge_one (x : Q) : (1 <= x)%Q -> (1 <= round x)%Q.
Proof.
  intros H. apply round_mono in H.
  assert (H1 : (round (inject_Z 1) == inject_Z 1)%Q).
  { apply round_int. vm_compute. discriminate. }
  change (inject_Z 1) with 1%Q in H1. now rewrite H1 in H.
Qed.

Lemma round_le_double (x : Q) : (0 <= x)%Q -> (round x <= 2 * x)%Q.
Proof. apply round_ok. Qed.

Lemma Qle_bool_false (x y : Q) : (y < x)%Q -> Qle_bool x y = false.
Proof.
  intros H. destruct (Qle_bool x y) eqn:E; [|reflexivity].
  apply Qle_bool_iff in E. lra.
Qed.

Lemma overflow_above (z : Z) :
  (z <= 2 ^ 1023)%Z -> (inject_Z z < double_overflow)%Q.
Proof.
  intros H. unfold double_overflow. rewrite <- Zlt_Qlt.
  assert (H0 : (2 ^ 1023 < 2 ^ 1024 - 2 ^ 970)%Z) by (vm_compute; reflexivity).
  lia.
Qed.

Lemma overflow_positive : (0 < double_overflow)%Q.
Proof. apply (@overflow_above 0%Z). vm_compute. discriminate. Qed.

(** A value between 0 and [2^1023] rounds to a finite double. *)
Lemma to_double_finite (q : Q) :
  (0 <= q)%Q -> (q <= inject_Z (2 ^ 1023))%Q ->
  to_double round q = Fin (round q).
Proof.
  intros H0 H1. unfold to_double.
  pose proof (@overflow_above (2 ^ 1023)%Z (Z.le_refl _)) as Hb.
  pose proof overflow_positive as Hp.
  rewrite Qle_bool_false by lra.
  rewrite Qle_bool_false by lra.
  reflexivity.
Qed.

(** [int(n * x)] for a count of at most [2^53] and a non-negative double
    when the product stays within [2^1023]. *)
Lemma split_bound_finite (n : nat) (x : Q) :
  (Z.of_nat n <= 2 ^ 53)%Z -> (0 <= x)%Q ->
  (inject_Z (Z.of_nat n) * x <= inject_Z (2 ^ 1023))%Q ->
  split_bound round n (Fin x)
  = ok (Qfloor (round (round (inject_Z (Z.of_nat n)) * x)))
  /\ (0 <= round (round (inject_Z (Z.of_nat n)) * x))%Q.
Proof.
  intros Hn Hx Hp.
  set (qn := inject_Z (Z.of_nat n)) in *.
  assert (Hqn : (round qn == qn)%Q) by (apply round_int; lia).
  assert (Hq0 : (0 <= qn)%Q).
  { unfold qn. change 0%Q with (inject_Z 0). rewrite <- Zle_Qle. lia. }
  assert (Hprod : (round qn * x == qn * x)%Q) by now rewrite Hqn.
  assert (Hp0 : (0 <= round qn * x)%Q).
  { rewrite Hprod. now apply Qmult_le_0_compat. }
  assert (Hr0 : (0 <= round (round qn * x))%Q) by now apply round_nonneg.
  split; [|exact Hr0].
  unfold split_bound, int_times_double. fold qn.
  rewrite Qle_bool_false.
  2:{ apply Qle_lt_trans with (inject_Z (2 ^ 53)).
      - unfold qn. rewrite <- Zle_Qle. exact Hn.
      - apply overflow_above. vm_compute. discriminate. }
  unfold rbind, ok at 1.
  rewrite to_double_finite; [|exact Hp0|now rewrite Hprod].
  cbn [int_of_double]. f_equal.
  now apply int_of_float_nonneg.
Qed.

End DoubleFacts.

Section GraphSplitFacts.

Variable manual_seed : Z -> RNG.
Variable round : Q -> Q.

Lemma slice_length_to {A} (l : list A) (a : Z) :
  (0 <= a)%Z ->
  length (slice l None (Some a)) = Nat.min (Z.to_nat a) (length l).
Proof.
  intros Ha. unfold slice, slice_index.
  assert (Ha0 : (a <? 0)%Z = false) by (apply Z.ltb_ge; lia).
  rewrite Ha0, length_firstn, Nat.sub_0_r. cbn [skipn].
  apply Nat.min_l, Nat.le_min_r.
Qed.

(** The run of [graph_random_splits] once its two slice bounds are known. *)
Lemma graph_random_splits_run (len_dataset : nat) (train_ratio val_ratio : Q)
      (seed : option Z) (g : RNG) (a b : Z) :
  split_bound round len_dataset (Fin train_ratio) = ok a ->
  split_bound round len_dataset (double_add round train_ratio val_ratio)
  = ok b ->
  let perm :=
    fst (randperm len_dataset
                  (match seed with Some sd => manual_seed sd | None => g end))
  in
  graph_random_splits manual_seed round len_dataset train_ratio val_ratio
                      seed g
  = (ok (mkGraphSplit (slice perm None (Some a))
                      (slice perm (Some a) (Some b))
                      (slice perm (Some b) None)), g).
Proof.
  intros Ha Hb perm. unfold graph_random_splits.
  rewrite (surjective_pairing
             (randperm len_dataset
                (match seed with Some sd => manual_seed sd | None => g end))).
  fold perm. rewrite Ha, Hb. reflexivity.
Qed.

(** The run when the first bound cannot be computed. *)
Lemma graph_random_splits_fails (len_dataset : nat)
      (train_ratio val_ratio : Q) (seed : option Z) (g : RNG) (e : exn) :
  split_bound round len_dataset (Fin train_ratio) = raise e ->
  graph_random_splits manual_seed round len_dataset train_ratio val_ratio
                      seed g
  = (raise e,
     snd (randperm len_dataset
            (match seed with Some sd => manual_seed sd | None => g end))).
Proof.
  intros Ha. unfold graph_random_splits.
  rewrite (surjective_pairing
             (randperm len_dataset
                (match seed with Some sd => manual_seed sd | None => g end))).
  rewrite Ha. reflexivity.
Qed.

Hypothesis round_ok : rounding round.

Lemma two_pow_1023 : (2 * inject_Z (2 ^ 1022) == inject_Z (2 ^ 1023))%Q.
Proof. unfold Qeq. vm_compute. reflexivity. Qed.

(** The two slice bounds for non-negative ratios, when nothing leaves the
    range of the doubles. *)
Lemma split_bounds_ordered (n : nat) (train_ratio val_ratio : Q) :
  is_double round train_ratio ->
  (0 <= train_ratio)%Q -> (0 <= val_ratio)%Q ->
  (Z.of_nat n <= 2 ^ 53)%Z ->
  (train_ratio + val_ratio <= inject_Z (2 ^ 1022))%Q ->
  (inject_Z (Z.of_nat n) * (train_ratio + val_ratio)
   <= inject_Z (2 ^ 1022))%Q ->
  exists a b,
    split_bound round n (Fin train_ratio) = ok a
    /\ split_bound round n (double_add round train_ratio val_ratio) = ok b
    /\ (0 <= a <= b)%Z
    /\ ((1 <= train_ratio + val_ratio)%Q -> (Z.of_nat n <= b)%Z).
Proof.
  intros Hd Ht Hv Hn Hs Hns.
  set (qn := inject_Z (Z.of_nat n)) in *.
  set (s := (train_ratio + val_ratio)%Q) in *.
  assert (Hs0 : (0 <= s)%Q) by (unfold s; lra).
  assert (Hq0 : (0 <= qn)%Q).
  { unfold qn. change 0%Q with (inject_Z 0). rewrite <- Zle_Qle. lia. }
  assert (Hqn : (round qn == qn)%Q) by (apply round_int; [exact round_ok|lia]).
  pose proof two_pow_1023 as H2.
  assert (Hsum : double_add round train_ratio val_ratio = Fin (round s)).
  { unfold double_add. fold s. apply to_double_finite; [exact Hs0|lra]. }
  set (x2 := round s) in *.
  assert (Hx0 : (0 <= x2)%Q) by (apply round_nonneg; assumption).
  assert (Hx2 : (x2 <= 2 * s)%Q) by (apply round_le_double; assumption).
  assert (Htx : (train_ratio <= x2)%Q).
  { unfold is_double in Hd. rewrite <- Hd. apply round_mono; [exact round_ok|].
    unfold s. lra. }
  assert (Hps : (0 <= qn * s)%Q) by now apply Qmult_le_0_compat.
  assert (Hp1 : (qn * train_ratio <= qn * s)%Q).
  { rewrite (Qmult_comm qn train_ratio), (Qmult_comm qn s).
    apply Qmult_le_compat_r; [unfold s; lra|exact Hq0]. }
  assert (Hp2 : (qn * x2 <= 2 * (qn * s))%Q).
  { assert (qn * x2 <= qn * (2 * s))%Q.
    { rewrite (Qmult_comm qn x2), (Qmult_comm qn (2 * s)).
      apply Qmult_le_compat_r; assumption. }
    lra. }
  destruct (@split_bound_finite round round_ok n train_ratio Hn Ht)
    as [Ea Ha0]; [fold qn; lra|].
  destruct (@split_bound_finite round round_ok n x2 Hn Hx0)
    as [Eb Hb0]; [fold qn; lra|].
  fold qn in Ea, Ha0, Eb, Hb0.
  exists (Qfloor (round (round qn * train_ratio))),
         (Qfloor (round (round qn * x2))).
  split; [exact Ea|]. split; [rewrite Hsum; exact Eb|].
  assert (Hrq0 : (0 <= round qn)%Q) by now rewrite Hqn.
  split; [split|].
  - change 0%Z with (Qfloor 0). now apply Qfloor_resp_le.
  - apply Qfloor_resp_le. apply round_mono; [exact round_ok|].
    rewrite (Qmult_comm (round qn) train_ratio),
      (Qmult_comm (round qn) x2).
    apply Qmult_le_compat_r; assumption.
  - intros H1.
    assert (Hx1 : (1 <= x2)%Q) by (apply round_ge_one; assumption).
    rewrite <- (Qfloor_Z (Z.of_nat n)). fold qn.
    apply Qfloor_resp_le.
    apply Qle_trans with (round qn); [now rewrite Hqn; apply Qle_refl|].
    apply round_mono; [exact round_ok|].
    assert (round qn * 1 <= round qn * x2)%Q.
    { rewrite (Qmult_comm (round qn) 1), (Qmult_comm (round qn) x2).
      apply Qmult_le_compat_r; assumption. }
    lra.
Qed.

End GraphSplitFacts.

(** X16 -- [graph_random_splits] has no check on the ratios.  For
    non-negative ratios, whatever their sum, as long as no product leaves
    the range of the doubles or of the 64-bit integers (at most [2^53]
    graphs, and [train_ratio + val_ratio] and [len(dataset) * (train_ratio
    + val_ratio)] at most [2^60]) and the seed is one torch accepts, it
    returns with the generator restored.  The two slice bounds [a = int(len(dataset) *
    train_ratio)] and [b = int(len(dataset) * (train_ratio + val_ratio))],
    computed in doubles, satisfy [0 <= a <= b], so the three index tensors
    are consecutive pieces of one permutation of [range(len(dataset))]:
    every graph lands in exactly one of them, and their sizes are the
    bounds clipped to the number of graphs.  An [int] seed makes the split
    independent of the generator state, and when the ratios sum to 1 or
    more the test index is empty. *)
Theorem X16_graph_random_splits_partition
        (manual_seed : Z -> RNG) (round : Q -> Q) (len_dataset : nat)
        (train_ratio val_ratio : Q) (seed : option Z) (g : RNG) :
  rounding round -> is_double round train_ratio ->
  (0 <= train_ratio)%Q -> (0 <= val_ratio)%Q ->
  (Z.of_nat len_dataset <= 2 ^ 53)%Z ->
  (train_ratio + val_ratio <= inject_Z (2 ^ 60))%Q ->
  (inject_Z (Z.of_nat len_dataset) * (train_ratio + val_ratio)
   <= inject_Z (2 ^ 60))%Q ->
  seed_accepted seed ->
  exists d a b,
    split_bound round len_dataset (Fin train_ratio) = ok a
    /\ split_bound round len_dataset
                   (double_add round train_ratio val_ratio) = ok b
    /\ (0 <= a <= b)%Z
    /\ graph_random_splits manual_seed round len_dataset train_ratio
                           val_ratio seed g
       = (ok d, g)
    /\ Permutation (train_index d ++ val_index d ++ test_index d)
                   (seq 0 len_dataset)
    /\ length (train_index d) = Nat.min (Z.to_nat a) len_dataset
    /\ length (val_index d)
       = Nat.min (Z.to_nat b) len_dataset - Nat.min (Z.to_nat a) len_dataset
    /\ length (test_index d) = len_dataset - Nat.min (Z.to_nat b) len_dataset
    /\ (forall sd g2,
          seed = Some sd ->
          graph_random_splits manual_seed round len_dataset train_ratio
                              val_ratio seed g2
          = (ok d, g2))
    /\ ((1 <= train_ratio + val_ratio)%Q -> test_index d = []).
Proof.
  intros Hround Hd Ht Hv Hn Hs60 Hns60 _.
  assert (H60 : (inject_Z (2 ^ 60) <= inject_Z (2 ^ 1022))%Q).
  { rewrite <- Zle_Qle. vm_compute. discriminate. }
  assert (Hs : (train_ratio + val_ratio <= inject_Z (2 ^ 1022))%Q)
    by (eapply Qle_trans; eassumption).
  assert (Hns : (inject_Z (Z.of_nat len_dataset) * (train_ratio + val_ratio)
                 <= inject_Z (2 ^ 1022))%Q)
    by (eapply Qle_trans; eassumption).
  destruct (@split_bounds_ordered round Hround len_dataset train_ratio
              val_ratio Hd Ht Hv Hn Hs Hns)
    as (a & b & Ea & Eb & Hab & Hfull).
  set (g1 := match seed with Some sd => manual_seed sd | None => g end).
  set (perm := fst (randperm len_dataset g1)).
  assert (Hperm : Permutation perm (seq 0 len_dataset))
    by apply randperm_perm.
  assert (Hlen : length perm = len_dataset).
  { rewrite (Permutation_length Hperm). apply length_seq. }
  exists (mkGraphSplit (slice perm None (Some a))
                       (slice perm (Some a) (Some b))
                       (slice perm (Some b) None)), a, b.
  split; [exact Ea|]. split; [exact Eb|]. split; [exact Hab|].
  split.
  { exact (@graph_random_splits_run manual_seed round len_dataset
             train_ratio val_ratio seed g a b Ea Eb). }
  cbn [train_index val_index test_index].
  split; [rewrite slices_cover by exact Hab; exact Hperm|].
  split; [rewrite slice_length_to, Hlen by lia; reflexivity|].
  split; [rewrite slice_length_between, Hlen by lia; reflexivity|].
  split; [rewrite slice_length_from, Hlen by lia; reflexivity|].
  split.
  - intros sd g2 Hsd. subst seed.
    exact (@graph_random_splits_run manual_seed round len_dataset
             train_ratio val_ratio (Some sd) g2 a b Ea Eb).
  - intros H1. apply slice_from_end. rewrite Hlen. now apply Hfull.
Qed.

Lemma X16_witness :
  exists d,
    graph_random_splits const_rng (fun q => q) 7 (3 # 5) (3 # 5) None
                        (const_rng 2)
    = (ok d, const_rng 2)
    /\ Permutation (train_index d ++ val_index d ++ test_index d) (seq 0 7)
    /\ test_index d = [].
Proof.
  assert (Hround : rounding (fun q : Q => q)).
  { split; [auto|]. split; [intros; reflexivity|]. intros x Hx. lra. }
  destruct (@X16_graph_random_splits_partition const_rng (fun q => q) 7
              (3 # 5) (3 # 5) None (const_rng 2) Hround)
    as (d & a & b & _ & _ & _ & Hrun & Hperm & _ & _ & _ & _ & Hfull).
  - unfold is_double. reflexivity.
  - unfold Qle; simpl; lia.
  - unfold Qle; simpl; lia.
  - vm_compute. discriminate.
  - unfold Qle. vm_compute. discriminate.
  - unfold Qle. vm_compute. discriminate.
  - exact I.
  - exists d. split; [exact Hrun|]. split; [exact Hperm|].
    apply Hfull. unfold Qle; simpl; lia.
Defined.

(** X22 -- [graph_random_splits] when [len(dataset) * train_ratio] is
    beyond the range of the doubles (ten graphs and a ratio of [1e308],
    say): the product is an infinity and [int] raises [OverflowError].
    This happens after the generator was seeded and the permutation drawn
    and before the generator state is put back: the generator is left on
    the seeded stream (or the current one, without an [int] seed),
    advanced by the permutation. *)
Theorem X22_graph_random_splits_overflow
        (manual_seed : Z -> RNG) (round : Q -> Q) (len_dataset : nat)
        (train_ratio val_ratio : Q) (seed : option Z) (g : RNG) :
  rounding round ->
  (Z.of_nat len_dataset <= 2 ^ 53)%Z ->
  (double_overflow <= inject_Z (Z.of_nat len_dataset) * train_ratio)%Q
  \/ (inject_Z (Z.of_nat len_dataset) * train_ratio <= - double_overflow)%Q ->
  seed_accepted seed ->
  let g1 := match seed with Some sd => manual_seed sd | None => g end in
  graph_random_splits manual_seed round len_dataset train_ratio val_ratio
                      seed g
  = (raise OverflowError, mkRNG (raw g1) (cursor g1 + len_dataset)).
Proof.
  intros Hround Hn Hover _ g1.
  set (qn := inject_Z (Z.of_nat len_dataset)) in *.
  assert (Hqn : (round qn == qn)%Q) by (apply round_int; [exact Hround|lia]).
  assert (Hprod : (round qn * train_ratio == qn * train_ratio)%Q)
    by now rewrite Hqn.
  assert (Hb : split_bound round len_dataset (Fin train_ratio)
               = raise OverflowError).
  { unfold split_bound, int_times_double. fold qn.
    rewrite Qle_bool_false.
    2:{ apply Qle_lt_trans with (inject_Z (2 ^ 53)).
        - unfold qn. rewrite <- Zle_Qle. exact Hn.
        - apply overflow_above. vm_compute. discriminate. }
    unfold rbind, ok at 1. unfold to_double.
    pose proof overflow_positive as Hp.
    destruct Hover as [Hbig|Hsmall].
    - assert (E : Qle_bool double_overflow (round qn * train_ratio) = true).
      { apply Qle_bool_iff. now rewrite Hprod. }
      rewrite E. reflexivity.
    - rewrite Qle_bool_false by (rewrite Hprod; lra).
      assert (E : Qle_bool (round qn * train_ratio) (- double_overflow)
                  = true).
      { apply Qle_bool_iff. now rewrite Hprod. }
      rewrite E. reflexivity. }
  exact (@graph_random_splits_fails manual_seed round len_dataset
           train_ratio val_ratio seed g OverflowError Hb).
Qed.

Lemma X22_witness :
  graph_random_splits const_rng (fun q => q) 10 (inject_Z (2 ^ 1023)) 0
                      (Some 5%Z) (const_rng 2)
  = (raise OverflowError, mkRNG (raw (const_rng 5)) 10).
Proof.
  assert (Hround : rounding (fun q : Q => q)).
  { split; [auto|]. split; [intros; reflexivity|]. intros x Hx. lra. }
  apply (@X22_graph_random_splits_overflow const_rng (fun q => q) 10
           (inject_Z (2 ^ 1023)) 0 (Some 5%Z) (const_rng 2) Hround).
  - vm_compute. discriminate.
  - left. unfold Qle. vm_compute. discriminate.
  - simpl. lia.
Defined.
